(* ===== verification/_CoqProject ===== *)
-Q . S2P
Prelude.v
Memory.v
Structs.v
CString.v
ListSeg.v
Fixtures.v
Exec.v
QueueOps.v
Reverse.v
MergeSort.v
Compare.v
Merge.v
Sort.v
Contract.v
Refine.v
