(* ===== verification/Prelude.v ===== *)
(** * Verification of [queue.c]: a linked-list string queue in C

    The program ([src/queue.c]) is one C module: a queue of heap-allocated
    strings kept in a singly linked list with [head] and [tail] pointers
    and a [size] counter.  Its operations are [q_new], [q_free],
    [q_insert_head], [q_insert_tail], [q_remove_head], [q_size],
    [q_reverse] and the merge sort [q_sort] with its helpers [less_than]
    and [q_merge].  Everything the program does is pointer manipulation
    on [malloc]ed storage, so the development models the C memory
    explicitly and translates every function statement by statement into
    a state and error monad over that memory.

    ** Files, in dependency order

    - [Prelude] (this file): the [fault] and [result] types, the state
      and error monad [M] with its notations (scope [M]), the predicate
      transformers [wpo] (any outcome) and [wp] (a result, no fault) with
      their rules, the hint database [cq], C's integer conversions
      ([int], [size_t]) and the lemmas on lists without repetition that
      decide the distinctness of blocks.
    - [Memory]: the memory model.  A heap is a finite map from block
      identifiers to blocks of cells; a pointer is [Null] or a block with
      an offset; a cell holds an integer, a pointer or an indeterminate
      value.  [load], [store], [malloc], [free], and [stack_alloc] and
      [stack_free] for the local [queue_t] records of [q_sort].  [malloc]
      is parameterised by the class [Allocator] (which block a request
      gets, or failure), so the theorems hold for every allocation
      policy, those that reuse released blocks included.
    - [Structs]: the records [queue_t] and [list_ele_t] of [queue.h], one
      cell per field, and the addresses of the fields.
    - [CString]: [strlen] and [strncpy] as the C standard describes them,
      and the representation [cstr_at] of a terminated string.
    - [ListSeg]: the representation predicates that tie a heap to the
      elements of a queue: [elem] (a node, its string block, the
      string), [nodes_ok], [strs_ok], [queue_rep] (the queue with
      whatever [tail] holds) and [queue_ok] ([tail] is the last node:
      the invariant of the spec's data model); the framing relations
      [same_outside] and [agree_on].
    - [Fixtures]: small concrete heaps, and the tactic that decides
      representation facts on them by evaluation.
    - [Exec]: the tactics that run translated code forward.
    - [QueueOps]: [q_new], [q_free], [q_insert_head], [q_insert_tail],
      [q_remove_head], [q_size].
    - [Reverse]: [q_reverse].
    - [MergeSort]: the functional model of the sort, [merge] and [msort]
      on lists, with the split at [left_size n = (n >> 1) + (n & 1)].
    - [Compare]: [less_than], and the order [lex_ltb] it decides.
    - [Merge]: [q_merge].
    - [Sort]: [q_sort].
    - [Contract]: what a caller may rely on, as a machine [astep] on
      lists of strings, with the laws of the machine itself (first in
      first out, last in first out, insertions followed by a sort).
    - [Refine]: the calls of a caller on the heap ([run_call],
      [run_calls], [run_session]) and the proof that the code implements
      the machine; the laws of the machine, carried over to the code.

    ** How the model corresponds to the code

    Every C function is one [Definition] of the same name, every loop
    one [Fixpoint] named after its function ([q_free_loop],
    [q_reverse_loop], [less_than_loop], [q_merge_loop], [q_merge_rest],
    [q_sort_walk]); the statements of [q_sort] between the declarations
    and the recursive calls are [q_sort_split].  A statement that reads
    or writes memory is a [load] or [store] of the address of the field
    ([head_of q] is [&q->head]); an early [return] is a branch that ends
    in [ret]; a call is a bind.  Undefined behaviour (a null or dangling
    dereference, a read of an indeterminate value, an access out of
    bounds, a bad [free], signed overflow) is a [Fault], never a value.
    [int] is taken as 32 bits, [size_t] as 64.  A cell of a string
    holds the value of a [char] as an integer: the conversion from bytes,
    and with it the signedness of [char], is not modelled, and the
    theorems on the order hold for whichever values the cells hold.

    ** Fuel

    Loops are [Fixpoint]s on a fuel argument.  The loops that walk a
    list take [fuel_of h], one more than the number of blocks of the
    heap: a walk over a chain without a cycle visits a block at most
    once.  [less_than] takes the number of cells of the block of its
    left string, and is proved never to run out, on any heap.
    [q_sort_rec] takes the depth of the recursion: [q_sort] passes
    [fuel_of h], and [ceil(log2 n)], at most 31, is proved to be enough.
    Every theorem that says that an operation returns is proved for the
    fuel that the model takes, not under the assumption that it returns.

    ** What the theorems show

    - [QueueOps], [Reverse]: each operation on a represented queue
      returns without fault and leaves the queue that the specification
      describes, on the same blocks, and nothing else changes; the
      failure paths (no memory, empty queue, [NULL]) change nothing.
      [q_remove_head] of the last element leaves [tail] at the released
      node, from which [q_insert_tail] stores through released memory
      (or, where [malloc] hands the block out again, links the new node
      to itself), and from which [q_reverse] makes [head] the released
      node, so that the next [q_remove_head] or [q_free] reads released
      memory ([q_reverse_stale_tail], for every such queue).
    - [Compare]: [less_than] decides a strict total order and always
      terminates; the order is the lexicographic order of the values
      of the characters, a proper prefix first.
    - [Merge], [Sort]: [q_merge] computes [merge] and [q_sort] computes
      [msort] on the nodes themselves (a refinement of the functional
      model); the result is a sorted permutation, its strings are those
      stdpp's [merge_sort] gives, the heap has the same blocks as
      before, and [tail] is rebuilt when there are two elements or
      more.  The sort is not stable.
    - [Contract], [Refine]: the state of the contract is the list of
      strings, a flag that says whether [tail] is the last node, and the
      caller's memory.  Every call that the machine admits returns with
      a reply that the machine allows in a heap that represents the next
      state ([call_refines]); so do sequences ([calls_refine]); a
      session from [q_new] to [q_free] gives back the heap it started
      from ([session_restores_heap]); a string inserted at the tail is
      delivered after the strings before it ([fifo_delivery]), a string
      inserted at the head by the next removal ([lifo_delivery]), and
      strings inserted at the tail and sorted are in the queue in the
      order of stdpp's [merge_sort] ([sorted_after_inserts]).  These
      three are proved once on the machine and carried over to the code
      by the refinement of sequences ([refine_calls]).  The machine
      does not admit [q_insert_tail] and [q_reverse] between the removal
      of the last element and the next sort of two elements or more:
      that is the part of the specification that the code does not
      implement; what the code does there is the subject of the
      theorems on the stale [tail] in [QueueOps] and [Reverse].

    ** Assumptions

    The development declares no axiom.  [msort] is defined by
    well-founded recursion with Equations, whose unfolding lemma rests on
    [functional_extensionality_dep] of the Standard Library: the theorems
    that mention [msort] (those of [Sort], and through the [Sort] call
    those of [Refine]) depend on that axiom and on no other.  [malloc]
    is a function of the heap and the size requested: a policy is any
    instance of [Allocator], and the theorems hold for each, but one
    policy gives one answer for one heap.  [safe] asks that a sequence
    of calls be admitted whatever the earlier calls reply, so the
    refinement of a sequence covers every way in which allocation may
    fail along it.

    ** Not modelled

    [harness.h], the allocation-tracking test harness, is outside the
    sources; what it checks, that every block is released once, is what
    the heap model provides.  [queue.h] is outside the sources as well:
    the two records are modelled from the fields that [queue.c] uses.
    Bytes below the level of a cell (the representation of pointers and
    integers) are not modelled: no statement of the program depends on
    it.  The stack is not bounded: the two records of a call of [q_sort]
    are blocks like any other, and the depth of the recursion is a
    theorem. *)

From Stdlib Require Import ZArith Lia Sorted.
From stdpp Require Import base tactics option list numbers.

(** [set_solver] clears hypotheses that are already gone; the warning says
    nothing about the development. *)
#[export] Set Warnings "-clear-no-such-hyp".

Local Open Scope Z_scope.

(** ** Faults and results *)

(** The ways in which a C execution can go wrong.  [OutOfFuel] is not a
    behaviour of the program but of the model: a loop exceeded its fuel. *)
Inductive fault : Set :=
  | NullDeref
  | DanglingAccess
  | OutOfBounds
  | UninitRead
  | TypeMismatch
  | InvalidFree
  | SignedOverflow
  | OutOfFuel.

Inductive result (A : Type) : Type :=
  | Ok (a : A)
  | Fault (f : fault).

Arguments Ok {A} a.
Arguments Fault {A} f.

#[export] Instance fault_eq_dec : EqDecision fault.
Proof. solve_decision. Defined.

#[export] Instance result_eq_dec {A} `{EqDecision A} : EqDecision (result A).
Proof. solve_decision. Defined.

Definition is_ok {A} (r : result A) : bool :=
  match r with Ok _ => true | Fault _ => false end.

(** ** The state and error monad *)

Definition M (S A : Type) : Type := S -> result (A * S).

Definition ret {S A} (a : A) : M S A := fun s => Ok (a, s).

Definition bind {S A B} (m : M S A) (k : A -> M S B) : M S B :=
  fun s => match m s with
           | Ok (a, s') => k a s'
           | Fault f => Fault f
           end.

Definition throw {S A} (f : fault) : M S A := fun _ => Fault f.

Definition get_state {S} : M S S := fun s => Ok (s, s).

Definition put_state {S} (s : S) : M S unit := fun _ => Ok (tt, s).

(** Lifting of a pure, fallible computation. *)
Definition lift_result {S A} (r : result A) : M S A :=
  fun s => match r with Ok a => Ok (a, s) | Fault f => Fault f end.

Declare Scope M_scope.
Delimit Scope M_scope with M.
Bind Scope M_scope with M.

Notation "x <- m ;; k" := (bind m (fun x => k))
  (at level 100, m at next level, right associativity,
   format "'[v' x  <-  m  ;; '/' k ']'") : M_scope.
Notation "m ;;; k" := (bind m (fun _ => k))
  (at level 100, right associativity,
   format "'[v' m  ;;; '/' k ']'") : M_scope.

(** ** Outcomes and weakest preconditions

    [wpo m R s]: the outcome of running [m] from [s], a fault included,
    satisfies [R].  [wp m Q s] is the case of a run that returns without
    fault with a value and a final state that satisfy [Q]. *)
Definition wpo {S A} (m : M S A) (R : result (A * S) -> Prop) (s : S) : Prop :=
  R (m s).

Definition post {S A} (Q : A -> S -> Prop) (r : result (A * S)) : Prop :=
  match r with
  | Ok (a, s') => Q a s'
  | Fault _ => False
  end.

Abbreviation wp m Q := (wpo m (post Q)).

(** The outcomes of a run that did not stop for lack of fuel: those of the
    C program, which has no fuel. *)
Definition terminates {S A} (r : result (A * S)) : Prop := r <> Fault OutOfFuel.

#[global] Arguments wpo : simpl never.

(** ** C integers: [int] is 32 bits and signed, [size_t] 64 bits and
    unsigned (the LP64 data model). *)
Definition INT_MAX : Z := 2 ^ 31 - 1.
Definition INT_MIN : Z := - 2 ^ 31.
Definition SIZE_MAX : Z := 2 ^ 64 - 1.

Definition in_int (z : Z) : bool := (INT_MIN <=? z) && (z <=? INT_MAX).

(** The result of a signed [int] operation: overflow is undefined. *)
Definition int_arith {S} (z : Z) : M S Z :=
  if in_int z then ret z else throw SignedOverflow.

(** Conversion to [size_t] wraps modulo [2^64]. *)
Definition to_size_t (z : Z) : Z := z mod 2 ^ 64.

(** Conversion of an out-of-range value to [int] is implementation-defined;
    every mainstream compiler wraps to two's complement. *)
Definition to_int (z : Z) : Z := (z + 2 ^ 31) mod 2 ^ 32 - 2 ^ 31.

(** ** Tactics and hints *)

Create HintDb cq discriminated.

(** Case analysis on the first [match] or [if] scrutinee of the goal. *)
Ltac case_scrut :=
  match goal with
  | |- context [match ?x with _ => _ end] =>
      lazymatch x with
      | context [match _ with _ => _ end] => fail
      | _ => destruct x eqn:?
      end
  end.

Section MonadLaws.
Context {S : Type}.
Implicit Types s : S.

Lemma bind_ret_l {A B} (a : A) (k : A -> M S B) s : bind (ret a) k s = k a s.
Proof. reflexivity. Qed.

Lemma bind_ret_r {A} (m : M S A) s : bind m ret s = m s.
Proof. unfold bind, ret. by destruct (m s) as [[??]|]. Qed.

Lemma bind_assoc {A B C} (m : M S A) (k : A -> M S B) (k' : B -> M S C) s :
  bind (bind m k) k' s = bind m (fun a => bind (k a) k') s.
Proof. unfold bind. by destruct (m s) as [[??]|]. Qed.

Lemma bind_ok {A B} (m : M S A) (k : A -> M S B) s a s' :
  m s = Ok (a, s') -> bind m k s = k a s'.
Proof. unfold bind. by intros ->. Qed.

Lemma bind_fault {A B} (m : M S A) (k : A -> M S B) s f :
  m s = Fault f -> bind m k s = Fault f.
Proof. unfold bind. by intros ->. Qed.

(** [wp] is exactly: the run returns [Ok] and the postcondition holds. *)
Lemma wp_run {A} (m : M S A) Q s :
  wp m Q s <-> exists a s', m s = Ok (a, s') /\ Q a s'.
Proof.
  unfold wpo, post. destruct (m s) as [[a s']|f]; split.
  - eauto.
  - by intros (? & ? & [= <- <-] & ?).
  - done.
  - by intros (? & ? & ? & ?).
Qed.

(** Running a sequence whose first computation has a [wp]: the way to
    compute an outcome, a fault included, through a successful prefix. *)
Lemma bind_run {A B} (m : M S A) (k : A -> M S B) s (r : result (B * S)) :
  wp m (fun a s' => k a s' = r) s -> bind m k s = r.
Proof. unfold wpo, post, bind. by destruct (m s) as [[??]|]. Qed.

Lemma wp_eq {A} (m : M S A) s a s' :
  wp m (fun b t => b = a /\ t = s') s -> m s = Ok (a, s').
Proof. unfold wpo, post. destruct (m s) as [[??]|]; [|done]. by intros [-> ->]. Qed.

Lemma wp_ok {A} (m : M S A) (Q : A -> S -> Prop) s a s' :
  m s = Ok (a, s') -> Q a s' -> wp m Q s.
Proof. unfold wpo, post. by intros ->. Qed.

Lemma wp_ret {A} (a : A) (Q : A -> S -> Prop) s : Q a s -> wp (ret a) Q s.
Proof. done. Qed.

Lemma wp_bind {A B} (m : M S A) (k : A -> M S B) R s :
  wp m (fun a => wpo (k a) R) s -> wpo (bind m k) R s.
Proof. unfold wpo, post, bind. by destruct (m s) as [[??]|]. Qed.

Lemma wpo_ret {A} (a : A) (R : result (A * S) -> Prop) s :
  R (Ok (a, s)) -> wpo (ret a) R s.
Proof. done. Qed.

Lemma wpo_throw {A} f (R : result (A * S) -> Prop) s :
  R (Fault f) -> wpo (throw f : M S A) R s.
Proof. done. Qed.

(** A sequence whose first computation faults. *)
Lemma wpo_bind_fault {A B} (m : M S A) (k : A -> M S B) R s f :
  m s = Fault f -> R (Fault f) -> wpo (bind m k) R s.
Proof. unfold wpo, bind. by intros ->. Qed.

(** A sequence, by both outcomes of its first computation. *)
Lemma wpo_bind_cases {A B} (m : M S A) (k : A -> M S B) R s :
  match m s with
  | Ok (a, s') => wpo (k a) R s'
  | Fault f => R (Fault f)
  end -> wpo (bind m k) R s.
Proof. unfold wpo, bind. by destruct (m s) as [[??]|]. Qed.

Lemma wpo_bind_assoc {A B C} (m : M S A) (f : A -> M S B) (g : B -> M S C) R s :
  wpo (bind m (fun a => bind (f a) g)) R s -> wpo (bind (bind m f) g) R s.
Proof. unfold wpo, bind. by destruct (m s) as [[??]|]. Qed.

(** An outcome computed through [wpo] is the outcome of the run. *)
Lemma wpo_eq {A} (m : M S A) s r : wpo m (eq r) s -> m s = r.
Proof. done. Qed.

Lemma wp_bind_inv {A B} (m : M S A) (k : A -> M S B) Q s :
  wp (bind m k) Q s -> wp m (fun a => wp (k a) Q) s.
Proof. unfold wpo, post, bind. by destruct (m s) as [[??]|]. Qed.

Lemma wp_mono {A} (m : M S A) (Q Q' : A -> S -> Prop) s :
  wp m Q s -> (forall a s', Q a s' -> Q' a s') -> wp m Q' s.
Proof. unfold wpo, post. destruct (m s) as [[??]|]; auto. Qed.

Lemma wp_get (Q : S -> S -> Prop) s : Q s s -> wp get_state Q s.
Proof. done. Qed.

Lemma wp_put (Q : unit -> S -> Prop) s s' : Q tt s' -> wp (put_state s') Q s.
Proof. done. Qed.

Lemma wp_throw_inv {A} f (Q : A -> S -> Prop) s : wp (throw f) Q s -> False.
Proof. done. Qed.

Lemma wp_lift_ok {A} (a : A) (Q : A -> S -> Prop) s :
  Q a s -> wp (lift_result (Ok a)) Q s.
Proof. done. Qed.

Lemma wp_conj {A} (m : M S A) (Q Q' : A -> S -> Prop) s :
  wp m Q s -> wp m Q' s -> wp m (fun a s' => Q a s' /\ Q' a s') s.
Proof. unfold wpo, post. destruct (m s) as [[??]|]; auto. Qed.
End MonadLaws.

(** One step of symbolic execution: expose the first primitive of a
    sequence, or finish a [ret]. *)
Ltac wp_seq := first [apply wp_bind | apply wp_ret].

(** Use a proved specification [H] of the first computation of the goal and
    continue with its postcondition. *)
Tactic Notation "wp_use" uconstr(H) :=
  first [apply wp_bind | idtac]; eapply wp_mono; [eapply H |].

(** ** Lists without repetition

    What is part of a list without repetition, as a multiset, has no
    repetition: an element is not in the rest, two parts are disjoint.
    stdpp's [solve_submseteq] decides the inclusion. *)
Section Lists.
Context {A : Type}.

Lemma NoDup_sub (l k : list A) : NoDup k -> l ⊆+ k -> NoDup l.
Proof.
  intros Hnd [k' Hk]%submseteq_Permutation. rewrite Hk in Hnd.
  by apply list.NoDup_app in Hnd as [? _].
Qed.

Lemma NoDup_sub_notin (x : A) l k : NoDup k -> x :: l ⊆+ k -> x ∉ l.
Proof. intros Hnd Hs. by apply (NoDup_sub _ _ Hnd), list.NoDup_cons in Hs as [? _]. Qed.

Lemma NoDup_sub_ne (x y : A) k : NoDup k -> [x; y] ⊆+ k -> x <> y.
Proof.
  intros Hnd Hs. apply (NoDup_sub_notin _ _ _ Hnd) in Hs.
  intros ->. apply Hs. by left.
Qed.

Lemma NoDup_sub_disjoint (l1 l2 k : list A) :
  NoDup k -> l1 ++ l2 ⊆+ k -> forall x, x ∈ l1 -> x ∉ l2.
Proof. intros Hnd Hs. by apply (NoDup_sub _ _ Hnd), list.NoDup_app in Hs as (_ & ? & _). Qed.
(** Two neighbours of a sorted list are related. *)
Lemma Sorted_lookup_succ (R : A -> A -> Prop) l (i : nat) a b :
  Sorted R l -> l !! i = Some a -> l !! S i = Some b -> R a b.
Proof.
  intros Hl. revert i. induction Hl as [|x l Hl IH Hhd]; intros i; [done|].
  destruct i as [|i]; simpl; [|by apply IH].
  intros [= ->] Hb. destruct Hhd; simplify_eq/=. done.
Qed.
End Lists.

(** ** Integers *)

Lemma in_int_spec z : in_int z = true <-> INT_MIN <= z <= INT_MAX.
Proof. unfold in_int. rewrite andb_true_iff, !Z.leb_le. tauto. Qed.

Lemma wp_int_arith {S} z (Q : Z -> S -> Prop) s :
  INT_MIN <= z <= INT_MAX -> Q z s -> wp (int_arith z) Q s.
Proof.
  intros Hz HQ. unfold int_arith.
  by rewrite (proj2 (in_int_spec z) Hz).
Qed.

Lemma int_arith_overflow {S} z (s : S) :
  INT_MAX < z -> int_arith z s = Fault SignedOverflow.
Proof.
  intros Hz. unfold int_arith, in_int.
  destruct (Z.leb_spec z INT_MAX); [lia|]. by rewrite andb_false_r.
Qed.

Lemma to_size_t_small z : 0 <= z <= SIZE_MAX -> to_size_t z = z.
Proof. unfold to_size_t, SIZE_MAX. intros. apply Z.mod_small. lia. Qed.

Lemma to_int_small z : INT_MIN <= z <= INT_MAX -> to_int z = z.
Proof.
  unfold to_int, INT_MIN, INT_MAX. intros.
  rewrite Z.mod_small; lia.
Qed.

(** [size_t] subtraction wraps: [0 - 1] is [SIZE_MAX]. *)
Lemma to_size_t_minus_one : to_size_t (0 - 1) = SIZE_MAX.
Proof. reflexivity. Qed.

(** [size >> 1] and [size & 1] on a size that is not negative. *)
Lemma shiftr_half (n : nat) : Z.shiftr (Z.of_nat n) 1 = Z.of_nat (n / 2).
Proof. rewrite Z.shiftr_div_pow2 by lia. by rewrite Nat2Z.inj_div. Qed.

Lemma land_one (n : nat) : Z.land (Z.of_nat n) 1 = Z.of_nat (n mod 2).
Proof. change 1 with (Z.ones 1). rewrite Z.land_ones by lia. by rewrite Nat2Z.inj_mod. Qed.
