(* ===== verification/Memory.v ===== *)
(** * The memory model

    Blocks, pointers and cells; [load] and [store]; [malloc] and [free]
    over an abstract allocation policy ([Allocator]); automatic storage for
    local records whose address is taken.  The operations are the
    primitives every C statement of [queue.c] is translated into; their
    [wp_] lemmas are what the proofs about the queue use. *)

From Stdlib Require Import ZArith Lia.
From stdpp Require Import gmap list.
From S2P Require Import Prelude.

Local Open Scope Z_scope.
Local Open Scope M_scope.

(** ** Data *)

(** A block identifier: what [malloc] returns and [free] takes. *)
Abbreviation loc := positive.

(** A pointer is [NULL], or a block and an offset (in cells) into it. *)
Inductive ptr : Set :=
  | Null
  | Ptr (b : loc) (o : Z).

(** The content of one cell.  A [char] is a [VInt]; [VUndef] is the
    indeterminate value of storage that was allocated and never written. *)
Inductive val : Set :=
  | VUndef
  | VInt (n : Z)
  | VPtr (p : ptr).

#[export] Instance ptr_eq_dec : EqDecision ptr.
Proof. solve_decision. Defined.

#[export] Instance val_eq_dec : EqDecision val.
Proof. solve_decision. Defined.

(** The heap: the allocated blocks.  A block that was freed is absent. *)
Abbreviation heap := (gmap loc (list val)).

(** [p + k] in units of cells; arithmetic on [NULL] stays [NULL], so that
    an access through it is reported as a null dereference. *)
Definition ptr_add (p : ptr) (k : Z) : ptr :=
  match p with
  | Null => Null
  | Ptr b o => Ptr b (o + k)
  end.

(** The address of the [i]-th cell of the record [p] points to. *)
Definition field (i : nat) (p : ptr) : ptr := ptr_add p (Z.of_nat i).

Definition is_null (p : ptr) : bool :=
  match p with Null => true | Ptr _ _ => false end.

(** The cell of a block at an offset, if the offset is within the block. *)
Definition cell (blk : list val) (o : Z) : option val :=
  if (0 <=? o) && (o <? Z.of_nat (length blk)) then blk !! Z.to_nat o else None.

(** ** Access *)

Definition load (p : ptr) : M heap val := fun h =>
  match p with
  | Null => Fault NullDeref
  | Ptr b o =>
      match h !! b with
      | None => Fault DanglingAccess
      | Some blk =>
          match cell blk o with
          | None => Fault OutOfBounds
          | Some VUndef => Fault UninitRead
          | Some v => Ok (v, h)
          end
      end
  end.

Definition store (p : ptr) (v : val) : M heap unit := fun h =>
  match p with
  | Null => Fault NullDeref
  | Ptr b o =>
      match h !! b with
      | None => Fault DanglingAccess
      | Some blk =>
          match cell blk o with
          | None => Fault OutOfBounds
          | Some _ => Ok (tt, <[b := <[Z.to_nat o := v]> blk]> h)
          end
      end
  end.

(** A load at pointer type, and one at integer type. *)
Definition load_ptr (p : ptr) : M heap ptr :=
  v <- load p ;;
  match v with
  | VPtr q => ret q
  | _ => throw TypeMismatch
  end.

Definition load_int (p : ptr) : M heap Z :=
  v <- load p ;;
  match v with
  | VInt n => ret n
  | _ => throw TypeMismatch
  end.

(** ** Allocation *)

(** The allocation policy: for a heap and a request of [n] cells, the block
    that [malloc] hands out, or [None] when it fails.  The one law is that
    the block is not in use.  Nothing prevents a policy from handing out a
    block that was freed before. *)
Class Allocator : Type := {
  alloc_block : heap -> nat -> option loc;
  alloc_block_fresh : forall h n b, alloc_block h n = Some b -> h !! b = None
}.

(** [malloc(n)]: [NULL] on failure, else a new block of [n] indeterminate
    cells. *)
Definition malloc `{Allocator} (n : Z) : M heap ptr := fun h =>
  match alloc_block h (Z.to_nat n) with
  | None => Ok (Null, h)
  | Some b => Ok (Ptr b 0, <[b := replicate (Z.to_nat n) VUndef]> h)
  end.

(** [free(p)]: nothing for [NULL]; undefined unless [p] is the start of an
    allocated block. *)
Definition free (p : ptr) : M heap unit := fun h =>
  match p with
  | Null => Ok (tt, h)
  | Ptr b o =>
      if decide (o = 0) then
        match h !! b with
        | Some _ => Ok (tt, delete b h)
        | None => Fault InvalidFree
        end
      else Fault InvalidFree
  end.

(** Automatic storage for a local whose address is taken: a block of its
    own for the duration of the call. *)
Definition stack_alloc (n : nat) : M heap ptr := fun h =>
  let b := fresh (dom h) in
  Ok (Ptr b 0, <[b := replicate n VUndef]> h).

Definition stack_free (p : ptr) : M heap unit := fun h =>
  match p with
  | Null => Fault NullDeref
  | Ptr b _ => Ok (tt, delete b h)
  end.

(** The fuel a walk over the heap is given: it cannot visit more blocks
    than there are. *)
Definition fuel_of (h : heap) : nat := S (size h).

(** The number of cells of the block a pointer points into: the bound on
    the loops that walk a string. *)
Definition block_len (p : ptr) (h : heap) : nat :=
  match p with
  | Null => O
  | Ptr b _ => from_option length O (h !! b)
  end.

(** The cells from a pointer to the end of its block: none for a pointer
    that cannot be read. *)
Definition cells_left (p : ptr) (h : heap) : nat :=
  match p with
  | Null => O
  | Ptr b o => if decide (0 <= o) then block_len p h - Z.to_nat o else O
  end.

(** ** Allocation policies (the instances are at the end of the file) *)

(** The policy that always succeeds with a block above all live ones.  It
    reuses a freed block when that block was the topmost. *)
Definition fresh_pick (h : heap) (n : nat) : option loc := Some (fresh (dom h)).

(** The policy of a memory that holds at most [cap] blocks. *)
Definition bounded_pick (cap : nat) (h : heap) (n : nat) : option loc :=
  if decide (size h < cap)%nat then Some (fresh (dom h)) else None.

(** The policy that prefers a given block whenever it is free: the
    behaviour of a free list that hands the most recently freed block out
    again. *)
Definition reusing_pick (pref : loc) (h : heap) (n : nat) : option loc :=
  match h !! pref with
  | None => Some pref
  | Some _ => Some (fresh (dom h))
  end.

(** ** Lemmas *)

Lemma fresh_block_free (h : heap) : h !! fresh (dom h) = None.
Proof. apply not_elem_of_dom, is_fresh. Qed.

Lemma ptr_add_0 p : ptr_add p 0 = p.
Proof. destruct p; simpl; [done|]. f_equal. lia. Qed.

Lemma ptr_add_add p j k : ptr_add (ptr_add p j) k = ptr_add p (j + k).
Proof. destruct p; simpl; [done|]. f_equal. lia. Qed.

Lemma cell_lookup blk (i : nat) : cell blk (Z.of_nat i) = blk !! i.
Proof.
  unfold cell. rewrite Nat2Z.id.
  destruct (blk !! i) eqn:E.
  - apply lookup_lt_Some in E.
    rewrite (proj2 (Z.leb_le _ _)), (proj2 (Z.ltb_lt _ _)) by lia. done.
  - by case_match.
Qed.

Lemma cell_Some blk o v :
  cell blk o = Some v <-> 0 <= o /\ blk !! Z.to_nat o = Some v.
Proof.
  unfold cell. split.
  - case_match eqn:E; [|done]. apply andb_true_iff in E as [?%Z.leb_le _]. done.
  - intros [Ho Hv]. pose proof (lookup_lt_Some _ _ _ Hv).
    rewrite (proj2 (Z.leb_le _ _)), (proj2 (Z.ltb_lt _ _)) by lia. done.
Qed.

Lemma cell_None_ge blk o : Z.of_nat (length blk) <= o -> cell blk o = None.
Proof.
  intros. unfold cell.
  rewrite (proj2 (Z.ltb_ge _ _)) by lia. by rewrite andb_false_r.
Qed.

Section Access.
Implicit Types (h : heap) (b : loc) (o : Z) (v : val) (p : ptr).

Lemma load_ok h b o blk v :
  h !! b = Some blk -> cell blk o = Some v -> v <> VUndef ->
  load (Ptr b o) h = Ok (v, h).
Proof. intros Hb Ho Hv. unfold load. rewrite Hb, Ho. by destruct v. Qed.

Lemma store_ok h b o blk v0 v :
  h !! b = Some blk -> cell blk o = Some v0 ->
  store (Ptr b o) v h = Ok (tt, <[b := <[Z.to_nat o := v]> blk]> h).
Proof. intros Hb Ho. unfold store. by rewrite Hb, Ho. Qed.

Lemma load_int_ok h b o blk n :
  h !! b = Some blk -> cell blk o = Some (VInt n) -> load_int (Ptr b o) h = Ok (n, h).
Proof. intros. unfold load_int. by erewrite bind_ok by by eapply load_ok. Qed.

Lemma load_ptr_ok h b o blk q :
  h !! b = Some blk -> cell blk o = Some (VPtr q) -> load_ptr (Ptr b o) h = Ok (q, h).
Proof. intros. unfold load_ptr. by erewrite bind_ok by by eapply load_ok. Qed.

Lemma wp_load h b o blk v (Q : val -> heap -> Prop) :
  h !! b = Some blk -> cell blk o = Some v -> v <> VUndef ->
  Q v h -> wp (load (Ptr b o)) Q h.
Proof. intros. eapply wp_ok; [by eapply load_ok|done]. Qed.

Lemma wp_load_ptr h b o blk q (Q : ptr -> heap -> Prop) :
  h !! b = Some blk -> cell blk o = Some (VPtr q) ->
  Q q h -> wp (load_ptr (Ptr b o)) Q h.
Proof.
  intros. unfold load_ptr. apply wp_bind. by eapply wp_load.
Qed.

Lemma wp_load_int h b o blk n (Q : Z -> heap -> Prop) :
  h !! b = Some blk -> cell blk o = Some (VInt n) ->
  Q n h -> wp (load_int (Ptr b o)) Q h.
Proof.
  intros. unfold load_int. apply wp_bind. by eapply wp_load.
Qed.

Lemma wp_store h b o blk v0 v (Q : unit -> heap -> Prop) :
  h !! b = Some blk -> cell blk o = Some v0 ->
  Q tt (<[b := <[Z.to_nat o := v]> blk]> h) -> wp (store (Ptr b o) v) Q h.
Proof. intros. eapply wp_ok; [by eapply store_ok|done]. Qed.

(** Access to the fields of a record at the start of a block. *)
Lemma field_Ptr b (i : nat) : field i (Ptr b 0) = Ptr b (Z.of_nat i).
Proof. unfold field. simpl. f_equal. Qed.

Lemma wp_load_ptr_field h b blk (i : nat) q (Q : ptr -> heap -> Prop) :
  h !! b = Some blk -> blk !! i = Some (VPtr q) ->
  Q q h -> wp (load_ptr (field i (Ptr b 0))) Q h.
Proof.
  intros ? Hi ?. rewrite field_Ptr.
  eapply wp_load_ptr; [done| |done]. by rewrite cell_lookup.
Qed.

Lemma wp_load_int_field h b blk (i : nat) n (Q : Z -> heap -> Prop) :
  h !! b = Some blk -> blk !! i = Some (VInt n) ->
  Q n h -> wp (load_int (field i (Ptr b 0))) Q h.
Proof.
  intros ? Hi ?. rewrite field_Ptr.
  eapply wp_load_int; [done| |done]. by rewrite cell_lookup.
Qed.

Lemma wp_store_field h b blk (i : nat) v (Q : unit -> heap -> Prop) :
  h !! b = Some blk -> (i < length blk)%nat ->
  Q tt (<[b := <[i := v]> blk]> h) -> wp (store (field i (Ptr b 0)) v) Q h.
Proof.
  intros ? Hi HQ. destruct (lookup_lt_is_Some_2 blk i Hi) as [v0 Hv0].
  rewrite field_Ptr. eapply wp_store; [done|by rewrite cell_lookup|].
  by rewrite Nat2Z.id.
Qed.

(** Access to a block that is not allocated faults: the model of a use
    after [free]. *)
Lemma load_dangling h b o : h !! b = None -> load (Ptr b o) h = Fault DanglingAccess.
Proof. intros Hb. unfold load. by rewrite Hb. Qed.

Lemma load_ptr_dangling h b o :
  h !! b = None -> load_ptr (Ptr b o) h = Fault DanglingAccess.
Proof. intros Hb. unfold load_ptr. by apply bind_fault, load_dangling. Qed.

Lemma store_dangling h b o v :
  h !! b = None -> store (Ptr b o) v h = Fault DanglingAccess.
Proof. intros Hb. unfold store. by rewrite Hb. Qed.

Lemma store_out_of_bounds h b o blk v :
  h !! b = Some blk -> Z.of_nat (length blk) <= o ->
  store (Ptr b o) v h = Fault OutOfBounds.
Proof. intros Hb Ho. unfold store. by rewrite Hb, cell_None_ge. Qed.

Lemma free_ok h b blk : h !! b = Some blk -> free (Ptr b 0) h = Ok (tt, delete b h).
Proof. intros Hb. unfold free. by rewrite decide_True, Hb. Qed.

Lemma wp_free h b blk (Q : unit -> heap -> Prop) :
  h !! b = Some blk -> Q tt (delete b h) -> wp (free (Ptr b 0)) Q h.
Proof. intros. eapply wp_ok; [by eapply free_ok|done]. Qed.

(** Freeing twice is a fault. *)
Lemma free_twice h b blk p :
  h !! b = Some blk -> p = Ptr b 0 ->
  (free p ;;; free p) h = Fault InvalidFree.
Proof.
  intros Hb ->. erewrite bind_ok by by eapply free_ok.
  unfold free. by rewrite decide_True, lookup_delete_eq.
Qed.
(** *** Every outcome of a load

    A load leaves the heap as it is, succeeds only inside a block, and
    never faults for lack of fuel. *)

Lemma load_cases p h :
  match load p h with
  | Ok (_, h') => h' = h /\ (1 <= cells_left p h)%nat
  | Fault f => f <> OutOfFuel
  end.
Proof.
  destruct p as [|b o]; [done|]. unfold load, cells_left, block_len.
  destruct (h !! b) as [blk|]; [|done]. simpl.
  destruct (cell blk o) as [v|] eqn:E; [|done].
  apply cell_Some in E as [Ho Hv%lookup_lt_Some].
  rewrite decide_True by done. destruct v; (done || (split; [done|lia])).
Qed.

Lemma load_int_cases p h :
  match load_int p h with
  | Ok (_, h') => h' = h /\ (1 <= cells_left p h)%nat
  | Fault f => f <> OutOfFuel
  end.
Proof.
  unfold load_int, bind. pose proof (load_cases p h) as Hl.
  destruct (load p h) as [[[] ?]|]; done.
Qed.

Lemma load_ptr_cases p h :
  match load_ptr p h with
  | Ok (_, h') => h' = h /\ (1 <= cells_left p h)%nat
  | Fault f => f <> OutOfFuel
  end.
Proof.
  unfold load_ptr, bind. pose proof (load_cases p h) as Hl.
  destruct (load p h) as [[[] ?]|]; done.
Qed.

Lemma wpo_load_int_total {B} p h (k : Z -> M heap B) :
  (forall z, (1 <= cells_left p h)%nat -> wpo (k z) terminates h) ->
  wpo (bind (load_int p) k) terminates h.
Proof.
  intros Hk. apply wpo_bind_cases. pose proof (load_int_cases p h) as Hl.
  destruct (load_int p h) as [[z h']|f]; [|unfold terminates; congruence].
  destruct Hl as [-> ?]. auto.
Qed.

Lemma wpo_load_ptr_total {B} p h (k : ptr -> M heap B) :
  (forall q, (1 <= cells_left p h)%nat -> wpo (k q) terminates h) ->
  wpo (bind (load_ptr p) k) terminates h.
Proof.
  intros Hk. apply wpo_bind_cases. pose proof (load_ptr_cases p h) as Hl.
  destruct (load_ptr p h) as [[z h']|f]; [|unfold terminates; congruence].
  destruct Hl as [-> ?]. auto.
Qed.

Lemma cells_left_next p h :
  (1 <= cells_left p h -> cells_left (ptr_add p 1) h = cells_left p h - 1)%nat.
Proof.
  destruct p as [|b o]; [done|]. unfold cells_left, ptr_add, block_len.
  case_decide; [|simpl; lia]. rewrite decide_True by lia. lia.
Qed.

Lemma cells_left_le p h : (cells_left p h <= block_len p h)%nat.
Proof. destruct p as [|b o]; [done|]. unfold cells_left. case_decide; lia. Qed.
End Access.

Section Malloc.
Context `{Allocator}.
Implicit Types (h : heap) (n : Z).

(** The two outcomes of [malloc], for every policy. *)
Lemma malloc_cases h n :
  malloc n h = Ok (Null, h) /\ alloc_block h (Z.to_nat n) = None \/
  exists b, h !! b = None /\ alloc_block h (Z.to_nat n) = Some b /\
    malloc n h = Ok (Ptr b 0, <[b := replicate (Z.to_nat n) VUndef]> h).
Proof.
  unfold malloc. destruct (alloc_block h (Z.to_nat n)) as [b|] eqn:E; [|by left].
  right. exists b. eauto using alloc_block_fresh.
Qed.

Lemma wp_malloc h n (Q : ptr -> heap -> Prop) :
  (alloc_block h (Z.to_nat n) = None -> Q Null h) ->
  (forall b, h !! b = None -> alloc_block h (Z.to_nat n) = Some b ->
     Q (Ptr b 0) (<[b := replicate (Z.to_nat n) VUndef]> h)) ->
  wp (malloc n) Q h.
Proof.
  intros HN HS. destruct (malloc_cases h n) as [[E ?]|(b & ? & ? & E)];
    (eapply wp_ok; [exact E|]); auto.
Qed.
End Malloc.

Lemma wp_stack_alloc (h : heap) n (Q : ptr -> heap -> Prop) :
  (forall b, h !! b = None -> Q (Ptr b 0) (<[b := replicate n VUndef]> h)) ->
  wp (stack_alloc n) Q h.
Proof. intros HQ. apply HQ, fresh_block_free. Qed.

Lemma wp_stack_free (h : heap) b o (Q : unit -> heap -> Prop) :
  Q tt (delete b h) -> wp (stack_free (Ptr b o)) Q h.
Proof. done. Qed.

(** A write to a block makes an earlier write to it unobservable, also
    under a write to another block. *)
Lemma insert_insert_skip (h : heap) a b x y z :
  <[a := x]> (<[b := y]> (<[a := z]> h)) = <[a := x]> (<[b := y]> h).
Proof.
  destruct (decide (a = b)) as [->|Hne]; [by rewrite !insert_insert_eq|].
  by rewrite (insert_insert_ne _ b a), insert_insert_eq by done.
Qed.

(** A fresh block followed by its release leaves the heap as it was. *)
Lemma delete_insert_fresh (h : heap) b blk : h !! b = None -> delete b (<[b := blk]> h) = h.
Proof. intros. by rewrite delete_insert_eq, delete_id. Qed.

Lemma fuel_of_insert_fresh (h : heap) b blk :
  h !! b = None -> fuel_of (<[b := blk]> h) = S (fuel_of h).
Proof. intros. unfold fuel_of. by rewrite map_size_insert_None. Qed.

Lemma fuel_of_insert_ge (h : heap) b blk : (fuel_of h <= fuel_of (<[b := blk]> h))%nat.
Proof.
  unfold fuel_of. destruct (h !! b) eqn:E.
  - by rewrite map_size_insert_Some.
  - rewrite map_size_insert_None by done. lia.
Qed.

(** ** The allocation policies implement the interface *)

Lemma fresh_pick_free h n b : fresh_pick h n = Some b -> h !! b = None.
Proof. intros [= <-]. apply fresh_block_free. Qed.

Lemma bounded_pick_free cap h n b : bounded_pick cap h n = Some b -> h !! b = None.
Proof.
  unfold bounded_pick. case_decide; [|done].
  intros [= <-]. apply fresh_block_free.
Qed.

Lemma reusing_pick_free pref h n b : reusing_pick pref h n = Some b -> h !! b = None.
Proof.
  unfold reusing_pick. destruct (h !! pref) eqn:E.
  - intros [= <-]. apply fresh_block_free.
  - by intros [= <-].
Qed.

Definition fresh_allocator : Allocator :=
  {| alloc_block := fresh_pick; alloc_block_fresh := fresh_pick_free |}.

Definition bounded_allocator (cap : nat) : Allocator :=
  {| alloc_block := bounded_pick cap; alloc_block_fresh := bounded_pick_free cap |}.

Definition reusing_allocator (pref : loc) : Allocator :=
  {| alloc_block := reusing_pick pref; alloc_block_fresh := reusing_pick_free pref |}.
