(* ===== verification/Structs.v ===== *)
(** * The two records of [queue.h]

    [list_ele_t] (a node: [value], [next]) and [queue_t] ([head], [tail],
    [size]) as blocks of cells, the addresses of their fields, and the
    access lemmas for a record whose block is known.  The header is not
    part of the sources: the layout is the one the spec's data model and
    the field accesses of [queue.c] determine. *)

From Stdlib Require Import ZArith Lia.
From stdpp Require Import gmap list.
From S2P Require Import Prelude Memory.

Local Open Scope Z_scope.
Local Open Scope M_scope.

(** ** [list_ele_t] *)

(** [sizeof(list_ele_t)], in cells. *)
Definition sizeof_list_ele_t : Z := 2.

(** [&e->value] and [&e->next]. *)
Definition value_of (e : ptr) : ptr := field 0 e.
Definition next_of (e : ptr) : ptr := field 1 e.

(** The block of a node with the given fields. *)
Definition list_ele_t (value next : ptr) : list val := [VPtr value; VPtr next].

(** ** [queue_t] *)

Definition sizeof_queue_t : Z := 3.

(** [&q->head], [&q->tail] and [&q->size]. *)
Definition head_of (q : ptr) : ptr := field 0 q.
Definition tail_of (q : ptr) : ptr := field 1 q.
Definition size_of (q : ptr) : ptr := field 2 q.

(** The block of a queue record with the given fields. *)
Definition queue_t (head tail : ptr) (size : Z) : list val :=
  [VPtr head; VPtr tail; VInt size].

#[global] Arguments value_of : simpl never.
#[global] Arguments next_of : simpl never.
#[global] Arguments head_of : simpl never.
#[global] Arguments tail_of : simpl never.
#[global] Arguments size_of : simpl never.

(** ** Access lemmas *)

Section Fields.
Implicit Types (h : heap) (b : loc) (p q : ptr).

Lemma wp_load_value h b v n (Q : ptr -> heap -> Prop) :
  h !! b = Some [VPtr v; n] -> Q v h -> wp (load_ptr (value_of (Ptr b 0))) Q h.
Proof. intros. by eapply wp_load_ptr_field. Qed.

Lemma wp_load_next h b v n (Q : ptr -> heap -> Prop) :
  h !! b = Some [v; VPtr n] -> Q n h -> wp (load_ptr (next_of (Ptr b 0))) Q h.
Proof. intros. by eapply wp_load_ptr_field. Qed.

Lemma wp_store_value h b v0 n v (Q : unit -> heap -> Prop) :
  h !! b = Some [v0; n] -> Q tt (<[b := [VPtr v; n]]> h) ->
  wp (store (value_of (Ptr b 0)) (VPtr v)) Q h.
Proof. intros. eapply wp_store_field; [done|simpl; lia|done]. Qed.

Lemma wp_store_next h b v n0 n (Q : unit -> heap -> Prop) :
  h !! b = Some [v; n0] -> Q tt (<[b := [v; VPtr n]]> h) ->
  wp (store (next_of (Ptr b 0)) (VPtr n)) Q h.
Proof. intros. eapply wp_store_field; [done|simpl; lia|done]. Qed.

Lemma wp_load_head h b hd t s (Q : ptr -> heap -> Prop) :
  h !! b = Some [VPtr hd; t; s] -> Q hd h -> wp (load_ptr (head_of (Ptr b 0))) Q h.
Proof. intros. by eapply wp_load_ptr_field. Qed.

Lemma wp_load_tail h b hd tl s (Q : ptr -> heap -> Prop) :
  h !! b = Some [hd; VPtr tl; s] -> Q tl h -> wp (load_ptr (tail_of (Ptr b 0))) Q h.
Proof. intros. by eapply wp_load_ptr_field. Qed.

Lemma wp_load_size h b hd tl sz (Q : Z -> heap -> Prop) :
  h !! b = Some [hd; tl; VInt sz] -> Q sz h -> wp (load_int (size_of (Ptr b 0))) Q h.
Proof. intros. by eapply wp_load_int_field. Qed.

Lemma wp_store_head h b hd0 tl s hd (Q : unit -> heap -> Prop) :
  h !! b = Some [hd0; tl; s] -> Q tt (<[b := [VPtr hd; tl; s]]> h) ->
  wp (store (head_of (Ptr b 0)) (VPtr hd)) Q h.
Proof. intros. eapply wp_store_field; [done|simpl; lia|done]. Qed.

Lemma wp_store_tail h b hd tl0 s tl (Q : unit -> heap -> Prop) :
  h !! b = Some [hd; tl0; s] -> Q tt (<[b := [hd; VPtr tl; s]]> h) ->
  wp (store (tail_of (Ptr b 0)) (VPtr tl)) Q h.
Proof. intros. eapply wp_store_field; [done|simpl; lia|done]. Qed.

Lemma wp_store_size h b hd tl s0 sz (Q : unit -> heap -> Prop) :
  h !! b = Some [hd; tl; s0] -> Q tt (<[b := [hd; tl; VInt sz]]> h) ->
  wp (store (size_of (Ptr b 0)) (VInt sz)) Q h.
Proof. intros. eapply wp_store_field; [done|simpl; lia|done]. Qed.
End Fields.
