(* ===== verification/CString.v ===== *)
(** * C strings in memory

    [strlen] and [strncpy] as the C standard describes them (the sources
    only call them), the representation predicate [cstr_at] of a
    NUL-terminated string in a block, and their specifications. *)

From Stdlib Require Import ZArith Lia.
From stdpp Require Import gmap list.
From S2P Require Import Prelude Memory.

Local Open Scope Z_scope.
Local Open Scope M_scope.

(** ** The library functions *)

(** The length of the string that starts a run of cells: the number of
    characters before the first NUL.  Running off the block is a fault. *)
Fixpoint strlen_from (cells : list val) : result Z :=
  match cells with
  | [] => Fault OutOfBounds
  | VUndef :: _ => Fault UninitRead
  | VPtr _ :: _ => Fault TypeMismatch
  | VInt c :: rest =>
      if decide (c = 0) then Ok 0
      else match strlen_from rest with
           | Ok n => Ok (n + 1)
           | Fault f => Fault f
           end
  end.

(** [strlen(s)]. *)
Definition strlen (s : ptr) : M heap Z := fun h =>
  match s with
  | Null => Fault NullDeref
  | Ptr b o =>
      match h !! b with
      | None => Fault DanglingAccess
      | Some blk =>
          if decide (0 <= o) then
            match strlen_from (drop (Z.to_nat o) blk) with
            | Ok n => Ok (n, h)
            | Fault f => Fault f
            end
          else Fault OutOfBounds
      end
  end.

(** The second loop of [strncpy]: [n] NULs from [dst] on. *)
Fixpoint strncpy_pad (n : nat) (dst : ptr) : M heap unit :=
  match n with
  | O => ret tt
  | S n' => store dst (VInt 0) ;;; strncpy_pad n' (ptr_add dst 1)
  end.

(** The first loop of [strncpy]: copy until [n] characters are written or
    the source ends, then pad. *)
Fixpoint strncpy_copy (n : nat) (dst src : ptr) : M heap unit :=
  match n with
  | O => ret tt
  | S n' =>
      c <- load_int src ;;
      if decide (c = 0) then strncpy_pad n dst
      else store dst (VInt c) ;;; strncpy_copy n' (ptr_add dst 1) (ptr_add src 1)
  end.

(** [strncpy(dst, src, n)]: exactly [n] cells of [dst] are written; the
    result is not NUL-terminated when [src] has [n] characters or more. *)
Definition strncpy (dst src : ptr) (n : Z) : M heap ptr :=
  strncpy_copy (Z.to_nat n) dst src ;;; ret dst.

(** ** Representation *)

(** The cells of the string [s] with its terminator. *)
Definition cstring (s : list Z) : list val := (VInt <$> s) ++ [VInt 0].

(** The block [blk] holds the string [s], terminator included, from
    offset [o] on. *)
Fixpoint cstr_in (blk : list val) (o : nat) (s : list Z) : Prop :=
  match s with
  | [] => blk !! o = Some (VInt 0)
  | c :: s' => c <> 0 /\ blk !! o = Some (VInt c) /\ cstr_in blk (S o) s'
  end.

(** [p] points to the string [s] in the heap [h]. *)
Definition cstr_at (h : heap) (p : ptr) (s : list Z) : Prop :=
  match p with
  | Null => False
  | Ptr b o => 0 <= o /\ exists blk, h !! b = Some blk /\ cstr_in blk (Z.to_nat o) s
  end.

(** What [strncpy] writes for a source string [s] and a count [n]: the
    first [n] characters of [s] followed by NULs. *)
Fixpoint strncpy_cells (s : list Z) (n : nat) {struct n} : list val :=
  match n with
  | O => []
  | S n' =>
      match s with
      | [] => replicate n (VInt 0)
      | c :: s' => VInt c :: strncpy_cells s' n'
      end
  end.

(** What [strncpy(sp, s, n); sp[n - 1] = 0] leaves in the [n] cells at
    [sp]: the idiom of [q_remove_head]. *)
Definition copy_out_cells (s : list Z) (n : nat) : list val :=
  <[pred n := VInt 0]> (strncpy_cells s n).

(** ** Lemmas *)

Section CStr.
Implicit Types (h : heap) (blk : list val) (s : list Z) (o : nat).

Lemma cstr_in_cstring s : Forall (fun c => c <> 0) s -> cstr_in (cstring s) 0 s.
Proof.
  intros Hs. unfold cstring.
  enough (forall pre, cstr_in (pre ++ (VInt <$> s) ++ [VInt 0]) (length pre) s)
    as H by apply (H []).
  induction Hs as [|c s Hc Hs IH]; intros pre; simpl.
  - by rewrite list_lookup_middle.
  - split; [done|]. split; [by rewrite list_lookup_middle|].
    specialize (IH (pre ++ [VInt c])).
    rewrite length_app, Nat.add_1_r, <- app_assoc in IH. exact IH.
Qed.

Lemma cstr_in_nonzero blk o s : cstr_in blk o s -> Forall (fun c => c <> 0) s.
Proof. revert o. induction s; simpl; [done|]. intros o (? & ? & ?). eauto. Qed.

(** A string is determined by the block it is read from. *)
Lemma cstr_in_inj blk o s1 s2 : cstr_in blk o s1 -> cstr_in blk o s2 -> s1 = s2.
Proof.
  revert o s2. induction s1 as [|c s1 IH]; intros o [|c' s2]; simpl; try done.
  - intros ? (? & ? & _). congruence.
  - intros (? & ? & _) ?. congruence.
  - intros (_ & ? & ?) (_ & ? & ?). f_equal; [congruence|eauto].
Qed.

Lemma cstr_in_length blk o s : cstr_in blk o s -> (o + length s < length blk)%nat.
Proof.
  revert o. induction s as [|c s IH]; simpl; intros o.
  - intros ?%lookup_lt_Some. lia.
  - intros (_ & _ & ?%IH). lia.
Qed.

Lemma cstr_in_terminator blk o s : cstr_in blk o s -> blk !! (o + length s)%nat = Some (VInt 0).
Proof.
  revert o. induction s as [|c s IH]; simpl; intros o.
  - by rewrite Nat.add_0_r.
  - intros (_ & _ & ?%IH). by rewrite <- Nat.add_succ_comm.
Qed.

Lemma strlen_from_cstr blk o s :
  cstr_in blk o s -> strlen_from (drop o blk) = Ok (Z.of_nat (length s)).
Proof.
  revert o. induction s as [|c s IH]; simpl; intros o.
  - intros Ho. by rewrite (drop_S _ _ _ Ho).
  - intros (Hc & Ho & Hs). rewrite (drop_S _ _ _ Ho). simpl.
    rewrite decide_False, (IH _ Hs) by done. f_equal. lia.
Qed.

Lemma cstr_at_nonzero h p s : cstr_at h p s -> Forall (fun c => c <> 0) s.
Proof.
  destruct p; [done|]. intros (_ & blk & _ & ?). by eapply cstr_in_nonzero.
Qed.

Lemma strlen_ok h p s : cstr_at h p s -> strlen p h = Ok (Z.of_nat (length s), h).
Proof.
  destruct p as [|b o]; [done|]. intros (Ho & blk & Hb & Hs).
  unfold strlen. rewrite Hb, decide_True by done.
  by rewrite (strlen_from_cstr _ _ _ Hs).
Qed.

Lemma wp_strlen h p s (Q : Z -> heap -> Prop) :
  cstr_at h p s -> Q (Z.of_nat (length s)) h -> wp (strlen p) Q h.
Proof. intros. eapply wp_ok; [by apply strlen_ok|done]. Qed.

(** A change of another block does not disturb a string. *)
Lemma cstr_at_insert_ne h b (o : Z) s b' blk' :
  b' <> b -> cstr_at h (Ptr b o) s -> cstr_at (<[b' := blk']> h) (Ptr b o) s.
Proof.
  intros Hne (Ho & blk & Hb & Hs). split; [done|].
  exists blk. by rewrite lookup_insert_ne.
Qed.

Lemma cstr_at_insert_fresh h p s b' blk' :
  h !! b' = None -> cstr_at h p s -> cstr_at (<[b' := blk']> h) p s.
Proof.
  destruct p as [|b o]; [done|]. intros Hb' Hs.
  apply cstr_at_insert_ne; [|done]. destruct Hs as (_ & ? & ? & _). congruence.
Qed.

Lemma cstr_at_delete_ne h b (o : Z) s b' :
  b' <> b -> cstr_at h (Ptr b o) s -> cstr_at (delete b' h) (Ptr b o) s.
Proof.
  intros Hne (Ho & blk & Hb & Hs). split; [done|].
  exists blk. by rewrite lookup_delete_ne.
Qed.

(** *** [strncpy] *)

Lemma strncpy_cells_length s n : length (strncpy_cells s n) = n.
Proof.
  revert s. induction n as [|n IH]; intros [|c s]; simpl; [done..| |].
  - by rewrite length_replicate.
  - by rewrite IH.
Qed.

(** Without padding, [strncpy] writes a prefix of the string. *)
Lemma strncpy_cells_take s n : (n <= length s)%nat -> strncpy_cells s n = VInt <$> take n s.
Proof.
  revert s. induction n as [|n IH]; intros [|c s]; simpl; [done..|lia|].
  intros. rewrite IH by lia. done.
Qed.

Lemma strncpy_cells_pad s n :
  (length s <= n)%nat -> strncpy_cells s n = (VInt <$> s) ++ replicate (n - length s) (VInt 0).
Proof.
  revert s. induction n as [|n IH]; intros [|c s]; simpl; [done|lia|done|].
  intros. rewrite IH by lia. done.
Qed.

Lemma of_nat_length_snoc (pre : list val) x :
  Z.of_nat (length pre) + 1 = Z.of_nat (length (pre ++ [x])).
Proof. rewrite length_app. simpl. lia. Qed.

Lemma insert_middle_app (pre : list val) x y post :
  <[length pre := y]> (pre ++ x :: post) = pre ++ y :: post.
Proof. by rewrite insert_app_r_alt, Nat.sub_diag by lia. Qed.

Lemma strncpy_pad_ok n h bd pre mid post :
  h !! bd = Some (pre ++ mid ++ post) -> length mid = n ->
  strncpy_pad n (Ptr bd (Z.of_nat (length pre))) h
  = Ok (tt, <[bd := pre ++ replicate n (VInt 0) ++ post]> h).
Proof.
  revert h pre mid. induction n as [|n IH]; intros h pre mid Hd Hn.
  - destruct mid; [|done]. simpl. by rewrite insert_id.
  - destruct mid as [|m mid]; [done|]. simpl in Hn, Hd. simpl strncpy_pad.
    erewrite bind_ok; cycle 1.
    { eapply store_ok; [done|]. rewrite cell_lookup. by apply list_lookup_middle. }
    rewrite Nat2Z.id, insert_middle_app, (of_nat_length_snoc pre (VInt 0)).
    erewrite (IH _ (pre ++ [VInt 0]) mid); [|by rewrite lookup_insert_eq, <- app_assoc|lia].
    by rewrite insert_insert_eq, <- app_assoc.
Qed.

(** [strncpy] overwrites exactly the [n] cells at [dst] with
    [strncpy_cells s n] and leaves everything else as it was.  Source and
    destination are in different blocks. *)
Lemma strncpy_copy_ok n s h bs os sblk bd pre mid post :
  h !! bs = Some sblk -> cstr_in sblk os s -> bd <> bs ->
  h !! bd = Some (pre ++ mid ++ post) -> length mid = n ->
  strncpy_copy n (Ptr bd (Z.of_nat (length pre))) (Ptr bs (Z.of_nat os)) h
  = Ok (tt, <[bd := pre ++ strncpy_cells s n ++ post]> h).
Proof.
  revert s h os pre mid. induction n as [|n IH]; intros s h os pre mid Hs Hin Hne Hd Hn.
  - destruct mid; [|done]. simpl. by rewrite insert_id.
  - simpl strncpy_copy. destruct s as [|c s]; simpl in Hin.
    + erewrite bind_ok; cycle 1.
      { eapply load_int_ok; [done|by rewrite cell_lookup]. }
      rewrite decide_True by done.
      exact (strncpy_pad_ok (S n) h bd pre mid post Hd Hn).
    + destruct Hin as (Hc & Ho & Hin). destruct mid as [|m mid]; [done|].
      simpl in Hn, Hd. erewrite bind_ok; cycle 1.
      { eapply load_int_ok; [done|by rewrite cell_lookup]. }
      rewrite decide_False by done.
      erewrite bind_ok; cycle 1.
      { eapply store_ok; [done|]. rewrite cell_lookup. by apply list_lookup_middle. }
      rewrite Nat2Z.id, insert_middle_app, (of_nat_length_snoc pre (VInt c)).
      simpl ptr_add. replace (Z.of_nat os + 1) with (Z.of_nat (S os)) by lia.
      erewrite (IH s _ (S os) (pre ++ [VInt c]) mid);
        [|by rewrite lookup_insert_ne|done|done
         |by rewrite lookup_insert_eq, <- app_assoc|lia].
      simpl. by rewrite insert_insert_eq, <- app_assoc.
Qed.

Lemma wp_strncpy n s h bs os sblk bd pre mid post (Q : ptr -> heap -> Prop) :
  h !! bs = Some sblk -> cstr_in sblk os s -> bd <> bs ->
  h !! bd = Some (pre ++ mid ++ post) -> Z.of_nat (length mid) = n ->
  Q (Ptr bd (Z.of_nat (length pre))) (<[bd := pre ++ strncpy_cells s (length mid) ++ post]> h) ->
  wp (strncpy (Ptr bd (Z.of_nat (length pre))) (Ptr bs (Z.of_nat os)) n) Q h.
Proof.
  intros ? ? ? ? <- HQ. unfold strncpy. rewrite Nat2Z.id.
  apply wp_bind. eapply wp_ok; [by eapply strncpy_copy_ok|]. by apply wp_ret.
Qed.

(** The idiom of both insertions: [strncpy(in, s, len); in[len] = 0] into a
    new block of [len + 1] cells makes that block the copy of the string. *)
Lemma wp_copy_string {A} h src str bd (k : M heap A)
    (R : result (A * heap) -> Prop) :
  cstr_at h src str ->
  h !! bd = Some (replicate (S (length str)) VUndef) ->
  wpo k R (<[bd := cstring str]> h) ->
  wpo (strncpy (Ptr bd 0) src (Z.of_nat (length str)) ;;;
       store (ptr_add (Ptr bd 0) (Z.of_nat (length str))) (VInt 0) ;;; k) R h.
Proof.
  destruct src as [|bs os]; [done|]. intros (Hos & sblk & Hsb & Hin) Hd Hk.
  assert (bd <> bs) as Hne.
  { intros ->. rewrite Hsb in Hd. apply (inj Some) in Hd. subst sblk.
    apply cstr_in_terminator in Hin. by apply lookup_replicate in Hin as [? _]. }
  rewrite replicate_S_end in Hd.
  replace os with (Z.of_nat (Z.to_nat os)) by lia.
  apply wp_bind.
  apply (wp_strncpy _ str h bs _ sblk bd [] (replicate (length str) VUndef) [VUndef]);
    [done..|by rewrite length_replicate|].
  rewrite length_replicate, strncpy_cells_take, take_ge by lia. simpl.
  apply wp_bind. eapply wp_store.
  { by rewrite lookup_insert_eq. }
  { rewrite Z.add_0_l, cell_lookup, lookup_app_r by (by rewrite length_fmap).
    by rewrite length_fmap, Nat.sub_diag. }
  rewrite insert_insert_eq, Z.add_0_l, Nat2Z.id.
  replace (length str) with (length (VInt <$> str)) at 1 by apply length_fmap.
  by rewrite (insert_middle_app (VInt <$> str) VUndef (VInt 0) []).
Qed.

(** *** The copy to the caller's buffer *)

Lemma copy_out_cells_length s n : length (copy_out_cells s n) = n.
Proof. unfold copy_out_cells. by rewrite length_insert, strncpy_cells_length. Qed.

(** The buffer holds the string truncated to [n - 1] characters, with its
    terminator. *)
Lemma cstr_in_copy_out pre s n post :
  (1 <= n)%nat -> Forall (fun c => c <> 0) s ->
  cstr_in (pre ++ copy_out_cells s n ++ post) (length pre) (take (pred n) s).
Proof.
  unfold copy_out_cells. revert pre s.
  induction n as [|n IH]; intros pre s Hn Hs; [lia|].
  destruct n as [|n].
  { simpl. destruct s; simpl; by rewrite list_lookup_middle. }
  destruct Hs as [|c s Hc Hs]; simpl.
  - rewrite list_lookup_middle by done. done.
  - split; [done|]. split; [by rewrite list_lookup_middle|].
    specialize (IH (pre ++ [VInt c]) s ltac:(lia) Hs).
    rewrite length_app, Nat.add_1_r, <- app_assoc in IH. exact IH.
Qed.

(** [strncpy(sp, src, n); sp[n - 1] = 0] for a buffer of [n >= 1] cells
    inside a block other than the source's. *)
Lemma wp_copy_out h src str bb pre mid post (Q : unit -> heap -> Prop) :
  cstr_at h src str -> h !! bb = Some (pre ++ mid ++ post) ->
  (forall z : Z, src <> Ptr bb z) -> (1 <= length mid)%nat -> Z.of_nat (length mid) <= SIZE_MAX ->
  Q tt (<[bb := pre ++ copy_out_cells str (length mid) ++ post]> h) ->
  wp (strncpy (Ptr bb (Z.of_nat (length pre))) src (Z.of_nat (length mid)) ;;;
      store (ptr_add (Ptr bb (Z.of_nat (length pre)))
                     (to_size_t (Z.of_nat (length mid) - 1))) (VInt 0)) Q h.
Proof.
  destruct src as [|bs os]; [done|]. intros (Hos & sblk & Hsb & Hin) Hd Hne Hn Hmax Hk.
  assert (bb <> bs) by (intros ->; by eapply Hne).
  replace os with (Z.of_nat (Z.to_nat os)) by lia.
  apply wp_bind. eapply wp_strncpy; [done..|].
  rewrite to_size_t_small by lia. simpl ptr_add.
  replace (Z.of_nat (length pre) + (Z.of_nat (length mid) - 1))
    with (Z.of_nat (length pre + pred (length mid))) by lia.
  pose proof (strncpy_cells_length str (length mid)) as Hlen.
  destruct (lookup_lt_is_Some_2 (strncpy_cells str (length mid)) (pred (length mid)))
    as [v0 Hv0]; [lia|].
  eapply wp_store.
  { by rewrite lookup_insert_eq. }
  { rewrite cell_lookup, lookup_app_r, lookup_app_l by lia.
    replace (length pre + pred (length mid) - length pre)%nat with (pred (length mid)) by lia.
    exact Hv0. }
  rewrite insert_insert_eq, Nat2Z.id, insert_app_r, insert_app_l by lia. done.
Qed.
End CStr.

(** *** Reading a string one character at a time *)

(** The character at the start of a string: the terminator when it is
    empty. *)
Lemma cstr_at_load h p s : cstr_at h p s -> load_int p h = Ok (hd 0 s, h).
Proof.
  destruct p as [|b o]; [done|]. intros (Ho & blk & Hb & Hin).
  eapply load_int_ok; [done|]. replace o with (Z.of_nat (Z.to_nat o)) by lia.
  rewrite cell_lookup. destruct s; simpl in *; tauto.
Qed.

Lemma cstr_at_next h p c s : cstr_at h p (c :: s) -> cstr_at h (ptr_add p 1) s.
Proof.
  destruct p as [|b o]; [done|]. intros (Ho & blk & Hb & _ & _ & Hin).
  split; [lia|]. exists blk. split; [done|].
  by replace (Z.to_nat (o + 1)) with (S (Z.to_nat o)) by lia.
Qed.

Lemma cstr_at_block_len h p s : cstr_at h p s -> (length s < block_len p h)%nat.
Proof.
  destruct p as [|b o]; [done|]. intros (Ho & blk & Hb & Hin%cstr_in_length).
  unfold block_len. rewrite Hb. simpl. lia.
Qed.

(** ** Decidability, for evaluation on concrete heaps *)

#[export] Instance cstr_in_dec blk o s : Decision (cstr_in blk o s).
Proof. revert o. induction s as [|c s IH]; intros o; simpl; apply _. Defined.

#[export] Instance cstr_at_dec h p s : Decision (cstr_at h p s).
Proof.
  destruct p as [|b o]; simpl; [apply _|].
  destruct (h !! b) as [blk|] eqn:E.
  - destruct (decide (0 <= o /\ cstr_in blk (Z.to_nat o) s)) as [Hd|Hd].
    + left. destruct Hd. eauto.
    + right. intros (? & blk' & [= <-] & ?). tauto.
  - right. by intros (_ & ? & ? & _).
Defined.
