(* ===== verification/ListSeg.v ===== *)
(** * The heap as a queue: representation predicates

    An [elem] names one element of a queue: the block of its node, the
    block of its string and the string.  [nodes_ok] and [strs_ok] say that
    a heap holds a list of elements as a chain of nodes; [queue_rep] adds
    the queue record; [queue_ok] is the invariant of the spec's data
    model.  The lemmas are the framing facts: what a change of one block
    leaves intact. *)

From Stdlib Require Import ZArith Lia.
From stdpp Require Import gmap list.
From S2P Require Import Prelude Memory Structs CString.

Local Open Scope Z_scope.

(** ** Definitions *)

(** One element: the node block, the string block, the string. *)
Record elem : Set := Elem { e_node : loc; e_str : loc; e_val : list Z }.

#[export] Instance elem_eq_dec : EqDecision elem.
Proof. solve_decision. Defined.

(** The pointer to the first node of a chain that ends in [q]. *)
Definition hd_ptr (es : list elem) (q : ptr) : ptr :=
  match es with
  | [] => q
  | e :: _ => Ptr (e_node e) 0
  end.

(** The pointer to the last node, [NULL] for no node. *)
Definition last_ptr (es : list elem) : ptr :=
  match list.last es with
  | None => Null
  | Some e => Ptr (e_node e) 0
  end.

(** The blocks a list of elements occupies. *)
Fixpoint locs (es : list elem) : list loc :=
  match es with
  | [] => []
  | e :: es' => e_node e :: e_str e :: locs es'
  end.

(** The node blocks, and the string blocks. *)
Definition node_locs (es : list elem) : list loc := e_node <$> es.
Definition str_locs (es : list elem) : list loc := e_str <$> es.

(** The nodes of [es] are linked in this order, the last one to [q]. *)
Fixpoint nodes_ok (h : heap) (es : list elem) (q : ptr) : Prop :=
  match es with
  | [] => True
  | e :: es' =>
      h !! e_node e = Some (list_ele_t (Ptr (e_str e) 0) (hd_ptr es' q))
      /\ nodes_ok h es' q
  end.

(** The string block of an element holds exactly its string. *)
Definition str_ok (h : heap) (e : elem) : Prop :=
  h !! e_str e = Some (cstring (e_val e)) /\ Forall (fun c => c <> 0) (e_val e).

Definition strs_ok (h : heap) (es : list elem) : Prop := Forall (str_ok h) es.

(** The element [e] is in the heap: its node, whatever it is linked to,
    and its string. *)
Definition elem_at (h : heap) (e : elem) : Prop :=
  (exists nxt, h !! e_node e = Some (list_ele_t (Ptr (e_str e) 0) nxt)) /\ str_ok h e.

(** The queue record at block [q] represents the elements [es]; [tl] is
    what its [tail] field holds. *)
Record queue_rep (h : heap) (q : loc) (es : list elem) (tl : ptr) : Prop := {
  rep_queue : h !! q = Some (queue_t (hd_ptr es Null) tl (Z.of_nat (length es)));
  rep_nodes : nodes_ok h es Null;
  rep_strs : strs_ok h es;
  rep_nodup : NoDup (q :: locs es)
}.

(** The invariant of the data model: [queue_rep] with [tail] at the last
    node, [NULL] when the queue is empty. *)
Definition queue_ok (h : heap) (q : loc) (es : list elem) : Prop :=
  queue_rep h q es (last_ptr es).

(** The strings a queue holds, in order: its abstract value. *)
Definition contents (es : list elem) : list (list Z) := e_val <$> es.

(** Two heaps agree on the blocks [L]. *)
Definition agree_on (L : list loc) (h h' : heap) : Prop :=
  forall l, l ∈ L -> h' !! l = h !! l.

(** Two heaps agree outside the blocks [L]. *)
Definition same_outside (L : list loc) (h h' : heap) : Prop :=
  forall l, l ∉ L -> h' !! l = h !! l.

(** The heap after the blocks [L] are released. *)
Definition delete_all (L : list loc) (h : heap) : heap := foldr delete h L.

(** ** Lemmas *)

Section Rep.
Implicit Types (h : heap) (es : list elem) (e : elem) (q : ptr) (b l : loc).

Lemma locs_app es1 es2 : locs (es1 ++ es2) = locs es1 ++ locs es2.
Proof. induction es1 as [|e es1 IH]; simpl; [done|]. by rewrite IH. Qed.

Lemma locs_reverse es : locs (reverse es) ≡ₚ locs es.
Proof.
  induction es as [|e es IH]; simpl; [done|].
  rewrite reverse_cons, locs_app, IH. simpl.
  rewrite (Permutation_app_comm (locs es)). done.
Qed.

Lemma elem_of_locs l es : l ∈ locs es <-> exists e, e ∈ es /\ (l = e_node e \/ l = e_str e).
Proof.
  induction es as [|e es IH]; simpl.
  - split; [by intros ?%elem_of_nil|by intros (? & ?%elem_of_nil & _)].
  - rewrite !elem_of_cons, IH. split.
    + intros [->|[->|(e' & ? & ?)]]; [exists e|exists e|exists e'];
        rewrite elem_of_cons; auto.
    + intros (e' & [->|?]%elem_of_cons & Hl); [tauto|]. right. right. eauto.
Qed.

(** Membership in [locs], for [set_solver]. *)
#[export] Instance set_unfold_locs l es (P : elem -> Prop) :
  (forall e, SetUnfoldElemOf e es (P e)) ->
  SetUnfoldElemOf l (locs es) (exists e, P e /\ (l = e_node e \/ l = e_str e)).
Proof.
  intros HP. constructor. rewrite elem_of_locs.
  by setoid_rewrite (@set_unfold_elem_of _ _ _ _ _ _ (HP _)).
Qed.

#[export] Instance set_unfold_node_locs l es (P : elem -> Prop) :
  (forall e, SetUnfoldElemOf e es (P e)) ->
  SetUnfoldElemOf l (node_locs es) (exists e, P e /\ l = e_node e).
Proof.
  intros HP. constructor. unfold node_locs. rewrite list_elem_of_fmap.
  setoid_rewrite (@set_unfold_elem_of _ _ _ _ _ _ (HP _)). naive_solver.
Qed.

#[export] Instance set_unfold_str_locs l es (P : elem -> Prop) :
  (forall e, SetUnfoldElemOf e es (P e)) ->
  SetUnfoldElemOf l (str_locs es) (exists e, P e /\ l = e_str e).
Proof.
  intros HP. constructor. unfold str_locs. rewrite list_elem_of_fmap.
  setoid_rewrite (@set_unfold_elem_of _ _ _ _ _ _ (HP _)). naive_solver.
Qed.

(** The blocks of a list of elements, list by list: the rewriting rules of
    the database [locs]. *)
Lemma locs_cons e es : locs (e :: es) = e_node e :: e_str e :: locs es.
Proof. done. Qed.

Lemma locs_nil : locs [] = [].
Proof. done. Qed.

Lemma node_locs_app es1 es2 : node_locs (es1 ++ es2) = node_locs es1 ++ node_locs es2.
Proof. apply fmap_app. Qed.

Lemma node_locs_cons e es : node_locs (e :: es) = e_node e :: node_locs es.
Proof. done. Qed.

Lemma node_locs_nil : node_locs [] = [].
Proof. done. Qed.

Lemma str_locs_app es1 es2 : str_locs (es1 ++ es2) = str_locs es1 ++ str_locs es2.
Proof. apply fmap_app. Qed.

Lemma str_locs_cons e es : str_locs (e :: es) = e_str e :: str_locs es.
Proof. done. Qed.

Lemma str_locs_nil : str_locs [] = [].
Proof. done. Qed.

Lemma node_locs_sub es l : l ∈ node_locs es -> l ∈ locs es.
Proof. unfold node_locs. intros (e & -> & He)%list_elem_of_fmap. apply elem_of_locs. eauto. Qed.

Lemma str_locs_sub es l : l ∈ str_locs es -> l ∈ locs es.
Proof. unfold str_locs. intros (e & -> & He)%list_elem_of_fmap. apply elem_of_locs. eauto. Qed.

Lemma node_in_locs e es : e ∈ es -> e_node e ∈ locs es.
Proof. intros. apply elem_of_locs. eauto. Qed.

Lemma str_in_locs e es : e ∈ es -> e_str e ∈ locs es.
Proof. intros. apply elem_of_locs. eauto. Qed.

Lemma elem_of_app_left {A} (x : A) (xs ys : list A) : x ∈ xs -> x ∈ xs ++ ys.
Proof. intros. apply elem_of_app. by left. Qed.

Lemma elem_of_app_right {A} (x : A) (xs ys : list A) : x ∈ ys -> x ∈ xs ++ ys.
Proof. intros. apply elem_of_app. by right. Qed.

(** The blocks of a chain are its node blocks and its string blocks. *)
Lemma locs_perm es : locs es ≡ₚ node_locs es ++ str_locs es.
Proof.
  induction es as [|e es IH]; simpl; [done|].
  rewrite IH. unfold node_locs, str_locs. simpl.
  by rewrite (Permutation_middle (e_node <$> es)).
Qed.

Lemma NoDup_locs es :
  NoDup (locs es) <->
  NoDup (node_locs es) /\ (forall l, l ∈ node_locs es -> l ∉ str_locs es) /\ NoDup (str_locs es).
Proof. rewrite locs_perm. apply NoDup_app. Qed.

Lemma node_locs_reverse es : node_locs (reverse es) = reverse (node_locs es).
Proof. apply fmap_reverse. Qed.

Lemma hd_ptr_app es1 es2 q : hd_ptr (es1 ++ es2) q = hd_ptr es1 (hd_ptr es2 q).
Proof. by destruct es1. Qed.

Lemma last_ptr_snoc es e : last_ptr (es ++ [e]) = Ptr (e_node e) 0.
Proof. unfold last_ptr. by rewrite last_snoc. Qed.

Lemma last_ptr_cons e e' es : last_ptr (e :: e' :: es) = last_ptr (e' :: es).
Proof. done. Qed.

Lemma last_ptr_push e es :
  last_ptr (e :: es) = if is_null (last_ptr es) then Ptr (e_node e) 0 else last_ptr es.
Proof.
  destruct es as [|e' es]; [done|]. rewrite last_ptr_cons. unfold last_ptr.
  destruct (list.last (e' :: es)) eqn:E; [done|]. by apply last_None in E.
Qed.

Lemma last_ptr_reverse es : last_ptr (reverse es) = hd_ptr es Null.
Proof. unfold last_ptr. rewrite last_reverse. by destruct es. Qed.

Lemma hd_ptr_reverse es : hd_ptr (reverse es) Null = last_ptr es.
Proof.
  unfold last_ptr. rewrite <- head_reverse. by destruct (reverse es).
Qed.

Lemma last_ptr_null es : last_ptr es = Null <-> es = [].
Proof.
  unfold last_ptr. destruct es as [|e es] using rev_ind; [done|].
  rewrite last_snoc. split; [done|]. by destruct es.
Qed.

Lemma hd_ptr_null es : hd_ptr es Null = Null <-> es = [].
Proof. by destruct es. Qed.

(** *** Agreement of heaps *)

Lemma agree_on_refl L h : agree_on L h h.
Proof. done. Qed.

Lemma agree_on_insert L h h' b blk :
  b ∉ L -> agree_on L h h' -> agree_on L h (<[b := blk]> h').
Proof. intros Hb Hag l Hl. rewrite lookup_insert_ne by set_solver. auto. Qed.

Lemma agree_on_delete L h h' b :
  b ∉ L -> agree_on L h h' -> agree_on L h (delete b h').
Proof. intros Hb Hag l Hl. rewrite lookup_delete_ne by set_solver. auto. Qed.

Lemma agree_on_weaken L L' h h' : L' ⊆ L -> agree_on L h h' -> agree_on L' h h'.
Proof. intros HL Hag l Hl. apply Hag. set_solver. Qed.

Lemma agree_on_trans L h1 h2 h3 : agree_on L h1 h2 -> agree_on L h2 h3 -> agree_on L h1 h3.
Proof. intros H12 H23 l Hl. rewrite H23, H12; done. Qed.

Lemma same_outside_refl L h : same_outside L h h.
Proof. done. Qed.

Lemma same_outside_insert L h h' b blk :
  b ∈ L -> same_outside L h h' -> same_outside L h (<[b := blk]> h').
Proof. intros Hb Hag l Hl. rewrite lookup_insert_ne by set_solver. auto. Qed.

Lemma same_outside_delete L h h' b :
  b ∈ L -> same_outside L h h' -> same_outside L h (delete b h').
Proof. intros Hb Hag l Hl. rewrite lookup_delete_ne by set_solver. auto. Qed.

Lemma same_outside_agree L L' h h' :
  (forall l, l ∈ L' -> l ∉ L) -> same_outside L h h' -> agree_on L' h h'.
Proof. intros HL Hs l Hl. apply Hs. auto. Qed.

Lemma same_outside_weaken L L' h h' :
  (forall l, l ∈ L -> l ∈ L') -> same_outside L h h' -> same_outside L' h h'.
Proof. intros HL Hs l Hl. apply Hs. auto. Qed.

Lemma same_outside_trans L h1 h2 h3 :
  same_outside L h1 h2 -> same_outside L h2 h3 -> same_outside L h1 h3.
Proof. intros H12 H23 l Hl. by rewrite H23, H12. Qed.

(** Heaps that agree outside blocks allocated in both have the same
    blocks: nothing was allocated and nothing released. *)
Lemma same_outside_dom L h h' :
  same_outside L h h' ->
  (forall l, l ∈ L -> is_Some (h !! l) /\ is_Some (h' !! l)) -> dom h' = dom h.
Proof.
  intros Hout HL. apply set_eq. intros l. rewrite !elem_of_dom.
  destruct (decide (l ∈ L)); [naive_solver|by rewrite Hout].
Qed.

(** *** Release of a list of blocks *)

Lemma lookup_delete_all L h l :
  delete_all L h !! l = if decide (l ∈ L) then None else h !! l.
Proof.
  unfold delete_all. induction L as [|b L IH]; cbn [foldr].
  - by rewrite decide_False by set_solver.
  - destruct (decide (b = l)) as [->|Hne].
    + by rewrite lookup_delete_eq, decide_True by set_solver.
    + rewrite lookup_delete_ne, IH by done.
      destruct (decide (l ∈ L)); [by rewrite decide_True by set_solver|].
      by rewrite decide_False by set_solver.
Qed.

Lemma delete_all_delete L h b : delete_all L (delete b h) = delete b (delete_all L h).
Proof.
  apply map_eq. intros l. destruct (decide (b = l)) as [->|Hne].
  - rewrite lookup_delete_eq, lookup_delete_all, lookup_delete_eq. by case_decide.
  - by rewrite lookup_delete_ne, !lookup_delete_all, lookup_delete_ne by done.
Qed.

Lemma delete_all_insert L h b blk :
  b ∉ L -> delete_all L (<[b := blk]> h) = <[b := blk]> (delete_all L h).
Proof.
  intros Hb. apply map_eq. intros l. destruct (decide (b = l)) as [->|Hne].
  - by rewrite lookup_delete_all, decide_False, !lookup_insert_eq by done.
  - by rewrite lookup_insert_ne, !lookup_delete_all, lookup_insert_ne by done.
Qed.

Lemma same_outside_delete_all L h : same_outside L h (delete_all L h).
Proof. intros l Hl. by rewrite lookup_delete_all, decide_False. Qed.

(** The blocks of a chain are all there is to count: they are distinct and
    allocated, so the heap has at least that many blocks. *)
Lemma allocated_le_size L h :
  NoDup L -> (forall l, l ∈ L -> is_Some (h !! l)) -> (length L <= size h)%nat.
Proof.
  intros Hnd Hall. rewrite <- size_dom, <- (size_list_to_set (C := gset loc) L) by done.
  apply subseteq_size. intros l Hl%elem_of_list_to_set. by apply elem_of_dom, Hall.
Qed.

Lemma locs_length es : length (locs es) = (2 * length es)%nat.
Proof. induction es as [|e es IH]; simpl; [done|]. rewrite IH. lia. Qed.

(** *** Framing *)

Lemma nodes_ok_agree h h' es q :
  agree_on (node_locs es) h h' -> nodes_ok h es q -> nodes_ok h' es q.
Proof.
  induction es as [|e es IH]; simpl; [done|]. intros Hag [Hn Hes]. split.
  - rewrite Hag by (unfold node_locs; set_solver). done.
  - apply IH; [|done]. eapply agree_on_weaken; [|done]. unfold node_locs. set_solver.
Qed.

Lemma strs_ok_agree h h' es : agree_on (str_locs es) h h' -> strs_ok h es -> strs_ok h' es.
Proof.
  unfold strs_ok. induction es as [|e es IH]; simpl; [done|].
  intros Hag [[Hs Hz] Hes]%Forall_cons. constructor.
  - split; [|done]. rewrite Hag by (unfold str_locs; set_solver). done.
  - apply IH; [|done]. eapply agree_on_weaken; [|done]. unfold str_locs. set_solver.
Qed.

(** Every block of a represented chain is allocated. *)
Lemma nodes_strs_allocated h es q l :
  nodes_ok h es q -> strs_ok h es -> l ∈ locs es -> is_Some (h !! l).
Proof.
  induction es as [|e es IH]; simpl; [by intros _ _ ?%elem_of_nil|].
  intros [Hn Hes] [[Hs _] Hss]%Forall_cons [->|[->|Hl]%elem_of_cons]%elem_of_cons; eauto.
Qed.

Lemma fresh_not_in_locs h es q b :
  nodes_ok h es q -> strs_ok h es -> h !! b = None -> b ∉ locs es.
Proof.
  intros Hn Hs Hb Hin. destruct (nodes_strs_allocated _ _ _ _ Hn Hs Hin) as [? ?].
  congruence.
Qed.

(** Relinking the end of a chain. *)
Lemma nodes_ok_app h es1 es2 q :
  nodes_ok h (es1 ++ es2) q <-> nodes_ok h es1 (hd_ptr es2 q) /\ nodes_ok h es2 q.
Proof.
  induction es1 as [|e es1 IH]; simpl; [tauto|].
  rewrite IH, hd_ptr_app. tauto.
Qed.

Lemma nodes_ok_snoc h es e q :
  nodes_ok h (es ++ [e]) q <->
  nodes_ok h es (Ptr (e_node e) 0) /\ h !! e_node e = Some (list_ele_t (Ptr (e_str e) 0) q).
Proof. rewrite nodes_ok_app. simpl. tauto. Qed.

Lemma locs_snoc es e : locs (es ++ [e]) = locs es ++ [e_node e; e_str e].
Proof. by rewrite locs_app. Qed.

Lemma NoDup_locs_snoc es e :
  NoDup (locs (es ++ [e])) <->
  NoDup (locs es) /\ (e_node e ∉ locs es) /\ (e_str e ∉ locs es) /\ e_node e <> e_str e.
Proof.
  rewrite locs_snoc, NoDup_app, !NoDup_cons, NoDup_nil. split.
  - intros (? & Hd & Hne & _). split_and!; [done|..].
    + intros Hin. apply (Hd _ Hin). by left.
    + intros Hin. apply (Hd _ Hin). right. by left.
    + intros Heq. apply Hne. rewrite Heq. by left.
  - intros (? & Hn & Hs & Hne). split_and!; [done| |set_solver|set_solver|done].
    intros x Hx [->|[->|?%elem_of_nil]%elem_of_cons]%elem_of_cons; done.
Qed.

Lemma strs_ok_app h es1 es2 : strs_ok h (es1 ++ es2) <-> strs_ok h es1 /\ strs_ok h es2.
Proof. apply Forall_app. Qed.

Lemma str_ok_cstr_at h e : str_ok h e -> cstr_at h (Ptr (e_str e) 0) (e_val e).
Proof.
  intros [Hs Hz]. split; [done|]. exists (cstring (e_val e)).
  split; [done|]. by apply cstr_in_cstring.
Qed.

Lemma contents_length es : length (contents es) = length es.
Proof. apply length_fmap. Qed.

(** The fuel taken from the heap covers a walk over any represented
    chain. *)
Lemma fuel_of_enough h es q :
  nodes_ok h es q -> strs_ok h es -> NoDup (locs es) -> (length es < fuel_of h)%nat.
Proof.
  intros Hn Hs Hnd. unfold fuel_of.
  pose proof (allocated_le_size (locs es) h Hnd) as Hle.
  rewrite locs_length in Hle. enough (2 * length es <= size h)%nat by lia.
  apply Hle. intros l Hl. by eapply nodes_strs_allocated.
Qed.

(** Two heaps that hold the same chain and agree outside its nodes are
    equal. *)
Lemma nodes_ok_determined h h' es q l :
  nodes_ok h es q -> nodes_ok h' es q -> l ∈ node_locs es -> h' !! l = h !! l.
Proof.
  induction es as [|e es IH]; simpl; [by intros _ _ ?%elem_of_nil|].
  intros [Hn Hes] [Hn' Hes'] [->|Hl]%elem_of_cons; [congruence|]. by apply IH.
Qed.

(** *** The queue record *)

Lemma queue_rep_fresh h (q : loc) es tl b : queue_rep h q es tl -> h !! b = None -> b ∉ q :: locs es.
Proof.
  intros [Hq Hn Hs _] Hb [->|Hin]%elem_of_cons; [congruence|].
  by eapply fresh_not_in_locs.
Qed.

(** A write to a block that is not a node (not a string) of the list. *)
Lemma nodes_ok_insert_ne h es q b blk :
  b ∉ node_locs es -> nodes_ok h es q -> nodes_ok (<[b := blk]> h) es q.
Proof. intros. eapply nodes_ok_agree; [|done]. by apply agree_on_insert, agree_on_refl. Qed.

Lemma strs_ok_insert_ne h es b blk :
  b ∉ str_locs es -> strs_ok h es -> strs_ok (<[b := blk]> h) es.
Proof. intros. eapply strs_ok_agree; [|done]. by apply agree_on_insert, agree_on_refl. Qed.

#[export] Instance locs_Permutation : Proper ((≡ₚ) ==> (≡ₚ)) locs.
Proof.
  induction 1 as [|e es es' _ IH|e e' es|es1 es2 es3 _ IH1 _ IH2]; simpl.
  - done.
  - by rewrite IH.
  - change (([e_node e'; e_str e'] ++ [e_node e; e_str e]) ++ locs es ≡ₚ
            ([e_node e; e_str e] ++ [e_node e'; e_str e']) ++ locs es).
    f_equiv. apply Permutation_app_comm.
  - by rewrite IH1.
Qed.

#[export] Instance node_locs_Permutation : Proper ((≡ₚ) ==> (≡ₚ)) node_locs.
Proof. intros es es' Hp. unfold node_locs. by rewrite Hp. Qed.

#[export] Instance str_locs_Permutation : Proper ((≡ₚ) ==> (≡ₚ)) str_locs.
Proof. intros es es' Hp. unfold str_locs. by rewrite Hp. Qed.

#[export] Instance same_outside_Permutation :
  Proper ((≡ₚ) ==> (=) ==> (=) ==> iff) same_outside.
Proof.
  intros L L' Hp h ? <- h' ? <-. unfold same_outside.
  by setoid_rewrite Hp.
Qed.

Lemma nodes_ok_elem_at h es q e :
  nodes_ok h es q -> strs_ok h es -> e ∈ es -> elem_at h e.
Proof.
  induction es as [|e' es IH]; simpl; [by intros _ _ ?%elem_of_nil|].
  intros [Hn Hes] [Hs Hss]%Forall_cons [->|He]%elem_of_cons; [|by apply IH].
  split; eauto.
Qed.

Lemma queue_rep_elem_at h (q : loc) es tl e :
  queue_rep h q es tl -> e ∈ es -> elem_at h e.
Proof. intros [_ Hn Hs _]. by eapply nodes_ok_elem_at. Qed.

Lemma queue_rep_allocated h (q : loc) es tl l :
  queue_rep h q es tl -> l ∈ q :: locs es -> is_Some (h !! l).
Proof.
  intros [Hq Hn Hs _] [->|Hl]%elem_of_cons; [eauto|].
  by eapply nodes_strs_allocated.
Qed.

(** The heap is determined by what it represents and by its blocks outside
    the queue record and the nodes. *)
Lemma queue_rep_determined h h' (q : loc) es tl :
  queue_rep h q es tl -> queue_rep h' q es tl ->
  same_outside (q :: node_locs es) h h' -> h' = h.
Proof.
  intros [Hq Hn _ _] [Hq' Hn' _ _] Hout. apply map_eq. intros l.
  destruct (decide (l ∈ q :: node_locs es)) as [[->|Hl]%elem_of_cons|Hl].
  - congruence.
  - by eapply nodes_ok_determined.
  - by apply Hout.
Qed.
End Rep.

(** ** Lemmas for clients that split, permute and free *)

Lemma nodes_ok_node_allocated h es q e :
  nodes_ok h es q -> e ∈ es -> is_Some (h !! e_node e).
Proof.
  induction es as [|e' es IH]; simpl; [by intros _ ?%elem_of_nil|].
  intros [Hn Hes] [->|He]%elem_of_cons; eauto.
Qed.

(** The two halves of a list of elements occupy different blocks. *)
Lemma NoDup_locs_split l1 e l2 :
  NoDup (locs (l1 ++ e :: l2)) -> NoDup (locs (l1 ++ [e])) /\ NoDup (locs l2).
Proof.
  rewrite cons_middle, app_assoc, (locs_app (l1 ++ [e])).
  by intros (? & _ & ?)%NoDup_app.
Qed.

Lemma queue_rep_agree h h' (q : loc) es tl :
  agree_on (q :: locs es) h h' -> queue_rep h q es tl -> queue_rep h' q es tl.
Proof.
  intros Hag [Hq Hn Hs Hnd]. split; [|..|done].
  - rewrite Hag; [done|by left].
  - eapply nodes_ok_agree; [|done]. eapply agree_on_weaken; [|done].
    intros l ?%node_locs_sub. by right.
  - eapply strs_ok_agree; [|done]. eapply agree_on_weaken; [|done].
    intros l ?%str_locs_sub. by right.
Qed.

(** A queue is not touched by writes to blocks that are not its own. *)
Lemma queue_rep_frame L h h' (q : loc) es tl :
  same_outside L h h' -> (forall l, l ∈ q :: locs es -> l ∉ L) ->
  queue_rep h q es tl -> queue_rep h' q es tl.
Proof. intros Hf HL. by eapply queue_rep_agree, same_outside_agree. Qed.

Lemma nodes_ok_delete_ne h es q b :
  b ∉ node_locs es -> nodes_ok h es q -> nodes_ok (delete b h) es q.
Proof. intros. eapply nodes_ok_agree; [|done]. by apply agree_on_delete, agree_on_refl. Qed.

Lemma strs_ok_delete_ne h es b :
  b ∉ str_locs es -> strs_ok h es -> strs_ok (delete b h) es.
Proof. intros. eapply strs_ok_agree; [|done]. by apply agree_on_delete, agree_on_refl. Qed.

(** The blocks of the stack frame are gone on return: what changed
    outside them and the queue is nothing. *)
Lemma same_outside_free (h h' : heap) q bl br N :
  same_outside (q :: bl :: br :: N) h h' -> h !! bl = None -> h !! br = None ->
  same_outside (q :: N) h (delete bl (delete br h')).
Proof.
  intros Hf Hbl Hbr l Hl. destruct (decide (l = bl)) as [->|?].
  { by rewrite lookup_delete_eq. }
  rewrite lookup_delete_ne by done. destruct (decide (l = br)) as [->|?].
  { by rewrite lookup_delete_eq. }
  rewrite lookup_delete_ne by done. apply Hf. set_solver.
Qed.

(** The database [locs] splits the lists of blocks of a list of elements. *)
Create Rewrite HintDb locs.

#[export] Hint Rewrite locs_app locs_cons locs_nil node_locs_app node_locs_cons
  node_locs_nil str_locs_app str_locs_cons str_locs_nil : locs.

#[export] Hint Resolve node_in_locs str_in_locs elem_of_app_left elem_of_app_right
  list_elem_of_here list_elem_of_further : cq.

(** ** Decidability, for evaluation on concrete heaps *)

#[export] Instance nodes_ok_dec h es q : Decision (nodes_ok h es q).
Proof. induction es as [|e es IH]; simpl; apply _. Defined.

#[export] Instance str_ok_dec h e : Decision (str_ok h e).
Proof. unfold str_ok. apply _. Defined.

#[export] Instance strs_ok_dec h es : Decision (strs_ok h es).
Proof. unfold strs_ok. apply _. Defined.

#[export] Instance queue_rep_dec h q es tl : Decision (queue_rep h q es tl).
Proof.
  refine (cast_if (decide (
    h !! q = Some (queue_t (hd_ptr es Null) tl (Z.of_nat (length es))) /\
    nodes_ok h es Null /\ strs_ok h es /\ NoDup (q :: locs es))));
    [destruct_and?; by constructor|intros []; tauto].
Defined.

#[export] Instance queue_ok_dec h q es : Decision (queue_ok h q es).
Proof. unfold queue_ok. apply _. Defined.
