(* ===== verification/Fixtures.v ===== *)
(** * Concrete heaps

    Queues laid out in a heap at chosen addresses, on which the theorems of
    the development are applied to closed inputs, and the tactic that
    decides representation facts of such heaps by evaluation. *)

From Stdlib Require Import ZArith String Ascii.
From stdpp Require Import gmap list.
From S2P Require Import Prelude Memory Structs CString ListSeg.

Local Open Scope Z_scope.

(** The characters of a string literal. *)
Definition chars (s : string) : list Z :=
  (fun a => Z.of_nat (nat_of_ascii a)) <$> list_ascii_of_string s.

Definition s_hello : list Z := chars "hello".
Definition s_he : list Z := chars "he".
Definition s_banana : list Z := chars "banana".
Definition s_apple : list Z := chars "apple".
Definition s_cherry : list Z := chars "cherry".

(** The nodes and strings of [es], linked in this order, added to [h]. *)
Fixpoint mk_nodes (es : list elem) (h : heap) : heap :=
  match es with
  | [] => h
  | e :: es' =>
      <[e_node e := list_ele_t (Ptr (e_str e) 0) (hd_ptr es' Null)]>
        (<[e_str e := cstring (e_val e)]> (mk_nodes es' h))
  end.

(** The queue record at [q] over the elements [es], with [tail] as given. *)
Definition mk_queue (q : loc) (es : list elem) (tl : ptr) (h : heap) : heap :=
  <[q := queue_t (hd_ptr es Null) tl (Z.of_nat (length es))]> (mk_nodes es h).

(** The caller's blocks: a string at block 100, a buffer of three cells at
    block 101. *)
Definition caller : heap :=
  {[ 100%positive := cstring s_hello;
     101%positive := replicate 3 VUndef ]}.

Definition e_banana : elem := Elem 2 3 s_banana.
Definition e_apple : elem := Elem 4 5 s_apple.
Definition e_cherry : elem := Elem 6 7 s_cherry.
Definition e_hello : elem := Elem 2 3 s_hello.

(** Two elements that hold the same string. *)
Definition e_twin1 : elem := Elem 2 3 s_apple.
Definition e_twin2 : elem := Elem 4 5 s_apple.

(** The queue record is block 1 in all of them. *)
Definition h_empty : heap := mk_queue 1 [] Null caller.
Definition h_hello : heap := mk_queue 1 [e_hello] (Ptr 2 0) caller.
Definition h_two : heap := mk_queue 1 [e_banana; e_apple] (Ptr 4 0) caller.
Definition h_three : heap :=
  mk_queue 1 [e_banana; e_apple; e_cherry] (Ptr 6 0) caller.

(** The empty queue that [q_remove_head] leaves behind [h_hello]. *)
Definition h_stale : heap := mk_queue 1 [] (Ptr 2 0) caller.

Definition h_twins : heap := mk_queue 1 [e_twin1; e_twin2] (Ptr 4 0) caller.

(** A queue of two elements whose [tail] is a released block. *)
Definition h_two_stale : heap := mk_queue 1 [e_banana; e_apple] (Ptr 8 0) caller.

(** The heap in the middle of a sort of three elements: the halves as the
    queue records 8 and 9, the queue record 1 emptied. *)
Definition h_halves : heap :=
  <[1%positive := queue_t Null Null 3]>
    (mk_queue 8 [e_banana; e_cherry] (Ptr 6 0)
       (mk_queue 9 [e_apple] (Ptr 4 0) caller)).

(** A caller with banana, apple and cherry in the blocks 102 to 104, and
    the empty queue at block 1 in its heap. *)
Definition fruit : heap :=
  {[ 102%positive := cstring s_banana;
     103%positive := cstring s_apple;
     104%positive := cstring s_cherry ]}.

Definition h_fruit : heap := mk_queue 1 [] Null fruit.

Definition fruit_strings : list (ptr * list Z) :=
  [(Ptr 102 0, s_banana); (Ptr 103 0, s_apple); (Ptr 104 0, s_cherry)].

(** Decide a closed proposition by evaluation. *)
Ltac by_compute :=
  first [ apply (bool_decide_unpack _); vm_compute; exact I
        | vm_compute; reflexivity
        | vm_compute; done ].

Lemma h_empty_ok : queue_ok h_empty 1 [].
Proof. by_compute. Qed.

Lemma h_hello_ok : queue_ok h_hello 1 [e_hello].
Proof. by_compute. Qed.

Lemma h_two_ok : queue_ok h_two 1 [e_banana; e_apple].
Proof. by_compute. Qed.

Lemma h_three_ok : queue_ok h_three 1 [e_banana; e_apple; e_cherry].
Proof. by_compute. Qed.

Lemma h_twins_ok : queue_ok h_twins 1 [e_twin1; e_twin2].
Proof. by_compute. Qed.

Lemma h_two_stale_rep : queue_rep h_two_stale 1 [e_banana; e_apple] (Ptr 8 0).
Proof. by_compute. Qed.

Lemma h_stale_rep : queue_rep h_stale 1 [] (Ptr 2 0).
Proof. by_compute. Qed.

Lemma caller_string h :
  h !! 100%positive = Some (cstring s_hello) ->
  cstr_at h (Ptr 100 0) s_hello.
Proof. intros Hh. split; [done|]. eexists. split; [done|]. by_compute. Qed.
