(* ===== verification/Exec.v ===== *)
(** * Symbolic execution of the translated code

    The tactics that run a [wp] goal forward through the field accesses of
    the two records, and the solvers for the side conditions they leave:
    lookups in a heap built from [insert]s and [delete]s, and framing. *)

From Stdlib Require Import ZArith Lia.
From stdpp Require Import gmap list.
From S2P Require Import Prelude Memory Structs CString ListSeg.

(** Drop the hypotheses that do not mention [x]. *)
Ltac keep_about x :=
  repeat match goal with
    | H : ?T |- _ =>
        lazymatch T with
        | context [x] => fail
        | _ => clear H
        end
    end.

(** The lists of blocks of the goal, or of [H], as concatenations of the
    node blocks and the string blocks of lists of elements. *)
Tactic Notation "locs_norm" :=
  autorewrite with locs; rewrite ?locs_perm.
Tactic Notation "locs_norm" "in" hyp(H) :=
  autorewrite with locs in H; rewrite ?locs_perm in H.

(** Distinctness of blocks from one fact [NoDup l]: a block is not in a
    list, two blocks differ or two lists are disjoint when, together, they
    are part of [l]. *)
Ltac nodup_solver :=
  match goal with
  | Hnd : NoDup _ |- _ =>
      let Hn := fresh "Hn" in
      pose proof Hnd as Hn; locs_norm in Hn;
      first [ apply (NoDup_sub_notin _ _ _ Hn)
            | apply (NoDup_sub_ne _ _ _ Hn)
            | apply (NoDup_sub_disjoint _ _ _ Hn)
            | apply (NoDup_sub _ _ Hn) ];
      locs_norm; solve_submseteq
  end.

(** Two blocks differ. *)
Ltac solve_ne := first [done | congruence | set_solver | nodup_solver].

(** A block is not in a list of blocks: [set_solver] on the facts about
    that block, or [nodup_solver]. *)
Ltac solve_notin :=
  lazymatch goal with
  | |- ?x ∉ _ => first [done | keep_about x; set_solver | nodup_solver]
  | |- ?x <> _ => first [done | congruence | keep_about x; set_solver | nodup_solver]
  end.

(** A lookup in a heap that is a stack of updates over a known heap. *)
Ltac solve_lookup :=
  repeat first
    [ rewrite lookup_insert_eq
    | rewrite lookup_insert_ne by solve_ne
    | rewrite lookup_delete_ne by solve_ne ];
  first [reflexivity | eassumption].

(** Membership of a block in a list of blocks, or its negation. *)
Ltac solve_elem := first [done | solve [eauto 8 with cq] | solve_notin | set_solver].

(** A stack of updates changes nothing outside (or on) a set of blocks. *)
Ltac solve_frame :=
  repeat lazymatch goal with
    | |- same_outside _ _ (<[_ := _]> _) => apply same_outside_insert; [solve_elem|]
    | |- same_outside _ _ (delete _ _) => apply same_outside_delete; [solve_elem|]
    | |- agree_on _ _ (<[_ := _]> _) => apply agree_on_insert; [solve_elem|]
    | |- agree_on _ _ (delete _ _) => apply agree_on_delete; [solve_elem|]
    end;
  first [apply same_outside_refl | apply agree_on_refl | assumption].

(** One access to a field of a node or of a queue record, or one [free]. *)
Ltac wp_field :=
  first
    [ eapply wp_load_head; [solve_lookup|]
    | eapply wp_load_tail; [solve_lookup|]
    | eapply wp_load_size; [solve_lookup|]
    | eapply wp_load_value; [solve_lookup|]
    | eapply wp_load_next; [solve_lookup|]
    | eapply wp_store_head; [solve_lookup|]
    | eapply wp_store_tail; [solve_lookup|]
    | eapply wp_store_size; [solve_lookup|]
    | eapply wp_store_value; [solve_lookup|]
    | eapply wp_store_next; [solve_lookup|]
    | eapply wp_free; [solve_lookup|] ];
  rewrite ?insert_insert_eq.

(** One statement: the first computation of a sequence, or the final
    [ret]. *)
Ltac wp_step :=
  lazymatch goal with
  | |- wpo (bind _ _) _ _ => apply wp_bind; try wp_field
  | |- wp (ret _) _ _ => apply wp_ret
  | |- wpo (ret _) _ _ => apply wpo_ret
  | |- wp _ _ _ => wp_field
  end.

Ltac wp_steps := repeat (wp_step; cbn [is_null]).

(** The same, keeping one write per block in the heap where writes to two
    blocks alternate. *)
Ltac wp_run := repeat (wp_step; cbn [is_null]; rewrite ?insert_insert_skip).

(** The same up to the last statement, with the postcondition out of the
    way of the rewriting. *)
Ltac wp_run_to_end :=
  lazymatch goal with
  | |- wp _ ?Q _ =>
      let Post := fresh "Post" in
      set (Post := Q); wp_run; subst Post; cbn beta
  end.

(** The range of [int]. *)
Ltac int_lia := unfold INT_MIN, INT_MAX in *; simpl in *; lia.

(** ** Integer side conditions of the translated code *)

Local Open Scope Z_scope.

Lemma alloc_size_string (n : nat) :
  Z.of_nat n < INT_MAX -> Z.to_nat (to_size_t (1 * (Z.of_nat n + 1))) = S n.
Proof.
  unfold INT_MAX. intros. rewrite to_size_t_small; [lia|]. unfold SIZE_MAX. lia.
Qed.

Lemma alloc_size_string' (n : nat) :
  Z.of_nat n < INT_MAX -> Z.to_nat (to_size_t ((Z.of_nat n + 1) * 1)) = S n.
Proof. intros. rewrite Z.mul_comm. by apply alloc_size_string. Qed.

Lemma len_roundtrip (n : nat) :
  Z.of_nat n < INT_MAX -> to_size_t (to_int (Z.of_nat n)) = Z.of_nat n.
Proof.
  unfold INT_MAX. intros. rewrite to_int_small by (unfold INT_MIN, INT_MAX; lia).
  apply to_size_t_small. unfold SIZE_MAX. lia.
Qed.

Lemma to_int_len (n : nat) : Z.of_nat n < INT_MAX -> to_int (Z.of_nat n) = Z.of_nat n.
Proof. unfold INT_MAX. intros. apply to_int_small. unfold INT_MIN, INT_MAX. lia. Qed.
