(* ===== verification/QueueOps.v ===== *)
(** * The queue operations of [queue.c]

    [q_new], [q_free], [q_insert_head], [q_insert_tail], [q_remove_head]
    and [q_size], statement by statement. *)

From Stdlib Require Import ZArith Lia.
From stdpp Require Import gmap list.
From S2P Require Import Prelude Memory Structs CString ListSeg Fixtures Exec.

Local Open Scope Z_scope.
Local Open Scope M_scope.

(** [sizeof(char)]. *)
Definition sizeof_char : Z := 1.

Section Ops.
Context `{Allocator}.

(** [q_new]: an empty queue, or [NULL] when there is no storage. *)
Definition q_new : M heap ptr :=
  q <- malloc sizeof_queue_t ;;
  if is_null q then ret Null
  else
    store (head_of q) (VPtr Null) ;;;
    store (tail_of q) (VPtr Null) ;;;
    store (size_of q) (VInt 0) ;;;
    ret q.

(** The loop of [q_free]: [while (q->head) { ... }]. *)
Fixpoint q_free_loop (fuel : nat) (q : ptr) : M heap unit :=
  hd <- load_ptr (head_of q) ;;
  if is_null hd then ret tt
  else
    match fuel with
    | O => throw OutOfFuel
    | S fuel' =>
        ptr <- load_ptr (head_of q) ;;
        hd' <- load_ptr (head_of q) ;;
        nxt <- load_ptr (next_of hd') ;;
        store (head_of q) (VPtr nxt) ;;;
        v <- load_ptr (value_of ptr) ;;
        free v ;;;
        free ptr ;;;
        q_free_loop fuel' q
    end.

(** [q_free]: every node, its string, then the queue record. *)
Definition q_free (q : ptr) : M heap unit :=
  if is_null q then ret tt
  else
    h <- get_state ;;
    q_free_loop (fuel_of h) q ;;;
    free q.

(** [q_insert_head]. *)
Definition q_insert_head (q s : ptr) : M heap bool :=
  if is_null q then ret false
  else
    newh <- malloc sizeof_list_ele_t ;;
    if is_null newh then ret false
    else
      n <- strlen s ;;
      in_ <- malloc (to_size_t (sizeof_char * (n + 1))) ;;
      if is_null in_ then free newh ;;; ret false
      else
        n' <- strlen s ;;
        let len := to_int n' in
        strncpy in_ s (to_size_t len) ;;;
        store (ptr_add in_ len) (VInt 0) ;;;
        store (value_of newh) (VPtr in_) ;;;
        hd <- load_ptr (head_of q) ;;
        store (next_of newh) (VPtr hd) ;;;
        store (head_of q) (VPtr newh) ;;;
        tl <- load_ptr (tail_of q) ;;
        (if is_null tl
         then hd' <- load_ptr (head_of q) ;; store (tail_of q) (VPtr hd')
         else ret tt) ;;;
        sz <- load_int (size_of q) ;;
        sz' <- int_arith (sz + 1) ;;
        store (size_of q) (VInt sz') ;;;
        ret true.

(** [q_insert_tail]. *)
Definition q_insert_tail (q s : ptr) : M heap bool :=
  if is_null q then ret false
  else
    newt <- malloc sizeof_list_ele_t ;;
    if is_null newt then ret false
    else
      n <- strlen s ;;
      in_ <- malloc (to_size_t ((n + 1) * sizeof_char)) ;;
      if is_null in_ then free newt ;;; ret false
      else
        n' <- strlen s ;;
        let len := to_int n' in
        strncpy in_ s (to_size_t len) ;;;
        store (ptr_add in_ len) (VInt 0) ;;;
        store (value_of newt) (VPtr in_) ;;;
        store (next_of newt) (VPtr Null) ;;;
        tl <- load_ptr (tail_of q) ;;
        if is_null tl then
          store (tail_of q) (VPtr newt) ;;;
          store (head_of q) (VPtr newt) ;;;
          sz <- load_int (size_of q) ;;
          sz' <- int_arith (sz + 1) ;;
          store (size_of q) (VInt sz') ;;;
          ret true
        else
          tl' <- load_ptr (tail_of q) ;;
          store (next_of tl') (VPtr newt) ;;;
          store (tail_of q) (VPtr newt) ;;;
          sz <- load_int (size_of q) ;;
          sz' <- int_arith (sz + 1) ;;
          store (size_of q) (VInt sz') ;;;
          ret true.

(** [q_remove_head]. *)
Definition q_remove_head (q sp : ptr) (bufsize : Z) : M heap bool :=
  if is_null q then ret false
  else
    hd <- load_ptr (head_of q) ;;
    if is_null hd then ret false
    else
      (if is_null sp then ret tt
       else
         hd1 <- load_ptr (head_of q) ;;
         v <- load_ptr (value_of hd1) ;;
         strncpy sp v bufsize ;;;
         store (ptr_add sp (to_size_t (bufsize - 1))) (VInt 0)) ;;;
      ptr <- load_ptr (head_of q) ;;
      hd2 <- load_ptr (head_of q) ;;
      nxt <- load_ptr (next_of hd2) ;;
      store (head_of q) (VPtr nxt) ;;;
      sz <- load_int (size_of q) ;;
      sz' <- int_arith (sz - 1) ;;
      store (size_of q) (VInt sz') ;;;
      v <- load_ptr (value_of ptr) ;;
      free v ;;;
      free ptr ;;;
      ret true.

(** [q_size]. *)
Definition q_size (q : ptr) : M heap Z :=
  if is_null q then ret 0
  else load_int (size_of q).

(** What the two [malloc] calls of an insertion answer in the heap [h] for
    a string of [n] characters: the node block and the string block, or
    [None] when either call fails. *)
Definition new_elem (h : heap) (n : nat) : option (loc * loc) :=
  match alloc_block h 2 with
  | None => None
  | Some bn =>
      match alloc_block (<[bn := [VUndef; VUndef]]> h) (S n) with
      | None => None
      | Some bs => Some (bn, bs)
      end
  end.

(** ** [q_new] and [q_size] *)

(** [q_new] returns [NULL] and changes nothing when [malloc] fails, and
    otherwise a new block that is a well-formed empty queue. *)
Lemma q_new_spec h :
  wp q_new (fun q h' =>
    match alloc_block h 3 with
    | None => q = Null /\ h' = h
    | Some b => q = Ptr b 0 /\ h !! b = None /\
                h' = <[b := queue_t Null Null 0]> h /\ queue_ok h' b []
    end) h.
Proof.
  unfold q_new. apply wp_bind, wp_malloc; change (Z.to_nat sizeof_queue_t) with 3%nat.
  - intros ->. by apply wp_ret.
  - intros b Hb ->. cbn [is_null replicate]. wp_steps.
    split_and!; [done..|]. split; [by rewrite lookup_insert_eq|done|constructor|].
    apply NoDup_singleton.
Qed.

Lemma q_size_null h : q_size Null h = Ok (0, h).
Proof. done. Qed.

(** [q_size] reads the counter, which is the number of elements. *)
Lemma q_size_rep h q es tl :
  queue_rep h q es tl -> q_size (Ptr q 0) h = Ok (Z.of_nat (length es), h).
Proof.
  intros [Hq _ _ _]. unfold q_size. cbn [is_null].
  change (size_of (Ptr q 0)) with (field 2 (Ptr q 0)). rewrite field_Ptr.
  by eapply load_int_ok.
Qed.

(** ** Insertion *)

Lemma new_elem_fresh h n bn bs :
  new_elem h n = Some (bn, bs) -> h !! bn = None /\ h !! bs = None /\ bn <> bs.
Proof.
  unfold new_elem. destruct (alloc_block h 2) as [b|] eqn:E; [|done].
  destruct (alloc_block _ (S n)) as [b'|] eqn:E'; [|done].
  intros [= -> ->]. apply alloc_block_fresh in E, E'.
  split; [done|]. destruct (decide (bn = bs)) as [->|Hne].
  - by rewrite lookup_insert_eq in E'.
  - by rewrite lookup_insert_ne in E'.
Qed.

(** The common start of the two insertions: allocate the node, allocate
    and fill the copy of the string, link the copy to the node; release the
    node and give up when the second allocation fails. *)
Lemma wp_new_elem h s str (sz : Z -> Z) (k : ptr -> ptr -> M heap bool)
    (R : result (bool * heap) -> Prop) :
  cstr_at h s str -> Z.of_nat (length str) < INT_MAX ->
  Z.to_nat (sz (Z.of_nat (length str))) = S (length str) ->
  match new_elem h (length str) with
  | None => R (Ok (false, h))
  | Some (bn, bs) =>
      wpo (k (Ptr bn 0) (Ptr bs 0)) R
          (<[bn := [VPtr (Ptr bs 0); VUndef]]> (<[bs := cstring str]> h))
  end ->
  wpo (newh <- malloc sizeof_list_ele_t ;;
      if is_null newh then ret false
      else
        n <- strlen s ;;
        in_ <- malloc (sz n) ;;
        if is_null in_ then free newh ;;; ret false
        else
          n' <- strlen s ;;
          let len := to_int n' in
          strncpy in_ s (to_size_t len) ;;;
          store (ptr_add in_ len) (VInt 0) ;;;
          store (value_of newh) (VPtr in_) ;;;
          k newh in_) R h.
Proof.
  intros Hs Hstr Hsz Hk. unfold new_elem in Hk.
  apply wp_bind, wp_malloc; change (Z.to_nat sizeof_list_ele_t) with 2%nat; simpl replicate.
  { intros E. rewrite E in Hk. by apply wp_ret. }
  intros bn Hbn E. rewrite E in Hk. cbn [is_null].
  apply wp_bind. eapply wp_strlen; [eauto using cstr_at_insert_fresh|].
  apply wp_bind, wp_malloc; rewrite Hsz.
  { intros E'. rewrite E' in Hk. cbn [is_null].
    apply wp_bind. eapply wp_free; [by rewrite lookup_insert_eq|].
    apply wp_ret. by rewrite delete_insert_fresh. }
  intros bs Hbs E'. rewrite E' in Hk. cbn [is_null].
  apply wp_bind. eapply wp_strlen; [eauto using cstr_at_insert_fresh|].
  cbv zeta. rewrite len_roundtrip, to_int_len by done.
  apply wp_copy_string; [eauto using cstr_at_insert_fresh|by rewrite lookup_insert_eq|].
  assert (bn <> bs) by (intros ->; by rewrite lookup_insert_eq in Hbs).
  rewrite insert_insert_eq. wp_step.
  by rewrite (insert_insert_ne _ bs bn), insert_insert_eq by done.
Qed.

(** The heap facts every insertion proof starts from. *)
Lemma insert_setup h q es tl bn bs :
  queue_rep h q es tl -> h !! bn = None -> h !! bs = None ->
  q <> bn /\ q <> bs /\ (q ∉ locs es) /\ (bn ∉ locs es) /\ (bs ∉ locs es) /\ NoDup (locs es).
Proof.
  intros Hrep Hbn Hbs.
  pose proof (queue_rep_fresh _ _ _ _ _ Hrep Hbn).
  pose proof (queue_rep_fresh _ _ _ _ _ Hrep Hbs).
  destruct Hrep as [_ _ _ [? ?]%NoDup_cons]. set_solver.
Qed.

(** The size counter after an insertion. *)
Lemma size_succ (n : nat) : Z.of_nat n + 1 = Z.of_nat (S n).
Proof. lia. Qed.

(** [q_insert_head] on a represented queue: it returns [false] and leaves
    the heap as it was when an allocation fails; otherwise the new element
    is first, [tail] is set only if it was [NULL], and nothing outside the
    queue record and the two new blocks changes. *)
Lemma q_insert_head_spec h q es tl s str :
  queue_rep h q es tl -> cstr_at h s str ->
  Z.of_nat (length es) < INT_MAX -> Z.of_nat (length str) < INT_MAX ->
  wp (q_insert_head (Ptr q 0) s) (fun r h' =>
    match new_elem h (length str) with
    | None => r = false /\ h' = h
    | Some (bn, bs) =>
        r = true /\
        queue_rep h' q (Elem bn bs str :: es) (if is_null tl then Ptr bn 0 else tl) /\
        same_outside [q; bn; bs] h h'
    end) h.
Proof.
  intros Hrep Hs Hlen Hstr. unfold q_insert_head. cbn [is_null].
  apply wp_new_elem with (str := str) (sz := fun n => to_size_t (sizeof_char * (n + 1)));
    [done..|by apply alloc_size_string|].
  destruct (new_elem h (length str)) as [[bn bs]|] eqn:E; [|done].
  apply new_elem_fresh in E as (Hbn & Hbs & Hne).
  destruct (insert_setup _ _ _ _ _ _ Hrep Hbn Hbs) as (? & ? & ? & ? & ? & ?).
  destruct Hrep as [Hq Hn Hss _]. wp_steps.
  apply wp_mono with (Q := fun _ h' => h' =
    <[q := queue_t (Ptr bn 0) (if is_null tl then Ptr bn 0 else tl) (Z.of_nat (length es))]>
      (<[bn := list_ele_t (Ptr bs 0) (hd_ptr es Null)]> (<[bs := cstring str]> h))).
  { destruct tl; cbn [is_null]; wp_steps; done. }
  intros _ h' ->. wp_steps.
  apply wp_int_arith; [unfold INT_MIN, INT_MAX in *; lia|].
  wp_steps. rewrite size_succ. split_and!; [done| |solve_frame].
  split; simpl.
  - by rewrite lookup_insert_eq.
  - split; [solve_lookup|]. eapply nodes_ok_agree; [|done]. solve_frame.
  - constructor; [|eapply strs_ok_agree; [|done]; solve_frame].
    split; [simpl; solve_lookup|by eapply cstr_at_nonzero].
  - rewrite !NoDup_cons. set_solver.
Qed.

(** [q_insert_tail] on a well-formed queue: as [q_insert_head], with the
    new element last. *)
Lemma q_insert_tail_spec h q es s str :
  queue_ok h q es -> cstr_at h s str ->
  Z.of_nat (length es) < INT_MAX -> Z.of_nat (length str) < INT_MAX ->
  wp (q_insert_tail (Ptr q 0) s) (fun r h' =>
    match new_elem h (length str) with
    | None => r = false /\ h' = h
    | Some (bn, bs) =>
        r = true /\
        queue_ok h' q (es ++ [Elem bn bs str]) /\
        same_outside (q :: bn :: bs :: locs es) h h'
    end) h.
Proof.
  intros Hrep Hs Hlen Hstr. unfold q_insert_tail. cbn [is_null].
  apply wp_new_elem with (str := str) (sz := fun n => to_size_t ((n + 1) * sizeof_char));
    [done..|by apply alloc_size_string'|].
  destruct (new_elem h (length str)) as [[bn bs]|] eqn:E; [|done].
  apply new_elem_fresh in E as (Hbn & Hbs & Hne).
  destruct (insert_setup _ _ _ _ _ _ Hrep Hbn Hbs) as (? & ? & ? & ? & ? & Hnd).
  pose proof (cstr_at_nonzero _ _ _ Hs).
  destruct Hrep as [Hq Hn Hss _]. wp_steps.
  destruct es as [|l es _] using rev_ind.
  - cbn [last_ptr list.last is_null]. wp_steps.
    apply wp_int_arith; [done|]. wp_steps.
    split_and!; [done| |solve_frame].
    split; simpl; [by rewrite lookup_insert_eq|split; [solve_lookup|done]| |].
    + constructor; [|constructor]. split; [simpl; solve_lookup|done].
    + rewrite !NoDup_cons. set_solver.
  - rewrite last_ptr_snoc in *. cbn [is_null].
    apply nodes_ok_snoc in Hn as [Hn Hl].
    pose proof Hnd as (? & ? & ? & ?)%NoDup_locs_snoc.
    assert (e_node l <> q /\ e_node l <> bn /\ e_node l <> bs) as (? & ? & ?) by set_solver.
    wp_steps.
    apply wp_int_arith; [unfold INT_MIN, INT_MAX in *; lia|]. wp_steps.
    rewrite size_succ. split_and!; [done| |solve_frame].
    split.
    + rewrite lookup_insert_eq, last_ptr_snoc, !hd_ptr_app, !length_app. simpl.
      by rewrite !Nat.add_1_r.
    + rewrite !nodes_ok_snoc. split_and!; [|solve_lookup..].
      eapply nodes_ok_agree; [|done]. solve_frame.
    + apply strs_ok_app. split; [eapply strs_ok_agree; [|done]; solve_frame|].
      constructor; [|constructor]. split; [simpl; solve_lookup|done].
    + rewrite NoDup_cons, NoDup_locs_snoc. split_and!; [solve_elem|done..].
Qed.

(** ** Removal *)

Lemma q_remove_head_null h sp n : q_remove_head Null sp n h = Ok (false, h).
Proof. done. Qed.

(** Removal from an empty queue fails and changes nothing. *)
Lemma q_remove_head_empty h q tl sp n :
  queue_rep h q [] tl -> q_remove_head (Ptr q 0) sp n h = Ok (false, h).
Proof.
  intros [Hq _ _ _]. unfold q_remove_head. cbn [is_null].
  apply wp_eq. by wp_steps.
Qed.

(** The part of [q_remove_head] after the copy: unlink the first node,
    decrement the counter, free the string and the node.  [tail] is not
    touched. *)
Lemma wp_unlink_head h q e es tl :
  queue_rep h q (e :: es) tl -> Z.of_nat (length es) < INT_MAX ->
  wp (ptr <- load_ptr (head_of (Ptr q 0)) ;;
      hd2 <- load_ptr (head_of (Ptr q 0)) ;;
      nxt <- load_ptr (next_of hd2) ;;
      store (head_of (Ptr q 0)) (VPtr nxt) ;;;
      sz <- load_int (size_of (Ptr q 0)) ;;
      sz' <- int_arith (sz - 1) ;;
      store (size_of (Ptr q 0)) (VInt sz') ;;;
      v <- load_ptr (value_of ptr) ;;
      free v ;;;
      free ptr ;;;
      ret true)
    (fun r h' =>
       r = true /\ queue_rep h' q es tl /\
       h' = delete (e_node e) (delete (e_str e)
              (<[q := queue_t (hd_ptr es Null) tl (Z.of_nat (length es))]> h))) h.
Proof.
  intros [Hq [Hn Hns] [[Hs _] Hss]%Forall_cons Hnd] Hlen.
  apply NoDup_cons in Hnd as [Hq' Hnd]. simpl in Hq', Hnd.
  apply NoDup_cons in Hnd as [? [? ?]%NoDup_cons].
  assert (q <> e_node e /\ q <> e_str e /\ e_node e <> e_str e) as (? & ? & ?) by set_solver.
  simpl in Hq. wp_steps.
  apply wp_int_arith; [unfold INT_MIN, INT_MAX in *; lia|]. wp_steps.
  replace (Z.of_nat (S (length es)) - 1) with (Z.of_nat (length es)) by lia.
  split_and!; [done| |done]. split.
  - solve_lookup.
  - eapply nodes_ok_agree; [|done]. solve_frame.
  - eapply strs_ok_agree; [|done]. solve_frame.
  - rewrite NoDup_cons. split; [solve_elem|done].
Qed.

(** [q_remove_head] without a buffer. *)
Lemma q_remove_head_spec h q e es tl n :
  queue_rep h q (e :: es) tl -> Z.of_nat (length es) < INT_MAX ->
  wp (q_remove_head (Ptr q 0) Null n) (fun r h' =>
    r = true /\ queue_rep h' q es tl /\
    h' = delete (e_node e) (delete (e_str e)
           (<[q := queue_t (hd_ptr es Null) tl (Z.of_nat (length es))]> h))) h.
Proof.
  intros Hrep Hlen. unfold q_remove_head. cbn [is_null].
  pose proof (rep_queue _ _ _ _ Hrep) as Hq. simpl in Hq.
  wp_step. cbn [is_null]. apply wp_bind, wp_ret. by apply wp_unlink_head.
Qed.

(** [q_remove_head] with a buffer of [length mid >= 1] cells in a block of
    the caller: the buffer receives the removed string, truncated to fit
    and always terminated. *)
Lemma q_remove_head_buf_spec h q e es tl bb pre mid post :
  queue_rep h q (e :: es) tl -> Z.of_nat (length es) < INT_MAX ->
  h !! bb = Some (pre ++ mid ++ post) -> bb ∉ q :: locs (e :: es) ->
  (1 <= length mid)%nat -> Z.of_nat (length mid) <= SIZE_MAX ->
  wp (q_remove_head (Ptr q 0) (Ptr bb (Z.of_nat (length pre))) (Z.of_nat (length mid)))
    (fun r h' =>
       r = true /\ queue_rep h' q es tl /\
       h' = delete (e_node e) (delete (e_str e)
              (<[q := queue_t (hd_ptr es Null) tl (Z.of_nat (length es))]>
                 (<[bb := pre ++ copy_out_cells (e_val e) (length mid) ++ post]> h)))) h.
Proof.
  intros Hrep Hlen Hbb Hnotin Hn Hmax. unfold q_remove_head. cbn [is_null].
  pose proof (rep_queue _ _ _ _ Hrep) as Hq. simpl in Hq.
  pose proof (rep_nodes _ _ _ _ Hrep) as [Hn1 _].
  pose proof (rep_strs _ _ _ _ Hrep) as [Hs1 _]%Forall_cons.
  wp_step. cbn [is_null]. apply wp_bind. do 2 wp_step.
  apply (wp_copy_out _ _ (e_val e) bb pre mid post);
    [by apply str_ok_cstr_at|done|intros z [= Hb _]; set_solver|done..|].
  apply wp_unlink_head; [|done].
  destruct Hrep as [? ? ? ?]. split; [solve_lookup| | |done].
  - eapply nodes_ok_agree; [|done]. solve_frame.
  - eapply strs_ok_agree; [|done]. solve_frame.
Qed.

(** ** Destruction *)

(** The loop of [q_free] releases the two blocks of every element and
    leaves [head] at [NULL]. *)
Lemma q_free_loop_spec es fuel h q t sz :
  (length es <= fuel)%nat ->
  h !! q = Some [VPtr (hd_ptr es Null); t; sz] ->
  nodes_ok h es Null -> strs_ok h es -> NoDup (q :: locs es) ->
  wp (q_free_loop fuel (Ptr q 0))
     (fun _ h' => h' = <[q := [VPtr Null; t; sz]]> (delete_all (locs es) h)) h.
Proof.
  revert fuel h. induction es as [|e es IH]; intros fuel h Hfuel Hq Hn Hs Hnd.
  - destruct fuel; simpl; wp_steps; by rewrite insert_id.
  - destruct fuel as [|fuel]; [simpl in Hfuel; lia|].
    destruct Hn as [Hn Hns]. apply Forall_cons in Hs as [[Hs _] Hss].
    apply NoDup_cons in Hnd as [Hq' Hnd]. simpl in Hq', Hnd.
    apply NoDup_cons in Hnd as [? [? ?]%NoDup_cons].
    assert (q <> e_node e /\ q <> e_str e /\ e_node e <> e_str e) as (? & ? & ?) by set_solver.
    simpl in Hq. cbn [q_free_loop]. wp_steps.
    eapply wp_mono.
    { apply (IH fuel); [simpl in Hfuel; lia|solve_lookup|..].
      - eapply nodes_ok_agree; [|done]. solve_frame.
      - eapply strs_ok_agree; [|done]. solve_frame.
      - rewrite NoDup_cons. split; [solve_elem|done]. }
    intros _ h' ->. cbn [locs delete_all foldr]. fold (delete_all (locs es)).
    rewrite !delete_all_delete, delete_all_insert by solve_elem.
    by rewrite !(delete_insert_ne _ _ q), insert_insert_eq by done.
Qed.

(** [q_free] releases the queue record and every block of every element,
    once each, and nothing else. *)
Lemma q_free_spec h q es tl :
  queue_rep h q es tl ->
  q_free (Ptr q 0) h = Ok (tt, delete q (delete_all (locs es) h)).
Proof.
  intros [Hq Hn Hs Hnd]. unfold q_free. cbn [is_null].
  apply wp_eq. apply wp_bind, wp_get. apply wp_bind.
  eapply wp_mono.
  { eapply q_free_loop_spec; [|done..].
    apply NoDup_cons in Hnd as [_ Hnd].
    pose proof (fuel_of_enough _ _ _ Hn Hs Hnd). lia. }
  intros _ h' ->. wp_steps. by rewrite delete_insert_eq.
Qed.

Lemma q_free_null h : q_free Null h = Ok (tt, h).
Proof. done. Qed.

(** ** A [head] that is a released block

    The state in which [q_reverse] leaves an emptied queue: [q_remove_head]
    and [q_free] read the released node. *)

Lemma q_remove_head_dangling h q tb o tl sz sp n :
  h !! q = Some (queue_t (Ptr tb o) tl sz) -> h !! tb = None ->
  q_remove_head (Ptr q 0) sp n h = Fault DanglingAccess.
Proof.
  intros Hq Htb. unfold q_remove_head. cbn [is_null]. apply wpo_eq.
  wp_step. cbn [is_null]. destruct sp as [|bs os]; cbn [is_null].
  - apply wp_bind, wp_ret. do 2 wp_step.
    eapply wpo_bind_fault; [|done].
    unfold next_of, value_of, field. by apply load_ptr_dangling.
  - eapply wpo_bind_fault; [|done]. apply wpo_eq. wp_step.
    eapply wpo_bind_fault; [|done].
    unfold next_of, value_of, field. by apply load_ptr_dangling.
Qed.

Lemma q_free_dangling h q tb o tl sz :
  h !! q = Some (queue_t (Ptr tb o) tl sz) -> h !! tb = None ->
  q_free (Ptr q 0) h = Fault DanglingAccess.
Proof.
  intros Hq Htb. unfold q_free, fuel_of. cbn [is_null]. apply wpo_eq.
  apply wp_bind. apply wp_get. eapply wpo_bind_fault; [|done].
  apply wpo_eq. cbn [q_free_loop]. wp_step. cbn [is_null]. do 2 wp_step.
  eapply wpo_bind_fault; [|done].
  unfold next_of, value_of, field. by apply load_ptr_dangling.
Qed.

(** ** The contract of each operation, as runs

    The statements above are weakest preconditions, the form in which the
    proofs of one operation use those of another.  The theorems below say
    the same of the run of each operation from a heap. *)

(** C18: [q_new] returns [NULL] and leaves the heap as it was when [malloc]
    has no block, and otherwise returns a block that was not allocated,
    initialised to the empty queue: [head] and [tail] are [NULL], [size]
    is 0. *)
Theorem q_new_ok h :
  match alloc_block h 3 with
  | None => q_new h = Ok (Null, h)
  | Some b =>
      q_new h = Ok (Ptr b 0, <[b := queue_t Null Null 0]> h) /\
      h !! b = None /\ queue_ok (<[b := queue_t Null Null 0]> h) b []
  end.
Proof.
  pose proof (q_new_spec h) as Hwp. apply wp_run in Hwp as (q & h' & -> & Hpost).
  destruct (alloc_block h 3) as [b|]; destruct_and?; by subst.
Qed.

(** C4: [q_insert_tail] on a well-formed queue, when both allocations
    succeed, returns [true]; the queue is again well formed, its elements
    are the old ones followed by the new one, whose string is a copy of
    the argument in a block of its own, [tail] is the new node, [size] is
    one more; no block outside the queue and the two new ones changes. *)
Theorem q_insert_tail_ok h q es s str bn bs :
  queue_ok h q es -> cstr_at h s str ->
  Z.of_nat (length es) < INT_MAX -> Z.of_nat (length str) < INT_MAX ->
  new_elem h (length str) = Some (bn, bs) ->
  exists h', q_insert_tail (Ptr q 0) s h = Ok (true, h') /\
    queue_ok h' q (es ++ [Elem bn bs str]) /\
    same_outside (q :: bn :: bs :: locs es) h h'.
Proof.
  intros Hok Hs Hlen Hstr Hnew.
  pose proof (q_insert_tail_spec h q es s str Hok Hs Hlen Hstr) as Hwp.
  apply wp_run in Hwp as (r & h' & Hrun & Hpost). rewrite Hnew in Hpost.
  destruct Hpost as (-> & ? & ?). eauto.
Qed.

(** C5: [q_insert_head] on a well-formed queue, when both allocations
    succeed, returns [true]; the new element is first, [tail] is set when
    the queue was empty and kept otherwise, [size] is one more; no block
    outside the queue record and the two new blocks changes. *)
Theorem q_insert_head_ok h q es s str bn bs :
  queue_ok h q es -> cstr_at h s str ->
  Z.of_nat (length es) < INT_MAX -> Z.of_nat (length str) < INT_MAX ->
  new_elem h (length str) = Some (bn, bs) ->
  exists h', q_insert_head (Ptr q 0) s h = Ok (true, h') /\
    queue_ok h' q (Elem bn bs str :: es) /\
    same_outside [q; bn; bs] h h'.
Proof.
  intros Hok Hs Hlen Hstr Hnew.
  pose proof (q_insert_head_spec h q es _ s str Hok Hs Hlen Hstr) as Hwp.
  apply wp_run in Hwp as (r & h' & Hrun & Hpost). rewrite Hnew in Hpost.
  destruct Hpost as (-> & Hrep & ?). exists h'. split_and!; [done| |done].
  unfold queue_ok. by rewrite last_ptr_push.
Qed.

(** C19: when either allocation of an insertion fails, [q_insert_head] and
    [q_insert_tail] return [false] and the heap is exactly the one before
    the call: the node allocated first is released again. *)
Theorem q_insert_no_memory h q s str :
  cstr_at h s str -> Z.of_nat (length str) < INT_MAX ->
  new_elem h (length str) = None ->
  q_insert_head q s h = Ok (false, h) /\ q_insert_tail q s h = Ok (false, h).
Proof.
  intros Hs Hstr Hnew. unfold q_insert_head, q_insert_tail.
  destruct q as [|q o]; [done|]. cbn [is_null]. split; apply wpo_eq.
  - apply wp_new_elem with (str := str)
      (sz := fun n => to_size_t (sizeof_char * (n + 1)));
      [done|done|apply alloc_size_string; done|]. by rewrite Hnew.
  - apply wp_new_elem with (str := str)
      (sz := fun n => to_size_t ((n + 1) * sizeof_char));
      [done|done|apply alloc_size_string'; done|]. by rewrite Hnew.
Qed.

(** C6: [q_remove_head] on a well-formed queue of two elements or more
    returns [true]; the queue is again well formed with the first element
    gone, the node and the string of that element are released, and the
    rest of the heap but the queue record is as before. *)
Theorem q_remove_head_ok h q e e' es n :
  queue_ok h q (e :: e' :: es) -> Z.of_nat (length (e' :: es)) < INT_MAX ->
  exists h', q_remove_head (Ptr q 0) Null n h = Ok (true, h') /\
    queue_ok h' q (e' :: es) /\
    h' !! e_node e = None /\ h' !! e_str e = None /\
    same_outside [q; e_node e; e_str e] h h'.
Proof.
  intros Hok Hlen.
  pose proof (q_remove_head_spec h q e (e' :: es) _ n Hok Hlen) as Hwp.
  apply wp_run in Hwp as (r & h' & Hrun & -> & Hrep & ->).
  pose proof (rep_nodup _ _ _ _ Hok) as Hnd. cbn [locs] in Hnd.
  apply NoDup_cons in Hnd as [_ [Hne _]%NoDup_cons].
  eexists. split_and!; [done|done| | |solve_frame].
  - by rewrite lookup_delete_eq.
  - rewrite lookup_delete_ne, lookup_delete_eq; [done|]. set_solver.
Qed.

(** C7: [q_remove_head] with a buffer of [bufsize >= 1] cells copies the
    removed string to it before the string is released: the buffer holds
    the first [bufsize - 1] characters of the string, terminated, the
    cells of the caller's block around the buffer are unchanged, and the
    element is removed. *)
Theorem q_remove_head_copies h q e es tl bb pre mid post :
  queue_rep h q (e :: es) tl -> Z.of_nat (length es) < INT_MAX ->
  h !! bb = Some (pre ++ mid ++ post) -> bb ∉ q :: locs (e :: es) ->
  (1 <= length mid)%nat -> Z.of_nat (length mid) <= SIZE_MAX ->
  let sp := Ptr bb (Z.of_nat (length pre)) in
  exists h' buf, q_remove_head (Ptr q 0) sp (Z.of_nat (length mid)) h = Ok (true, h') /\
    queue_rep h' q es tl /\
    h' !! bb = Some (pre ++ buf ++ post) /\ length buf = length mid /\
    cstr_at h' sp (take (pred (length mid)) (e_val e)).
Proof.
  intros Hrep Hlen Hbb Hnotin Hn Hmax sp.
  pose proof (q_remove_head_buf_spec h q e es tl bb pre mid post
                Hrep Hlen Hbb Hnotin Hn Hmax) as Hwp.
  apply wp_run in Hwp as (r & h' & Hrun & -> & Hrep' & Hh').
  assert (h' !! bb = Some (pre ++ copy_out_cells (e_val e) (length mid) ++ post)) as Hbb'.
  { subst h'. cbn [locs] in Hnotin. solve_lookup. }
  exists h', (copy_out_cells (e_val e) (length mid)).
  split_and!; [done|done|done|apply copy_out_cells_length|].
  split; [lia|]. eexists. split; [done|]. rewrite Nat2Z.id.
  apply cstr_in_copy_out; [done|].
  by pose proof (rep_strs _ _ _ _ Hrep) as [[_ ?] _]%Forall_cons.
Qed.

(** C14: [q_remove_head] of the only element of a well-formed queue
    returns [true] and releases the element, but does not reset [tail]:
    the queue record is left with [head = NULL], [size = 0] and [tail]
    still the address of the node just released, so the queue is not the
    well-formed empty queue. *)
Theorem q_remove_head_last_keeps_tail h q e n :
  queue_ok h q [e] ->
  exists h', q_remove_head (Ptr q 0) Null n h = Ok (true, h') /\
    h' !! q = Some (queue_t Null (Ptr (e_node e) 0) 0) /\
    h' !! e_node e = None /\ ~ queue_ok h' q [].
Proof.
  intros Hok.
  pose proof (q_remove_head_spec h q e [] _ n Hok ltac:(done)) as Hwp.
  apply wp_run in Hwp as (r & h' & Hrun & -> & Hrep & ->).
  pose proof (rep_queue _ _ _ _ Hrep) as Hq.
  eexists. split_and!; [done|done|by rewrite lookup_delete_eq|].
  intros Hok'. pose proof (rep_queue _ _ _ _ Hok') as Hq'.
  rewrite Hq in Hq'. discriminate.
Qed.

(** C15: [q_insert_tail] on a queue whose [tail] is the address of a
    released block, as [q_remove_head] leaves it, writes through that
    address: when the allocator does not hand the block out again the
    store [q->tail->next = newt] is a use after free. *)
Theorem q_insert_tail_use_after_free h q tb s str bn bs :
  queue_rep h q [] (Ptr tb 0) -> h !! tb = None -> cstr_at h s str ->
  Z.of_nat (length str) < INT_MAX ->
  new_elem h (length str) = Some (bn, bs) -> tb <> bn -> tb <> bs ->
  q_insert_tail (Ptr q 0) s h = Fault DanglingAccess.
Proof.
  intros Hrep Htb Hs Hstr Hnew Hbn Hbs.
  destruct (new_elem_fresh _ _ _ _ Hnew) as (Hfn & Hfs & Hne).
  destruct (insert_setup _ _ _ _ _ _ Hrep Hfn Hfs) as (? & ? & _).
  pose proof (rep_queue _ _ _ _ Hrep) as Hq. simpl in Hq.
  unfold q_insert_tail. cbn [is_null]. apply wpo_eq.
  apply wp_new_elem with (str := str)
    (sz := fun n => to_size_t ((n + 1) * sizeof_char));
    [done|done|apply alloc_size_string'; done|]. rewrite Hnew.
  do 3 (wp_step; cbn [is_null]).
  eapply wpo_bind_fault; [|done].
  apply store_dangling. solve_lookup.
Qed.

(** C16: when the allocator does hand the released block out again for the
    new node, the same store links the new node to itself: [q_insert_tail]
    returns [true] and counts one element, but [head] stays [NULL], so the
    element cannot be reached from the queue. *)
Theorem q_insert_tail_reuse_self_loop h q tb s str bs :
  queue_rep h q [] (Ptr tb 0) -> cstr_at h s str ->
  Z.of_nat (length str) < INT_MAX ->
  new_elem h (length str) = Some (tb, bs) ->
  exists h', q_insert_tail (Ptr q 0) s h = Ok (true, h') /\
    h' !! q = Some (queue_t Null (Ptr tb 0) 1) /\
    h' !! tb = Some (list_ele_t (Ptr bs 0) (Ptr tb 0)).
Proof.
  intros Hrep Hs Hstr Hnew.
  destruct (new_elem_fresh _ _ _ _ Hnew) as (Hfn & Hfs & Hne).
  destruct (insert_setup _ _ _ _ _ _ Hrep Hfn Hfs) as (? & ? & _).
  pose proof (rep_queue _ _ _ _ Hrep) as Hq. simpl in Hq.
  enough (wp (q_insert_tail (Ptr q 0) s) (fun r h' => r = true /\
            h' !! q = Some (queue_t Null (Ptr tb 0) 1) /\
            h' !! tb = Some (list_ele_t (Ptr bs 0) (Ptr tb 0))) h)
    as (r & h' & ? & -> & ?)%wp_run by eauto.
  unfold q_insert_tail. cbn [is_null].
  apply wp_new_elem with (str := str)
    (sz := fun n => to_size_t ((n + 1) * sizeof_char));
    [done|done|apply alloc_size_string'; done|]. rewrite Hnew.
  wp_steps. apply wp_int_arith; [done|]. wp_steps.
  split_and!; [done|solve_lookup..].
Qed.

(** C17: [q_free] of a represented queue, whatever its [tail], returns
    without fault, releases the queue record, every node and every string
    exactly once, and leaves every other block as it was. *)
Theorem q_free_ok h q es tl :
  queue_rep h q es tl ->
  exists h', q_free (Ptr q 0) h = Ok (tt, h') /\
    forall b, h' !! b = if decide (b ∈ q :: locs es) then None else h !! b.
Proof.
  intros Hrep. eexists. split; [by eapply q_free_spec|]. intros b.
  destruct (decide (b = q)) as [->|Hne].
  - by rewrite lookup_delete_eq, decide_True by set_solver.
  - rewrite lookup_delete_ne, lookup_delete_all by done.
    repeat case_decide; set_solver.
Qed.

(** C33: [q_size] returns the number of elements of a represented queue
    and does not change the heap. *)
Theorem q_size_ok h q es tl :
  queue_rep h q es tl -> q_size (Ptr q 0) h = Ok (Z.of_nat (length es), h).
Proof. apply q_size_rep. Qed.

(** C34: [q_remove_head] on an empty queue returns [false] and changes
    nothing, with or without a buffer. *)
Theorem q_remove_head_nothing h q tl sp n :
  queue_rep h q [] tl -> q_remove_head (Ptr q 0) sp n h = Ok (false, h).
Proof. apply q_remove_head_empty. Qed.

(** C35: [q_remove_head] with a buffer and [bufsize = 0] copies nothing
    and then stores the terminator at [sp[bufsize - 1]], which in [size_t]
    arithmetic is [sp[SIZE_MAX]]: an access outside the caller's block. *)
Theorem q_remove_head_bufsize_zero h q e es tl bb o blk :
  queue_rep h q (e :: es) tl -> h !! bb = Some blk ->
  0 <= o -> Z.of_nat (length blk) <= SIZE_MAX ->
  q_remove_head (Ptr q 0) (Ptr bb o) 0 h = Fault OutOfBounds.
Proof.
  intros Hrep Hbb Ho Hlen.
  pose proof (rep_queue _ _ _ _ Hrep) as Hq. simpl in Hq.
  pose proof (rep_nodes _ _ _ _ Hrep) as [Hn1 _].
  unfold q_remove_head. cbn [is_null]. apply wpo_eq.
  wp_step. cbn [is_null]. eapply wpo_bind_fault; [|done].
  apply bind_run. wp_step. apply bind_run. wp_step.
  unfold strncpy. simpl. rewrite to_size_t_minus_one.
  eapply store_out_of_bounds; [done|lia].
Qed.

End Ops.

(** ** The theorems at concrete heaps

    The queue record is block 1, the caller's string "hello" block 100 and
    the caller's buffer of three cells block 101; the allocator is the one
    named in each statement. *)

Lemma q_insert_tail_ok_witness :
  exists h', @q_insert_tail fresh_allocator (Ptr 1 0) (Ptr 100 0) h_hello = Ok (true, h') /\
    queue_ok h' 1 ([e_hello] ++ [Elem 102 103 s_hello]) /\
    same_outside (1 :: 102 :: 103 :: locs [e_hello])%positive h_hello h'.
Proof.
  apply (@q_insert_tail_ok fresh_allocator);
    [apply h_hello_ok|by apply caller_string|by_compute..].
Defined.

Lemma q_insert_head_ok_witness :
  exists h', @q_insert_head fresh_allocator (Ptr 1 0) (Ptr 100 0) h_hello = Ok (true, h') /\
    queue_ok h' 1 (Elem 102 103 s_hello :: [e_hello]) /\
    same_outside [1; 102; 103]%positive h_hello h'.
Proof.
  apply (@q_insert_head_ok fresh_allocator);
    [apply h_hello_ok|by apply caller_string|by_compute..].
Defined.

Lemma q_insert_no_memory_witness :
  @q_insert_head (bounded_allocator 6) (Ptr 1 0) (Ptr 100 0) h_hello = Ok (false, h_hello) /\
  @q_insert_tail (bounded_allocator 6) (Ptr 1 0) (Ptr 100 0) h_hello = Ok (false, h_hello).
Proof.
  apply (@q_insert_no_memory (bounded_allocator 6) h_hello (Ptr 1 0) (Ptr 100 0)
           s_hello); [by apply caller_string|by_compute..].
Defined.

Lemma q_remove_head_ok_witness :
  exists h', q_remove_head (Ptr 1 0) Null 0 h_three = Ok (true, h') /\
    queue_ok h' 1 [e_apple; e_cherry] /\
    h' !! e_node e_banana = None /\ h' !! e_str e_banana = None /\
    same_outside [1%positive; e_node e_banana; e_str e_banana] h_three h'.
Proof.
  apply (q_remove_head_ok h_three 1 e_banana e_apple [e_cherry] 0);
    [apply h_three_ok|by_compute].
Defined.

Lemma q_remove_head_copies_witness :
  exists h' buf,
    q_remove_head (Ptr 1 0) (Ptr 101 0) 3 h_hello = Ok (true, h') /\
    queue_rep h' 1 [] (Ptr 2 0) /\
    h' !! 101%positive = Some ([] ++ buf ++ []) /\ length buf = 3%nat /\
    cstr_at h' (Ptr 101 0) s_he.
Proof.
  apply (q_remove_head_copies h_hello 1 e_hello [] (Ptr 2 0) 101
           [] (replicate 3 VUndef) []); [apply h_hello_ok|by_compute..].
Defined.

Lemma q_remove_head_last_keeps_tail_witness :
  exists h', q_remove_head (Ptr 1 0) Null 0 h_hello = Ok (true, h') /\
    h' !! 1%positive = Some (queue_t Null (Ptr 2 0) 0) /\
    h' !! 2%positive = None /\ ~ queue_ok h' 1 [].
Proof.
  apply (q_remove_head_last_keeps_tail h_hello 1 e_hello 0), h_hello_ok.
Defined.

Lemma q_insert_tail_use_after_free_witness :
  @q_insert_tail fresh_allocator (Ptr 1 0) (Ptr 100 0) h_stale = Fault DanglingAccess.
Proof.
  apply (@q_insert_tail_use_after_free fresh_allocator h_stale 1 2 (Ptr 100 0)
           s_hello 102 103);
    [apply h_stale_rep|by_compute|by apply caller_string|by_compute..].
Defined.

Lemma q_insert_tail_reuse_self_loop_witness :
  exists h', @q_insert_tail (reusing_allocator 2) (Ptr 1 0) (Ptr 100 0) h_stale = Ok (true, h') /\
    h' !! 1%positive = Some (queue_t Null (Ptr 2 0) 1) /\
    h' !! 2%positive = Some (list_ele_t (Ptr 102 0) (Ptr 2 0)).
Proof.
  apply (@q_insert_tail_reuse_self_loop (reusing_allocator 2) h_stale 1 2 (Ptr 100 0)
           s_hello 102);
    [apply h_stale_rep|by apply caller_string|by_compute..].
Defined.

Lemma q_free_ok_witness :
  exists h', q_free (Ptr 1 0) h_three = Ok (tt, h') /\
    forall b, h' !! b =
      if decide (b ∈ 1%positive :: locs [e_banana; e_apple; e_cherry])
      then None else h_three !! b.
Proof. apply (q_free_ok h_three 1 _ (Ptr 6 0)), h_three_ok. Defined.

Lemma q_size_ok_witness : q_size (Ptr 1 0) h_three = Ok (3, h_three).
Proof. apply (q_size_ok h_three 1 [e_banana; e_apple; e_cherry] (Ptr 6 0)), h_three_ok. Defined.

Lemma q_remove_head_nothing_witness :
  q_remove_head (Ptr 1 0) (Ptr 101 0) 3 h_empty = Ok (false, h_empty).
Proof. apply (q_remove_head_nothing h_empty 1 Null), h_empty_ok. Defined.

Lemma q_remove_head_bufsize_zero_witness :
  q_remove_head (Ptr 1 0) (Ptr 101 0) 0 h_hello = Fault OutOfBounds.
Proof.
  apply (q_remove_head_bufsize_zero h_hello 1 e_hello [] (Ptr 2 0) 101 0
           (replicate 3 VUndef)); [apply h_hello_ok|by_compute..].
Defined.
