(* ===== verification/Reverse.v ===== *)
(** * [q_reverse]

    The reversal of the queue in place: the loop that flips one [next]
    link per step, the swap of [head] and [tail], and the proof that the
    result represents the reversed list on the same nodes.  On an empty
    queue whose [tail] was left at a released node the swap makes that
    node the [head]: the last theorem follows the next [q_remove_head]
    and [q_free] into it. *)

From Stdlib Require Import ZArith Lia.
From stdpp Require Import gmap list.
From S2P Require Import Prelude Memory Structs CString ListSeg Fixtures Exec.
From S2P Require Import QueueOps.

Local Open Scope Z_scope.
Local Open Scope M_scope.

(** The loop of [q_reverse]: [while (temp) { last = middle; middle = temp;
    temp = temp->next; middle->next = last; }]. *)
Fixpoint q_reverse_loop (fuel : nat) (temp middle last : ptr) : M heap unit :=
  if is_null temp then ret tt
  else
    match fuel with
    | O => throw OutOfFuel
    | S fuel' =>
        let last := middle in
        let middle := temp in
        temp' <- load_ptr (next_of temp) ;;
        store (next_of middle) (VPtr last) ;;;
        q_reverse_loop fuel' temp' middle last
    end.

(** [q_reverse]. *)
Definition q_reverse (q : ptr) : M heap unit :=
  if is_null q then ret tt
  else
    temp <- load_ptr (head_of q) ;;
    h <- get_state ;;
    q_reverse_loop (fuel_of h) temp Null Null ;;;
    temp <- load_ptr (head_of q) ;;
    tl <- load_ptr (tail_of q) ;;
    store (head_of q) (VPtr tl) ;;;
    store (tail_of q) (VPtr temp).

(** ** The loop *)

(** With [es] still to visit and [done] already reversed, the loop ends
    with [reverse es ++ done] linked, and has written to the nodes of [es]
    only. *)
Lemma q_reverse_loop_spec es fuel h done last :
  (length es <= fuel)%nat ->
  nodes_ok h es Null -> nodes_ok h done Null ->
  NoDup (node_locs (es ++ done)) ->
  wp (q_reverse_loop fuel (hd_ptr es Null) (hd_ptr done Null) last)
     (fun _ h' => nodes_ok h' (reverse es ++ done) Null /\
                  same_outside (node_locs es) h h') h.
Proof.
  revert fuel h done last.
  induction es as [|e es IH]; intros fuel h done last Hfuel Hes Hdone Hnd.
  - destruct fuel; simpl; apply wp_ret; done.
  - destruct fuel as [|fuel]; [simpl in Hfuel; lia|].
    destruct Hes as [He Hes]. unfold node_locs in Hnd. simpl in Hnd.
    apply NoDup_cons in Hnd as [Hne Hnd]. fold (node_locs (es ++ done)) in *.
    unfold node_locs in Hne. rewrite fmap_app in Hne.
    apply not_elem_of_app in Hne as [Hne1 Hne2].
    cbn [hd_ptr q_reverse_loop is_null]. wp_steps.
    eapply wp_mono.
    { apply (IH fuel _ (e :: done)); [simpl in Hfuel; lia|..].
      - eapply nodes_ok_agree; [|done]. solve_frame.
      - split; [solve_lookup|]. eapply nodes_ok_agree; [|done]. solve_frame.
      - unfold node_locs in *. rewrite fmap_app, fmap_cons.
        rewrite fmap_app in Hnd. apply NoDup_app in Hnd as (? & Hd & ?).
        apply NoDup_app. split_and!; [done| |].
        + intros x Hx [->|?]%elem_of_cons; [done|]. by eapply Hd.
        + by apply NoDup_cons. }
    cbn beta. intros _ h' [Hn' Hout]. rewrite reverse_cons, <- app_assoc. split; [done|].
    intros l Hl. rewrite Hout by (unfold node_locs in *; set_solver).
    rewrite lookup_insert_ne; [done|]. unfold node_locs in *. set_solver.
Qed.

(** ** The function *)

(** [q_reverse] on a well-formed queue: the same elements, on the same
    nodes, in reverse order; only the queue record and the [next] fields of
    the nodes are written. *)
Lemma q_reverse_spec h q es :
  queue_ok h q es ->
  wp (q_reverse (Ptr q 0))
     (fun _ h' => queue_ok h' q (reverse es) /\ same_outside (q :: node_locs es) h h') h.
Proof.
  intros [Hq Hn Hs Hnd]. unfold q_reverse. cbn [is_null].
  apply NoDup_cons in Hnd as [Hq' Hnd].
  pose proof Hnd as (Hnn & Hns & _)%NoDup_locs.
  wp_step. apply wp_bind, wp_get. apply wp_bind.
  eapply wp_mono.
  { apply (q_reverse_loop_spec es _ h [] Null); [|done|done|by rewrite app_nil_r].
    pose proof (fuel_of_enough _ _ _ Hn Hs Hnd). lia. }
  cbn beta. rewrite app_nil_r. intros _ h' [Hn' Hout].
  assert (h' !! q = h !! q) as Hq1 by (apply Hout; set_solver).
  rewrite Hq in Hq1. wp_steps. split.
  - split.
    + by rewrite lookup_insert_eq, hd_ptr_reverse, last_ptr_reverse, length_reverse.
    + eapply nodes_ok_agree; [|done]. apply agree_on_insert; [|done].
      rewrite node_locs_reverse. set_solver.
    + apply Forall_reverse. eapply strs_ok_agree; [|done].
      apply agree_on_insert; [set_solver|].
      eapply same_outside_agree; [|done]. intros l Hl Hin. by eapply Hns.
    + rewrite NoDup_cons, locs_reverse. done.
  - intros l Hl. rewrite lookup_insert_ne by set_solver. apply Hout. set_solver.
Qed.

(** [q_reverse] on an empty queue: no node is visited, and [head] and
    [tail] are exchanged whatever [tail] holds. *)
Lemma q_reverse_empty h q tl :
  queue_rep h q [] tl ->
  q_reverse (Ptr q 0) h = Ok (tt, <[q := queue_t tl Null 0]> h).
Proof.
  intros [Hq _ _ _]. simpl in Hq. unfold q_reverse, fuel_of. cbn [is_null].
  apply wp_eq. wp_step. apply wp_bind, wp_get. cbn [q_reverse_loop is_null].
  apply wp_bind, wp_ret. by wp_run_to_end.
Qed.

(** ** The contract of [q_reverse], as runs *)

(** C9: [q_reverse] on a well-formed queue returns without fault; the
    queue is well formed with the same elements, on the same nodes and
    strings, in reverse order, [head] and [tail] exchanged and [size] as
    before; only the queue record and the nodes are written, and no block
    is allocated or released. *)
Theorem q_reverse_ok h q es :
  queue_ok h q es ->
  exists h', q_reverse (Ptr q 0) h = Ok (tt, h') /\
    queue_ok h' q (reverse es) /\
    same_outside (q :: node_locs es) h h' /\ dom h' = dom h.
Proof.
  intros Hok. pose proof (q_reverse_spec h q es Hok) as Hwp.
  apply wp_run in Hwp as ([] & h' & Hrun & Hok' & Hout).
  exists h'. split_and!; [done..|].
  eapply same_outside_dom; [done|]. intros l Hl. split.
  - eapply queue_rep_allocated; [exact Hok|]. set_solver.
  - eapply queue_rep_allocated; [exact Hok'|]. rewrite locs_reverse. set_solver.
Qed.

(** C29: reversing a well-formed queue twice restores the heap exactly:
    every [next] field and both handles are as they were. *)
Theorem q_reverse_involutive h q es :
  queue_ok h q es ->
  exists h', q_reverse (Ptr q 0) h = Ok (tt, h') /\
             q_reverse (Ptr q 0) h' = Ok (tt, h).
Proof.
  intros Hok. pose proof (q_reverse_spec h q es Hok) as Hwp.
  apply wp_run in Hwp as ([] & h' & Hrun & Hok' & Hout).
  pose proof (q_reverse_spec h' q _ Hok') as Hwp.
  apply wp_run in Hwp as ([] & h2 & Hrun' & Hok2 & Hout').
  rewrite reverse_involutive in Hok2. exists h'. split; [done|].
  rewrite Hrun'. do 2 f_equal. eapply queue_rep_determined; [exact Hok|exact Hok2|].
  eapply same_outside_trans; [done|].
  eapply same_outside_weaken; [|done]. rewrite node_locs_reverse. set_solver.
Qed.

(** C38: [q_reverse] on [NULL] does nothing. *)
Theorem q_reverse_null h : q_reverse Null h = Ok (tt, h).
Proof. done. Qed.

(** C30: on an empty queue whose [tail] is a released block, as
    [q_remove_head] leaves it, [q_reverse] returns without fault and
    makes [head] that block: the queue has [size] 0 and a [head] that is
    not [NULL], and the next [q_remove_head], with or without a buffer,
    and [q_free] read the released node: a use after free. *)
Theorem q_reverse_stale_tail h q tb o sp n :
  queue_rep h q [] (Ptr tb o) -> h !! tb = None ->
  exists h', q_reverse (Ptr q 0) h = Ok (tt, h') /\
    h' !! q = Some (queue_t (Ptr tb o) Null 0) /\ h' !! tb = None /\
    q_remove_head (Ptr q 0) sp n h' = Fault DanglingAccess /\
    q_free (Ptr q 0) h' = Fault DanglingAccess.
Proof.
  intros Hrep Htb. pose proof (rep_queue _ _ _ _ Hrep) as Hq.
  assert (tb <> q) as Hne by congruence.
  assert (<[q := queue_t (Ptr tb o) Null 0]> h !! tb = None) as Htb'
    by by rewrite lookup_insert_ne.
  eexists. split_and!; [by apply q_reverse_empty|by rewrite lookup_insert_eq|done|..].
  - eapply q_remove_head_dangling; [by rewrite lookup_insert_eq|done].
  - eapply q_free_dangling; [by rewrite lookup_insert_eq|done].
Qed.

(** ** The theorems at a concrete heap *)

Lemma q_reverse_ok_witness :
  exists h', q_reverse (Ptr 1 0) h_three = Ok (tt, h') /\
    queue_ok h' 1 (reverse [e_banana; e_apple; e_cherry]) /\
    same_outside (1%positive :: node_locs [e_banana; e_apple; e_cherry]) h_three h' /\
    dom h' = dom h_three.
Proof. apply q_reverse_ok, h_three_ok. Defined.

Lemma q_reverse_involutive_witness :
  exists h', q_reverse (Ptr 1 0) h_three = Ok (tt, h') /\
             q_reverse (Ptr 1 0) h' = Ok (tt, h_three).
Proof. apply (q_reverse_involutive h_three 1 [e_banana; e_apple; e_cherry]), h_three_ok. Defined.

Lemma q_reverse_stale_tail_witness :
  exists h', q_reverse (Ptr 1 0) h_stale = Ok (tt, h') /\
    h' !! 1%positive = Some (queue_t (Ptr 2 0) Null 0) /\ h' !! 2%positive = None /\
    q_remove_head (Ptr 1 0) (Ptr 101 0) 3 h' = Fault DanglingAccess /\
    q_free (Ptr 1 0) h' = Fault DanglingAccess.
Proof. apply q_reverse_stale_tail; [apply h_stale_rep|by_compute]. Defined.
