(* ===== verification/MergeSort.v ===== *)
(** * Merge sort on lists: the functional model of [q_sort]

    The order in which [q_merge] and [q_sort] of [queue.c] arrange the
    elements, as functions on lists: [merge] takes the head of the right
    list whenever the head of the left one is not smaller, [msort] splits
    at [ceil(n/2)].  The relation [lt] is the comparison [less_than]; what
    the theorems need of it is stated where they need it. *)

From Stdlib Require Import Arith Lia Sorted.
From stdpp Require Import list.
From Equations Require Import Equations.

Section MergeSort.
Context {A : Type} (lt : A -> A -> bool).

(** The merge of [q_merge]: the left head goes first only when it is
    smaller, so on a tie the right head does. *)
Fixpoint merge (l : list A) : list A -> list A :=
  fix go (r : list A) : list A :=
    match l, r with
    | [], _ => r
    | _, [] => l
    | a :: l', b :: r' => if lt a b then a :: merge l' r else b :: go r'
    end.

(** [left.size] in [q_sort]: [(size >> 1) + (size & 1)]. *)
Definition left_size (n : nat) : nat := n / 2 + n mod 2.

(** [q_sort] on lists. *)
Equations msort (es : list A) : list A by wf (length es) Nat.lt :=
  msort es with le_lt_dec 2 (length es) := {
    | right _ => es
    | left _ => merge (msort (take (left_size (length es)) es))
                      (msort (drop (left_size (length es)) es)) }.
Next Obligation.
  intros. rewrite length_take. unfold left_size.
  pose proof (Nat.div_mod_eq (length es) 2).
  pose proof (Nat.mod_upper_bound (length es) 2). lia.
Qed.
Next Obligation.
  intros. rewrite length_drop. unfold left_size.
  pose proof (Nat.div_mod_eq (length es) 2).
  pose proof (Nat.mod_upper_bound (length es) 2). lia.
Qed.

(** [b] is not smaller than [a]: the order of two neighbours of a sorted
    list. *)
Definition not_gt (a b : A) : Prop := lt b a = false.

(** ** The split *)

Lemma left_size_bounds n : (2 <= n -> 1 <= left_size n < n)%nat.
Proof.
  unfold left_size. intros.
  pose proof (Nat.div_mod_eq n 2). pose proof (Nat.mod_upper_bound n 2). lia.
Qed.

Lemma left_size_le n : (left_size n <= n)%nat.
Proof.
  unfold left_size.
  pose proof (Nat.div_mod_eq n 2). pose proof (Nat.mod_upper_bound n 2). lia.
Qed.

(** Both halves of a list of at most [2 ^ S k] elements have at most
    [2 ^ k]. *)
Lemma left_size_half n k :
  (n <= 2 ^ S k -> left_size n <= 2 ^ k /\ n - left_size n <= 2 ^ k)%nat.
Proof.
  unfold left_size. rewrite Nat.pow_succ_r'. intros Hn.
  pose proof (Nat.div_mod_eq n 2). pose proof (Nat.mod_upper_bound n 2). lia.
Qed.

Lemma left_size_right n : (n - left_size n = n / 2)%nat.
Proof.
  unfold left_size.
  pose proof (Nat.div_mod_eq n 2). pose proof (Nat.mod_upper_bound n 2). lia.
Qed.

(** The list [es] around its element at position [left_size - 1]. *)
Lemma split_at_left_size (es : list A) :
  (2 <= length es)%nat ->
  exists l1 e l2, es = l1 ++ e :: l2 /\
    take (left_size (length es)) es = l1 ++ [e] /\
    drop (left_size (length es)) es = l2 /\
    S (length l1) = left_size (length es).
Proof.
  intros Hlen. pose proof (left_size_bounds _ Hlen) as Hk.
  destruct (left_size (length es)) as [|k] eqn:E; [lia|].
  destruct (lookup_lt_is_Some_2 es k) as [e He]; [lia|].
  exists (take k es), e, (drop (S k) es). split_and!.
  - by rewrite take_drop_middle.
  - by erewrite take_S_r.
  - done.
  - rewrite length_take. lia.
Qed.

(** ** [merge] *)

Lemma merge_nil_l r : merge [] r = r.
Proof. by destruct r. Qed.

Lemma merge_nil_r l : merge l [] = l.
Proof. by destruct l. Qed.

Lemma merge_cons a l b r :
  merge (a :: l) (b :: r) =
  if lt a b then a :: merge l (b :: r) else b :: merge (a :: l) r.
Proof. done. Qed.

Lemma merge_perm l r : merge l r ≡ₚ l ++ r.
Proof.
  revert r. induction l as [|a l IH]; intros r; [by rewrite merge_nil_l|].
  induction r as [|b r IHr]; [by rewrite merge_nil_r, app_nil_r|].
  rewrite merge_cons. destruct (lt a b).
  - by rewrite IH.
  - rewrite IHr. apply Permutation_middle.
Qed.

Lemma merge_length l r : length (merge l r) = (length l + length r)%nat.
Proof. by rewrite merge_perm, length_app. Qed.

(** ** [msort] *)

Lemma msort_small es : (length es < 2)%nat -> msort es = es.
Proof. intros. funelim (msort es); [lia|done]. Qed.

Lemma msort_split es :
  (2 <= length es)%nat ->
  msort es = merge (msort (take (left_size (length es)) es))
                   (msort (drop (left_size (length es)) es)).
Proof. intros. funelim (msort es); [done|lia]. Qed.

Lemma msort_perm es : msort es ≡ₚ es.
Proof.
  funelim (msort es); [|done].
  rewrite merge_perm, H, H0. by rewrite take_drop.
Qed.

Lemma msort_length es : length (msort es) = length es.
Proof. by rewrite msort_perm. Qed.

Lemma msort_not_nil es : (0 < length es)%nat -> msort es <> [].
Proof. intros Hlen E%(f_equal length). rewrite msort_length in E. simpl in E. lia. Qed.

(** ** Sortedness *)

Section Sorted.
Hypothesis lt_asym : forall a b, lt a b = true -> lt b a = false.

Lemma HdRel_merge a l r :
  HdRel not_gt a l -> HdRel not_gt a r -> HdRel not_gt a (merge l r).
Proof.
  intros Hl Hr. destruct l as [|x l]; [by rewrite merge_nil_l|].
  destruct r as [|y r]; [done|].
  rewrite merge_cons. inversion_clear Hl. inversion_clear Hr.
  destruct (lt x y); by constructor.
Qed.

Lemma Sorted_merge l r :
  Sorted not_gt l -> Sorted not_gt r -> Sorted not_gt (merge l r).
Proof.
  revert r. induction l as [|a l IH]; intros r Hl Hr; [by rewrite merge_nil_l|].
  induction r as [|b r IHr]; [by rewrite merge_nil_r|].
  inversion_clear Hl. inversion_clear Hr.
  rewrite merge_cons. destruct (lt a b) eqn:E; constructor.
  - apply IH; [done|by constructor].
  - apply HdRel_merge; [done|]. constructor. by apply lt_asym.
  - by apply IHr.
  - apply HdRel_merge; [|done]. by constructor.
Qed.

Lemma Sorted_small l : (length l < 2)%nat -> Sorted not_gt l.
Proof.
  destruct l as [|a [|b l]]; simpl; [constructor|repeat constructor|lia].
Qed.

Lemma msort_sorted es : Sorted not_gt (msort es).
Proof. funelim (msort es); [by apply Sorted_merge|by apply Sorted_small]. Qed.

(** With a comparison whose negation is transitive every element of the
    result is not greater than every later one. *)
Hypothesis lt_neg_trans :
  forall a b c, lt b a = false -> lt c b = false -> lt c a = false.

Lemma msort_strongly_sorted es : StronglySorted not_gt (msort es).
Proof.
  apply Sorted_StronglySorted; [|apply msort_sorted].
  intros a b c. unfold not_gt. eauto.
Qed.
End Sorted.

End MergeSort.
