(* ===== verification/Compare.v ===== *)
(** * The comparison of [q_sort]: [less_than]

    [less_than] of [queue.c], character by character, and the order on
    strings it decides: [lex_ltb], the lexicographic order on the values of
    type [char], in which a proper prefix is smaller. *)

From Stdlib Require Import ZArith Lia.
From stdpp Require Import gmap list.
From S2P Require Import Prelude Memory Structs CString ListSeg Fixtures Exec.

Local Open Scope Z_scope.
Local Open Scope M_scope.

(** ** The code *)

(** The condition of the loop, [*str_l && *str_r]: the right string is
    read only when the left character is not the terminator. *)
Definition both_nonzero (str_l str_r : ptr) : M heap bool :=
  cl <- load_int str_l ;;
  if decide (cl = 0) then ret false
  else
    cr <- load_int str_r ;;
    ret (bool_decide (cr <> 0)).

(** The loop of [less_than] and the two statements after it.  Both
    pointers advance when the characters are equal. *)
Fixpoint less_than_loop (fuel : nat) (str_l str_r : ptr) : M heap bool :=
  c <- both_nonzero str_l str_r ;;
  if c then
    match fuel with
    | O => throw OutOfFuel
    | S fuel' =>
        a <- load_int str_l ;;
        b <- load_int str_r ;;
        if decide (a > b) then ret false
        else
          a' <- load_int str_l ;;
          b' <- load_int str_r ;;
          if decide (a' < b') then ret true
          else less_than_loop fuel' (ptr_add str_l 1) (ptr_add str_r 1)
    end
  else
    cl <- load_int str_l ;;
    if decide (cl = 0) then
      cr <- load_int str_r ;;
      ret (bool_decide (cr <> 0))
    else ret false.

(** [less_than].  The loop reads one more cell of the left string in each
    round, so the number of cells of its block bounds the rounds. *)
Definition less_than (l r : ptr) : M heap bool :=
  str_l <- load_ptr (value_of l) ;;
  str_r <- load_ptr (value_of r) ;;
  h <- get_state ;;
  less_than_loop (block_len str_l h) str_l str_r.

(** ** The order *)

(** The lexicographic order on strings of [char] values. *)
Fixpoint lex_ltb (s t : list Z) : bool :=
  match s, t with
  | _, [] => false
  | [], _ :: _ => true
  | a :: s', b :: t' =>
      if decide (a < b) then true
      else if decide (b < a) then false
      else lex_ltb s' t'
  end.

(** The comparison of two elements: what [less_than] answers on their
    nodes. *)
Definition elem_ltb (a b : elem) : bool := lex_ltb (e_val a) (e_val b).

(** [s] is not after [t]: the order of two neighbours of a sorted queue. *)
Definition lex_le (s t : list Z) : Prop := lex_ltb t s = false.

(** ** [lex_ltb] is a strict total order *)

Lemma lex_ltb_irrefl s : lex_ltb s s = false.
Proof. induction s as [|a s IH]; [done|]. simpl. by rewrite !decide_False by lia. Qed.

Lemma lex_ltb_asym s t : lex_ltb s t = true -> lex_ltb t s = false.
Proof.
  revert t. induction s as [|a s IH]; intros [|b t]; simpl; try done.
  repeat case_decide; try done; try lia. apply IH.
Qed.

Lemma lex_ltb_trans s t u :
  lex_ltb s t = true -> lex_ltb t u = true -> lex_ltb s u = true.
Proof.
  revert t u. induction s as [|a s IH]; intros [|b t] [|c u]; simpl; try done.
  repeat case_decide; try done; try lia. apply IH.
Qed.

Lemma lex_ltb_total s t : lex_ltb s t = false -> lex_ltb t s = false -> s = t.
Proof.
  revert t. induction s as [|a s IH]; intros [|b t]; simpl; try done.
  repeat case_decide; try done. intros. f_equal; [lia|]. by apply IH.
Qed.

(** Negative transitivity: what makes "not greater" transitive. *)
Lemma lex_ltb_neg_trans s t u :
  lex_ltb t s = false -> lex_ltb u t = false -> lex_ltb u s = false.
Proof.
  intros Hts Hut. destruct (lex_ltb u s) eqn:Hus; [|done].
  destruct (lex_ltb s t) eqn:Hst.
  - by rewrite (lex_ltb_trans _ _ _ Hus Hst) in Hut.
  - pose proof (lex_ltb_total _ _ Hst Hts) as ->. congruence.
Qed.

#[export] Instance lex_le_dec s t : Decision (lex_le s t).
Proof. unfold lex_le. apply _. Defined.

#[export] Instance lex_le_trans : Transitive lex_le.
Proof. intros s t u. apply lex_ltb_neg_trans. Qed.

#[export] Instance lex_le_total : Total lex_le.
Proof.
  intros s t. unfold lex_le. destruct (lex_ltb t s) eqn:E; [|by left].
  right. by apply lex_ltb_asym.
Qed.

#[export] Instance lex_le_antisymm : AntiSymm (=) lex_le.
Proof. intros s t Hst Hts. by apply lex_ltb_total. Qed.

(** ** The loop decides the order *)

Lemma both_nonzero_ok h p1 p2 s t :
  cstr_at h p1 s -> cstr_at h p2 t ->
  both_nonzero p1 p2 h = Ok (bool_decide (s <> [] /\ t <> []), h).
Proof.
  intros H1 H2. unfold both_nonzero.
  rewrite (bind_ok _ _ _ _ _ (cstr_at_load _ _ _ H1)).
  pose proof (cstr_at_nonzero _ _ _ H1) as Hz1.
  pose proof (cstr_at_nonzero _ _ _ H2) as Hz2.
  destruct s as [|a s]; simpl; [done|].
  apply Forall_cons in Hz1 as [? _]. rewrite decide_False by done.
  rewrite (bind_ok _ _ _ _ _ (cstr_at_load _ _ _ H2)).
  destruct t as [|b t]; simpl; [done|].
  apply Forall_cons in Hz2 as [? _]. by rewrite bool_decide_true.
Qed.

(** The statements after the loop, reached when one string has ended. *)
Lemma less_than_end_ok h p1 p2 s t :
  cstr_at h p1 s -> cstr_at h p2 t -> ~ (s <> [] /\ t <> []) ->
  (cl <- load_int p1 ;;
   if decide (cl = 0) then
     cr <- load_int p2 ;;
     ret (bool_decide (cr <> 0))
   else ret false) h = Ok (lex_ltb s t, h).
Proof.
  intros H1 H2 Hend.
  pose proof (cstr_at_nonzero _ _ _ H1) as Hz1.
  pose proof (cstr_at_nonzero _ _ _ H2) as Hz2.
  rewrite (bind_ok _ _ _ _ _ (cstr_at_load _ _ _ H1)).
  destruct s as [|a s]; simpl.
  - rewrite (bind_ok _ _ _ _ _ (cstr_at_load _ _ _ H2)).
    destruct t as [|b t]; simpl; [done|].
    apply Forall_cons in Hz2 as [? _]. by rewrite bool_decide_true.
  - apply Forall_cons in Hz1 as [? _]. rewrite decide_False by done.
    destruct t; [done|]. destruct Hend. done.
Qed.

Lemma less_than_loop_ok fuel h p1 p2 s t :
  cstr_at h p1 s -> cstr_at h p2 t -> (length s <= fuel)%nat ->
  less_than_loop fuel p1 p2 h = Ok (lex_ltb s t, h).
Proof.
  revert p1 p2 s t. induction fuel as [|fuel IH]; intros p1 p2 s t H1 H2 Hfuel;
    cbn [less_than_loop];
    rewrite (bind_ok _ _ _ _ _ (both_nonzero_ok _ _ _ _ _ H1 H2));
    case_bool_decide as Hc; try (by apply less_than_end_ok).
  { destruct s; [tauto|simpl in Hfuel; lia]. }
  destruct s as [|a s]; [tauto|]. destruct t as [|b t]; [tauto|].
  pose proof (cstr_at_load _ _ _ H1) as Hl1.
  pose proof (cstr_at_load _ _ _ H2) as Hl2. cbn [hd] in Hl1, Hl2.
  rewrite (bind_ok _ _ _ _ _ Hl1), (bind_ok _ _ _ _ _ Hl2).
  cbn [lex_ltb]. destruct (decide (a > b)).
  { by rewrite decide_False, decide_True by lia. }
  rewrite (bind_ok _ _ _ _ _ Hl1), (bind_ok _ _ _ _ _ Hl2).
  destruct (decide (a < b)); [done|]. rewrite decide_False by lia.
  apply IH; [by eapply cstr_at_next..|simpl in Hfuel; lia].
Qed.

(** ** [less_than] on two elements *)

(** [less_than] on the nodes of two elements decides [lex_ltb] on their
    strings and changes nothing. *)
Lemma less_than_spec h a b :
  elem_at h a -> elem_at h b ->
  less_than (Ptr (e_node a) 0) (Ptr (e_node b) 0) h = Ok (elem_ltb a b, h).
Proof.
  intros [[nxa Ha] Hsa] [[nxb Hb] Hsb]. unfold less_than. apply wp_eq.
  wp_steps. apply wp_get.
  apply str_ok_cstr_at in Hsa, Hsb.
  eapply wp_ok; [|done]. apply less_than_loop_ok; [done..|].
  apply cstr_at_block_len in Hsa. lia.
Qed.

(** ** The loop ends on every heap *)

Lemma both_nonzero_total {B} p1 p2 h (k : bool -> M heap B) :
  (forall c, (c = true -> (1 <= cells_left p1 h)%nat) -> wpo (k c) terminates h) ->
  wpo (bind (both_nonzero p1 p2) k) terminates h.
Proof.
  intros Hk. unfold both_nonzero. apply wpo_bind_assoc, wpo_load_int_total.
  intros cl Hc. case_decide; [by apply Hk|].
  apply wpo_bind_assoc, wpo_load_int_total. intros cr _. by apply Hk.
Qed.

Lemma less_than_loop_total fuel p1 p2 h :
  (cells_left p1 h <= fuel)%nat -> wpo (less_than_loop fuel p1 p2) terminates h.
Proof.
  revert p1 p2. induction fuel as [|fuel IH]; intros p1 p2 Hfuel;
    cbn [less_than_loop]; apply both_nonzero_total; intros [] Hc;
    try (specialize (Hc eq_refl)); try lia;
    repeat first [apply wpo_load_int_total; intros ? _ | case_decide]; try done.
  apply IH. rewrite cells_left_next; lia.
Qed.

Lemma less_than_total l r h : wpo (less_than l r) terminates h.
Proof.
  unfold less_than. do 2 (apply wpo_load_ptr_total; intros ? _).
  apply wp_bind, wp_get, less_than_loop_total, cells_left_le.
Qed.

(** ** The contract of [less_than], as runs *)

(** C11: [less_than] on the nodes of two elements of the heap returns
    whether the string of the first is before the string of the second in
    the lexicographic order on [char] values, a proper prefix being
    smaller, and changes nothing. *)
Theorem less_than_ok h a b :
  elem_at h a -> elem_at h b ->
  less_than (Ptr (e_node a) 0) (Ptr (e_node b) 0) h
  = Ok (lex_ltb (e_val a) (e_val b), h).
Proof. apply less_than_spec. Qed.

(** C25: the loop of [less_than] ends on every heap and for all
    arguments, well formed or not: the fuel of the model, the number of
    cells of the block of the left string, is never used up. *)
Theorem less_than_terminates l r h : less_than l r h <> Fault OutOfFuel.
Proof. apply less_than_total. Qed.

(** C26: on the elements of a heap [less_than] is a strict total order on
    their strings: no element is before itself, the order is transitive,
    and of two elements with different strings exactly one is before the
    other. *)
Theorem less_than_strict_order h a b c :
  elem_at h a -> elem_at h b -> elem_at h c ->
  let lt x y := less_than (Ptr (e_node x) 0) (Ptr (e_node y) 0) h = Ok (true, h) in
  ~ lt a a /\ (lt a b -> lt b c -> lt a c) /\ (lt a b -> ~ lt b a) /\
  (e_val a <> e_val b -> lt a b \/ lt b a).
Proof.
  intros Ha Hb Hc lt. unfold lt. rewrite !less_than_spec by done.
  unfold elem_ltb. split_and!.
  - by rewrite lex_ltb_irrefl.
  - intros [= Hab] [= Hbc]. by rewrite (lex_ltb_trans _ _ _ Hab Hbc).
  - intros [= Hab]. by rewrite (lex_ltb_asym _ _ Hab).
  - intros Hne. destruct (lex_ltb (e_val a) (e_val b)) eqn:Hab; [by left|].
    destruct (lex_ltb (e_val b) (e_val a)) eqn:Hba; [by right|].
    destruct Hne. by apply lex_ltb_total.
Qed.

(** ** The theorems at a concrete heap *)

Lemma less_than_ok_witness :
  less_than (Ptr (e_node e_apple) 0) (Ptr (e_node e_banana) 0) h_three
  = Ok (lex_ltb (e_val e_apple) (e_val e_banana), h_three).
Proof.
  apply less_than_ok; (eapply queue_rep_elem_at; [apply h_three_ok|by_compute]).
Defined.

Lemma less_than_strict_order_witness :
  let lt x y := less_than (Ptr (e_node x) 0) (Ptr (e_node y) 0) h_three = Ok (true, h_three) in
  ~ lt e_apple e_apple /\
  (lt e_apple e_banana -> lt e_banana e_cherry -> lt e_apple e_cherry) /\
  (lt e_apple e_banana -> ~ lt e_banana e_apple) /\
  (e_val e_apple <> e_val e_banana -> lt e_apple e_banana \/ lt e_banana e_apple).
Proof.
  apply (less_than_strict_order h_three e_apple e_banana e_cherry);
    (eapply queue_rep_elem_at; [apply h_three_ok|by_compute]).
Defined.
