(* ===== verification/Merge.v ===== *)
(** * [q_merge]

    The merge of [q_sort] of [queue.c] on the linked nodes: the chains of
    two queue records are merged into a third, the smaller head first and
    the right head on a tie.  The invariant [merging] describes the heap
    between two statements of the loops; the specification says that the
    result is the chain of [merge] of [MergeSort.v] over the comparison of
    [Compare.v]. *)

From Stdlib Require Import ZArith Lia.
From stdpp Require Import gmap list.
From S2P Require Import Prelude Memory Structs CString ListSeg Fixtures Exec.
From S2P Require Import MergeSort Compare.

Local Open Scope Z_scope.
Local Open Scope M_scope.

(** ** The code *)

(** The first loop of [q_merge], [while (l && r)]: the smaller head, the
    right one on a tie, is linked after [q->tail].  It returns [l] and [r]
    as the loop leaves them. *)
Fixpoint q_merge_loop (fuel : nat) (q l r : ptr) : M heap (ptr * ptr) :=
  if is_null l || is_null r then ret (l, r)
  else
    match fuel with
    | O => throw OutOfFuel
    | S fuel' =>
        c <- less_than l r ;;
        x <- (if c : bool
              then l' <- load_ptr (next_of l) ;; ret (l, l', r)
              else r' <- load_ptr (next_of r) ;; ret (r, l, r')) ;;
        let '(cur, l', r') := x in
        tl <- load_ptr (tail_of q) ;;
        store (next_of tl) (VPtr cur) ;;;
        store (tail_of q) (VPtr cur) ;;;
        q_merge_loop fuel' q l' r'
    end.

(** The two loops that append what is left of one list, [while (l)] and
    [while (r)]: the same statements on either variable. *)
Fixpoint q_merge_rest (fuel : nat) (q l : ptr) : M heap unit :=
  if is_null l then ret tt
  else
    match fuel with
    | O => throw OutOfFuel
    | S fuel' =>
        tl <- load_ptr (tail_of q) ;;
        store (next_of tl) (VPtr l) ;;;
        store (tail_of q) (VPtr l) ;;;
        l' <- load_ptr (next_of l) ;;
        q_merge_rest fuel' q l'
    end.

(** [q_merge]. *)
Definition q_merge (left right q : ptr) : M heap unit :=
  l <- load_ptr (head_of left) ;;
  r <- load_ptr (head_of right) ;;
  c <- less_than l r ;;
  x <- (if c : bool
        then store (head_of q) (VPtr l) ;;;
             l' <- load_ptr (next_of l) ;; ret (l', r)
        else store (head_of q) (VPtr r) ;;;
             r' <- load_ptr (next_of r) ;; ret (l, r')) ;;
  let '(l, r) := x in
  hd <- load_ptr (head_of q) ;;
  store (tail_of q) (VPtr hd) ;;;
  h <- get_state ;;
  y <- q_merge_loop (fuel_of h) q l r ;;
  let '(l, r) := y in
  q_merge_rest (fuel_of h) q l ;;;
  q_merge_rest (fuel_of h) q r.

(** ** The invariant of the merge

    The output built so far is the chain [out ++ [t]]: [q->tail] is [t],
    whose [next] field [x] is not yet meaningful; [ls] and [rs] are what is
    left of the two inputs. *)
Record merging (h : heap) (q : loc) (hd : ptr) (sz : Z)
    (out : list elem) (t : elem) (x : ptr) (ls rs : list elem) : Prop := {
  mg_queue : h !! q = Some (queue_t hd (Ptr (e_node t) 0) sz);
  mg_out : nodes_ok h (out ++ [t]) x;
  mg_left : nodes_ok h ls Null;
  mg_right : nodes_ok h rs Null;
  mg_strs : strs_ok h (out ++ [t] ++ ls ++ rs);
  mg_nodup : NoDup (q :: locs (out ++ [t] ++ ls ++ rs))
}.

(** What the merge leaves: the chain [es] complete and [q->tail] at its
    last node. *)
Definition merged (q : loc) (hd : ptr) (sz : Z) (es : list elem) (h : heap) : Prop :=
  h !! q = Some (queue_t hd (last_ptr es) sz) /\ nodes_ok h es Null.

(** What follows the first loop of [q_merge]. *)
Definition q_merge_tail (q : loc) (f2 : nat) (y : ptr * ptr) : M heap unit :=
  let '(l, r) := y in
  q_merge_rest f2 (Ptr q 0) l ;;; q_merge_rest f2 (Ptr q 0) r.

(** ** The invariant step by step *)

Lemma merging_swap h q hd sz out t x ls rs :
  merging h q hd sz out t x ls rs -> merging h q hd sz out t x rs ls.
Proof.
  intros [Hq Ho Hl Hr Hs Hnd]. split; [done..| |].
  - unfold strs_ok. by rewrite (Permutation_app_comm rs ls).
  - by rewrite (Permutation_app_comm rs ls).
Qed.

(** One element goes from the left input to the output: [t->next = a],
    [q->tail = a]. *)
Lemma merging_take h q hd sz out t x a ls rs :
  merging h q hd sz out t x (a :: ls) rs ->
  merging (<[q := queue_t hd (Ptr (e_node a) 0) sz]>
             (<[e_node t := list_ele_t (Ptr (e_str t) 0) (Ptr (e_node a) 0)]> h))
          q hd sz (out ++ [t]) a (hd_ptr ls Null) ls rs.
Proof.
  intros [Hq Ho [Ha Hl] Hr Hs Hnd].
  apply nodes_ok_snoc in Ho as [Ho Ht].
  split.
  - by rewrite lookup_insert_eq.
  - rewrite !nodes_ok_snoc. split_and!.
    + do 2 (apply nodes_ok_insert_ne; [solve_notin|]). done.
    + rewrite lookup_insert_ne, lookup_insert_eq by solve_notin. done.
    + rewrite !lookup_insert_ne by solve_notin. done.
  - do 2 (apply nodes_ok_insert_ne; [solve_notin|]). done.
  - do 2 (apply nodes_ok_insert_ne; [solve_notin|]). done.
  - rewrite <- !app_assoc. do 2 (apply strs_ok_insert_ne; [solve_notin|]). done.
  - rewrite <- !app_assoc. done.
Qed.

Lemma merging_take_frame h q hd sz out t x a ls rs :
  merging h q hd sz out t x (a :: ls) rs ->
  same_outside [q; e_node t] h
    (<[q := queue_t hd (Ptr (e_node a) 0) sz]>
       (<[e_node t := list_ele_t (Ptr (e_str t) 0) (Ptr (e_node a) 0)]> h)).
Proof. intros _. solve_frame. Qed.

(** The statements [q->tail->next = a; q->tail = a] for the head [a] of
    the left input. *)
Lemma wp_take {B} h q hd sz out t x a ls rs (k : M heap B) R :
  merging h q hd sz out t x (a :: ls) rs ->
  (forall h', merging h' q hd sz (out ++ [t]) a (hd_ptr ls Null) ls rs ->
              same_outside [q; e_node t] h h' -> wpo k R h') ->
  wpo (tl <- load_ptr (tail_of (Ptr q 0)) ;;
       store (next_of tl) (VPtr (Ptr (e_node a) 0)) ;;;
       store (tail_of (Ptr q 0)) (VPtr (Ptr (e_node a) 0)) ;;;
       k) R h.
Proof.
  intros Hm Hk. pose proof (merging_take _ _ _ _ _ _ _ _ _ _ Hm) as Hm'.
  pose proof (merging_take_frame _ _ _ _ _ _ _ _ _ _ Hm) as Hf.
  destruct Hm as [Hq Ho _ _ _ Hnd]. apply nodes_ok_snoc in Ho as [_ Ht].
  do 3 wp_step. by apply Hk.
Qed.

Section Merge.
Context (q : loc) (hd : ptr) (sz : Z).

Lemma merging_done h out t :
  merging h q hd sz out t Null [] [] -> merged q hd sz (out ++ [t]) h.
Proof. intros [Hq Ho _ _ _ _]. split; [by rewrite last_ptr_snoc|done]. Qed.

Lemma q_merge_rest_spec ls : forall fuel h out t x,
  merging h q hd sz out t x ls [] -> (ls = [] -> x = Null) ->
  (length ls <= fuel)%nat ->
  wp (q_merge_rest fuel (Ptr q 0) (hd_ptr ls Null))
     (fun _ h' => merged q hd sz (out ++ [t] ++ ls) h' /\
                  same_outside (q :: node_locs (out ++ [t] ++ ls)) h h') h.
Proof.
  induction ls as [|a ls IH]; intros fuel h out t x Hm Hx Hfuel.
  - rewrite (Hx eq_refl) in Hm. destruct fuel; apply wp_ret;
      (split; [by apply merging_done|apply same_outside_refl]).
  - destruct fuel as [|fuel]; [simpl in Hfuel; lia|].
    cbn [q_merge_rest hd_ptr is_null].
    apply (wp_take _ _ _ _ _ _ _ _ _ _ _ _ Hm). intros h' Hm' Hf.
    pose proof (mg_out _ _ _ _ _ _ _ _ _ Hm') as [_ Ha]%nodes_ok_snoc.
    wp_step. eapply wp_mono.
    { apply (IH fuel _ _ _ _ Hm'); [by intros ->|simpl in Hfuel; lia]. }
    cbn beta. rewrite <- !app_assoc. intros _ h2 [Hmd Hf2]. split; [done|].
    eapply same_outside_trans; [|done].
    eapply same_outside_weaken; [|done]. autorewrite with locs. set_solver.
Qed.
Lemma q_merge_rest_null fuel p : q_merge_rest fuel p Null = ret tt.
Proof. by destruct fuel. Qed.

Lemma merging_heads h out t x a ls b rs :
  merging h q hd sz out t x (a :: ls) (b :: rs) -> elem_at h a /\ elem_at h b.
Proof.
  intros [_ _ [Ha _] [Hb _] Hs _]. unfold strs_ok in Hs.
  rewrite !Forall_app, !Forall_cons in Hs. split; split; eauto; tauto.
Qed.

Lemma q_merge_loop_stop fuel p l r :
  is_null l || is_null r = true -> q_merge_loop fuel p l r = ret (l, r).
Proof. destruct fuel; simpl; by intros ->. Qed.

(** The first loop when one input is empty: the rest of the other is
    appended by its own loop. *)
Lemma q_merge_loop_one fuel h out t x ls rs f2 :
  merging h q hd sz out t x ls rs -> ls <> [] \/ rs <> [] -> ls = [] \/ rs = [] ->
  (length ls + length rs <= f2)%nat ->
  wp (q_merge_loop fuel (Ptr q 0) (hd_ptr ls Null) (hd_ptr rs Null))
     (fun y => wp (q_merge_tail q f2 y)
        (fun _ h' => merged q hd sz (out ++ [t] ++ merge elem_ltb ls rs) h' /\
                     same_outside (q :: node_locs (out ++ [t] ++ ls ++ rs)) h h')) h.
Proof.
  intros Hm Hne [-> | ->] Hf2.
  - rewrite q_merge_loop_stop by done. apply wp_ret. unfold q_merge_tail.
    rewrite q_merge_rest_null. apply wp_bind, wp_ret. rewrite merge_nil_l.
    apply merging_swap in Hm. apply (q_merge_rest_spec _ _ _ _ _ _ Hm); [|simpl in *; lia].
    intros ->. by destruct Hne.
  - rewrite q_merge_loop_stop by apply orb_true_r. apply wp_ret. unfold q_merge_tail.
    rewrite merge_nil_r, app_nil_r in *. apply wp_bind. eapply wp_mono.
    { apply (q_merge_rest_spec _ _ _ _ _ _ Hm); [|simpl in *; lia].
      intros ->. by destruct Hne. }
    intros [] h' ?. rewrite q_merge_rest_null. by apply wp_ret.
Qed.

Lemma q_merge_loop_spec fuel : forall ls rs h out t x f2,
  merging h q hd sz out t x ls rs -> ls <> [] \/ rs <> [] ->
  (length ls + length rs <= fuel)%nat -> (length ls + length rs <= f2)%nat ->
  wp (q_merge_loop fuel (Ptr q 0) (hd_ptr ls Null) (hd_ptr rs Null))
     (fun y => wp (q_merge_tail q f2 y)
        (fun _ h' => merged q hd sz (out ++ [t] ++ merge elem_ltb ls rs) h' /\
                     same_outside (q :: node_locs (out ++ [t] ++ ls ++ rs)) h h')) h.
Proof.
  induction fuel as [|fuel IH]; intros ls rs h out t x f2 Hm Hne Hfuel Hf2;
    (destruct ls as [|a ls]; [by eapply q_merge_loop_one; eauto|]);
    (destruct rs as [|b rs]; [by eapply q_merge_loop_one; eauto|]);
    [simpl in Hfuel; lia|].
  destruct (merging_heads _ _ _ _ _ _ _ _ Hm) as [Ha Hb].
  cbn [q_merge_loop hd_ptr is_null orb]. apply wp_bind.
  eapply wp_ok; [by apply less_than_spec|]. rewrite merge_cons.
  destruct (elem_ltb a b).
  - pose proof (mg_left _ _ _ _ _ _ _ _ _ Hm) as [Hna _].
    apply wp_bind. wp_step. apply wp_ret.
    apply (wp_take _ _ _ _ _ _ _ _ _ _ _ _ Hm). intros h' Hm' Hf.
    eapply wp_mono.
    { apply (IH _ _ _ _ _ _ f2 Hm'); [by right|simpl in *; lia..]. }
    cbn beta. intros y h1 Hy. eapply wp_mono; [exact Hy|]. cbn beta.
    rewrite <- !app_assoc. intros _ h2 [Hmd Hf2']. split; [done|].
    eapply same_outside_trans; [|done].
    eapply same_outside_weaken; [|done]. autorewrite with locs. set_solver.
  - pose proof (mg_right _ _ _ _ _ _ _ _ _ Hm) as [Hnb _].
    apply wp_bind. wp_step. apply wp_ret.
    apply merging_swap in Hm.
    apply (wp_take _ _ _ _ _ _ _ _ _ _ _ _ Hm). intros h' Hm'%merging_swap Hf.
    eapply wp_mono.
    { apply (IH _ _ _ _ _ _ f2 Hm'); [by left|simpl in *; lia..]. }
    cbn beta. intros y h1 Hy. eapply wp_mono; [exact Hy|]. cbn beta.
    rewrite <- !app_assoc. intros _ h2 [Hmd Hf2']. split; [done|].
    eapply same_outside_trans; [|eapply same_outside_weaken; [|done]].
    + eapply same_outside_weaken; [|done]. autorewrite with locs. set_solver.
    + autorewrite with locs. set_solver.
Qed.
End Merge.

(** Every element of the merge is in the heap, so the heap has more
    blocks than there are elements: the fuel of [q_merge] is enough. *)
Lemma merging_allocated h q hd sz out t x ls rs l :
  merging h q hd sz out t x ls rs -> l ∈ locs (out ++ [t] ++ ls ++ rs) ->
  is_Some (h !! l).
Proof.
  intros [_ Ho Hl Hr Hs _] (e & He & Hl')%elem_of_locs. destruct Hl' as [-> | ->].
  - rewrite app_assoc in He. apply elem_of_app in He as [?|[?|?]%elem_of_app];
      [eapply nodes_ok_node_allocated; [exact Ho|done]
      |eapply nodes_ok_node_allocated; [exact Hl|done]
      |eapply nodes_ok_node_allocated; [exact Hr|done]].
  - unfold strs_ok in Hs. rewrite Forall_forall in Hs.
    destruct (Hs e He) as [Hstr _]. eauto.
Qed.

Lemma merging_fuel h q hd sz out t x ls rs :
  merging h q hd sz out t x ls rs -> (length ls + length rs < fuel_of h)%nat.
Proof.
  intros Hm. pose proof (mg_nodup _ _ _ _ _ _ _ _ _ Hm) as [_ Hnd]%NoDup_cons.
  pose proof (allocated_le_size _ h Hnd) as Hle.
  rewrite locs_length, !length_app in Hle. unfold fuel_of.
  specialize (Hle (fun l => merging_allocated _ _ _ _ _ _ _ _ _ l Hm)). lia.
Qed.

(** [q_merge] from the first element on: [q->head] is [a], which came
    from the input [ls]. *)
Lemma wp_merge_from h q sz v1 a x ls rs :
  h !! q = Some [VPtr (Ptr (e_node a) 0); v1; VInt sz] ->
  h !! e_node a = Some (list_ele_t (Ptr (e_str a) 0) x) ->
  nodes_ok h ls Null -> nodes_ok h rs Null ->
  strs_ok h (a :: ls ++ rs) -> NoDup (q :: locs (a :: ls ++ rs)) ->
  ls <> [] \/ rs <> [] ->
  wp (hd <- load_ptr (head_of (Ptr q 0)) ;;
      store (tail_of (Ptr q 0)) (VPtr hd) ;;;
      h <- get_state ;;
      y <- q_merge_loop (fuel_of h) (Ptr q 0) (hd_ptr ls Null) (hd_ptr rs Null) ;;
      let '(l, r) := y in
      q_merge_rest (fuel_of h) (Ptr q 0) l ;;;
      q_merge_rest (fuel_of h) (Ptr q 0) r)
     (fun _ h' => merged q (Ptr (e_node a) 0) sz (a :: merge elem_ltb ls rs) h' /\
                  same_outside (q :: node_locs (a :: ls ++ rs)) h h') h.
Proof.
  intros Hq Ha Hl Hr Hs Hnd Hne. wp_steps. apply wp_get.
  set (h1 := <[q := _]> h).
  assert (merging h1 q (Ptr (e_node a) 0) sz [] a x ls rs) as Hm.
  { pose proof Hnd as [? _]%NoDup_cons. subst h1. split; simpl.
    - by rewrite lookup_insert_eq.
    - rewrite lookup_insert_ne by solve_notin. done.
    - apply nodes_ok_insert_ne; [solve_notin|done].
    - apply nodes_ok_insert_ne; [solve_notin|done].
    - apply strs_ok_insert_ne; [solve_notin|done].
    - done. }
  pose proof (merging_fuel _ _ _ _ _ _ _ _ _ Hm).
  apply wp_bind. eapply wp_mono.
  { apply (q_merge_loop_spec _ _ _ _ _ _ _ _ _ _ (fuel_of h1) Hm); [done|lia..]. }
  cbn beta. intros y h2 Hy. eapply wp_mono; [exact Hy|]. cbn beta.
  intros [] h3 [Hmd Hf]. split; [done|]. simpl in Hf.
  eapply same_outside_trans; [|done]. subst h1. solve_frame.
Qed.

(** [q_merge] of two chains that are not empty: the queue record [q]
    receives the merge of the two, with [tail] at its last node; [size]
    is not written. *)
Lemma q_merge_spec h bl br q sz (v0 v1 vl1 vl2 vr1 vr2 : val) ls rs :
  h !! bl = Some [VPtr (hd_ptr ls Null); vl1; vl2] ->
  h !! br = Some [VPtr (hd_ptr rs Null); vr1; vr2] ->
  h !! q = Some [v0; v1; VInt sz] -> ls <> [] -> rs <> [] ->
  nodes_ok h ls Null -> nodes_ok h rs Null ->
  strs_ok h (ls ++ rs) -> NoDup (q :: locs (ls ++ rs)) ->
  wp (q_merge (Ptr bl 0) (Ptr br 0) (Ptr q 0))
     (fun _ h' =>
        merged q (hd_ptr (merge elem_ltb ls rs) Null) sz (merge elem_ltb ls rs) h' /\
        same_outside (q :: node_locs (ls ++ rs)) h h') h.
Proof.
  intros Hbl Hbr Hq Hls Hrs Hl Hr Hs Hnd.
  destruct ls as [|a ls]; [done|]. destruct rs as [|b rs]; [done|].
  pose proof Hl as [Ha Hl']. pose proof Hr as [Hb Hr'].
  assert (elem_at h a /\ elem_at h b) as [Hea Heb].
  { unfold strs_ok in Hs. rewrite Forall_app, !Forall_cons in Hs.
    split; split; eauto; tauto. }
  unfold q_merge. do 2 wp_step. apply wp_bind.
  eapply wp_ok; [by apply less_than_spec|]. rewrite merge_cons.
  destruct (elem_ltb a b);
    (match goal with |- wp _ ?Q _ => set (Post := Q) end);
    apply wp_bind; do 3 wp_step; cbn beta iota; cbn [hd_ptr]; subst Post.
  - eapply wp_mono.
    { eapply (wp_merge_from _ _ _ _ a _ ls (b :: rs)); [solve_lookup..| | | | |by right].
      - apply nodes_ok_insert_ne; [solve_notin|done].
      - apply nodes_ok_insert_ne; [solve_notin|done].
      - apply strs_ok_insert_ne; [solve_notin|done].
      - done. }
    intros [] h' [Hmd Hf]. split; [done|].
    eapply same_outside_trans; [|done]. solve_frame.
  - eapply wp_mono.
    { eapply (wp_merge_from _ _ _ _ b _ (a :: ls) rs); [solve_lookup..| | | | |by left].
      - apply nodes_ok_insert_ne; [solve_notin|done].
      - apply nodes_ok_insert_ne; [solve_notin|done].
      - apply strs_ok_insert_ne; [solve_notin|].
        unfold strs_ok. by rewrite (Permutation_middle (a :: ls)).
      - by rewrite (Permutation_middle (a :: ls)). }
    intros [] h' [Hmd Hf]. split; [done|].
    eapply same_outside_trans; [|eapply same_outside_weaken; [|exact Hf]].
    + solve_frame.
    + autorewrite with locs. set_solver.
Qed.

(** [q_merge] of two queues that are not empty. *)
Lemma q_merge_queues h bl br q sz (v0 v1 : val) ls rs tl tr :
  queue_rep h bl ls tl -> queue_rep h br rs tr ->
  h !! q = Some [v0; v1; VInt sz] -> ls <> [] -> rs <> [] ->
  NoDup (q :: locs (ls ++ rs)) ->
  wp (q_merge (Ptr bl 0) (Ptr br 0) (Ptr q 0))
     (fun _ h' =>
        merged q (hd_ptr (merge elem_ltb ls rs) Null) sz (merge elem_ltb ls rs) h' /\
        same_outside (q :: node_locs (ls ++ rs)) h h') h.
Proof.
  intros [Hbl Hl Hsl _] [Hbr Hr Hsr _] Hq Hls Hrs Hnd.
  eapply q_merge_spec; [exact Hbl|exact Hbr|exact Hq|done..| |done].
  by apply Forall_app.
Qed.

(** The strings of a merge are those of its inputs, which it does not
    write. *)
Lemma merged_strs h h' (q : loc) ls rs :
  strs_ok h (ls ++ rs) -> NoDup (q :: locs (ls ++ rs)) ->
  same_outside (q :: node_locs (ls ++ rs)) h h' ->
  strs_ok h' (merge elem_ltb ls rs).
Proof.
  intros Hs Hnd Hf.
  eapply strs_ok_agree; [|unfold strs_ok; rewrite merge_perm; exact Hs].
  eapply same_outside_agree; [|done].
  intros l Hl. rewrite merge_perm in Hl. revert l Hl. nodup_solver.
Qed.

(** ** The contract of [q_merge], as a run *)

(** C10: [q_merge] of two chains that are not empty returns without
    fault; the queue record [q] receives the merge of the two chains on
    the same nodes and strings, the smaller head first and the right head
    on a tie, with [head] at its first node and [tail] at its last;
    [size] is not written, and nothing but [q] and the nodes is. *)
Theorem q_merge_ok h bl br q sz (v0 v1 vl1 vl2 vr1 vr2 : val) ls rs :
  h !! bl = Some [VPtr (hd_ptr ls Null); vl1; vl2] ->
  h !! br = Some [VPtr (hd_ptr rs Null); vr1; vr2] ->
  h !! q = Some [v0; v1; VInt sz] -> ls <> [] -> rs <> [] ->
  nodes_ok h ls Null -> nodes_ok h rs Null ->
  strs_ok h (ls ++ rs) -> NoDup (q :: locs (ls ++ rs)) ->
  exists h', q_merge (Ptr bl 0) (Ptr br 0) (Ptr q 0) h = Ok (tt, h') /\
    h' !! q = Some (queue_t (hd_ptr (merge elem_ltb ls rs) Null)
                            (last_ptr (merge elem_ltb ls rs)) sz) /\
    nodes_ok h' (merge elem_ltb ls rs) Null /\
    strs_ok h' (merge elem_ltb ls rs) /\
    same_outside (q :: node_locs (ls ++ rs)) h h'.
Proof.
  intros Hbl Hbr Hq Hls Hrs Hl Hr Hs Hnd.
  pose proof (q_merge_spec h bl br q sz v0 v1 vl1 vl2 vr1 vr2 ls rs
                Hbl Hbr Hq Hls Hrs Hl Hr Hs Hnd) as Hwp.
  apply wp_run in Hwp as ([] & h' & Hrun & [Hq' Hn'] & Hf).
  exists h'. split_and!; [done..| |done]. by eapply merged_strs.
Qed.

(** ** The theorem at a concrete heap *)

Lemma q_merge_ok_witness :
  exists h', q_merge (Ptr 8 0) (Ptr 9 0) (Ptr 1 0) h_halves = Ok (tt, h') /\
    h' !! 1%positive
      = Some (queue_t (hd_ptr (merge elem_ltb [e_banana; e_cherry] [e_apple]) Null)
                      (last_ptr (merge elem_ltb [e_banana; e_cherry] [e_apple])) 3) /\
    nodes_ok h' (merge elem_ltb [e_banana; e_cherry] [e_apple]) Null /\
    strs_ok h' (merge elem_ltb [e_banana; e_cherry] [e_apple]) /\
    same_outside (1%positive :: node_locs ([e_banana; e_cherry] ++ [e_apple])) h_halves h'.
Proof.
  apply (q_merge_ok h_halves 8 9 1 3 (VPtr Null) (VPtr Null)
           (VPtr (Ptr 6 0)) (VInt 2) (VPtr (Ptr 4 0)) (VInt 1)); by_compute.
Defined.
