(* ===== verification/Sort.v ===== *)
(** * [q_sort]

    The merge sort of [queue.c] on the linked nodes: [q_sort] splits the
    chain at [ceil(size/2)] into two queue records of its own stack frame,
    sorts both and merges them back with [q_merge].  The theorems say that
    the result is the queue of [msort] of [MergeSort.v] over the
    comparison of [Compare.v]. *)

From Stdlib Require Import ZArith Lia Sorted.
From stdpp Require Import gmap list sorting.
From S2P Require Import Prelude Memory Structs CString ListSeg Fixtures Exec.
From S2P Require Import MergeSort Compare Merge.

Local Open Scope Z_scope.
Local Open Scope M_scope.

(** ** The code *)

(** The loop of [q_sort]: [for (i = 0; i < left.size - 1; i++) ptr =
    ptr->next], with [p] for the variable [ptr]. *)
Fixpoint q_sort_walk (fuel : nat) (left : ptr) (i : Z) (p : ptr) : M heap ptr :=
  sz <- load_int (size_of left) ;;
  lim <- int_arith (sz - 1) ;;
  if decide (i < lim) then
    match fuel with
    | O => throw OutOfFuel
    | S fuel' =>
        nxt <- load_ptr (next_of p) ;;
        i' <- int_arith (i + 1) ;;
        q_sort_walk fuel' left i' nxt
    end
  else ret p.

(** The split of [q_sort]: the statements between the declarations of
    [left] and [right] and the recursive calls. *)
Definition q_sort_split (q left right : ptr) : M heap unit :=
  hd <- load_ptr (head_of q) ;;
  store (head_of left) (VPtr hd) ;;;
  tl <- load_ptr (tail_of q) ;;
  store (tail_of right) (VPtr tl) ;;;
  sz1 <- load_int (size_of q) ;;
  sz2 <- load_int (size_of q) ;;
  ls <- int_arith (Z.shiftr sz1 1 + Z.land sz2 1) ;;
  store (size_of left) (VInt ls) ;;;
  sz3 <- load_int (size_of q) ;;
  store (size_of right) (VInt (Z.shiftr sz3 1)) ;;;
  ptr <- load_ptr (head_of q) ;;
  h <- get_state ;;
  ptr <- q_sort_walk (fuel_of h) left 0 ptr ;;
  store (tail_of left) (VPtr ptr) ;;;
  nxt <- load_ptr (next_of ptr) ;;
  store (head_of right) (VPtr nxt) ;;;
  lt <- load_ptr (tail_of left) ;;
  store (next_of lt) (VPtr Null) ;;;
  store (head_of q) (VPtr Null) ;;;
  store (tail_of q) (VPtr Null).

(** [q_sort], with [left] and [right] in blocks of the stack frame of the
    call.  The fuel bounds the depth of the recursion. *)
Fixpoint q_sort_rec (fuel : nat) (q : ptr) : M heap unit :=
  if is_null q then ret tt
  else
    sz <- load_int (size_of q) ;;
    if decide (sz < 2) then ret tt
    else
      match fuel with
      | O => throw OutOfFuel
      | S fuel' =>
          left <- stack_alloc 3 ;;
          right <- stack_alloc 3 ;;
          q_sort_split q left right ;;;
          q_sort_rec fuel' left ;;;
          q_sort_rec fuel' right ;;;
          q_merge left right q ;;;
          stack_free right ;;;
          stack_free left
      end.

Definition q_sort (q : ptr) : M heap unit :=
  h <- get_state ;;
  q_sort_rec (fuel_of h) q.

(** What the split of [q_sort] leaves: the two halves as queues of the
    stack frame, the queue record empty. *)
Record split_ok (h h' : heap) (q : loc) (es : list elem) (tl : ptr)
    (bl br : loc) : Prop := {
  sp_left_fresh : h !! bl = None;
  sp_right_fresh : h !! br = None;
  sp_ne : bl <> br;
  sp_left : queue_ok h' bl (take (left_size (length es)) es);
  sp_right : queue_rep h' br (drop (left_size (length es)) es) tl;
  sp_queue : h' !! q = Some (queue_t Null Null (Z.of_nat (length es)));
  sp_nodup : NoDup (bl :: br :: q :: locs (take (left_size (length es)) es ++
                                          drop (left_size (length es)) es));
  sp_frame : same_outside (q :: bl :: br :: node_locs es) h h'
}.

(** The heap that the split of the queue [l1 ++ e :: l2] after [e] leaves,
    [bl] and [br] being the blocks of [left] and [right]. *)
Definition split_heap (h : heap) (q : loc) (l1 : list elem) (e : elem)
    (l2 : list elem) (tl : ptr) (bl br : loc) : heap :=
  let n := length (l1 ++ e :: l2) in
  <[q := queue_t Null Null (Z.of_nat n)]>
    (<[e_node e := list_ele_t (Ptr (e_str e) 0) Null]>
       (<[br := queue_t (hd_ptr l2 Null) tl (Z.of_nat (n / 2))]>
          (<[bl := queue_t (hd_ptr (l1 ++ e :: l2) Null) (Ptr (e_node e) 0)
                           (Z.of_nat (left_size n))]> h))).

(** The postcondition of [q_sort]. *)
Definition sorted_post (h : heap) (q : loc) (es : list elem) (tl : ptr)
    (h' : heap) : Prop :=
  queue_rep h' q (msort elem_ltb es)
    (if decide (length es < 2)%nat then tl else last_ptr (msort elem_ltb es)) /\
  same_outside (q :: node_locs es) h h'.

(** ** The split *)

Lemma left_size_Z (n : nat) :
  Z.shiftr (Z.of_nat n) 1 + Z.land (Z.of_nat n) 1 = Z.of_nat (left_size n).
Proof. rewrite shiftr_half, land_one. unfold left_size. lia. Qed.


(** The loop of [q_sort] walks from the node at position [i] to the node
    at position [k - 1], where [k] is [left.size]. *)
Lemma q_sort_walk_spec l1 : forall fuel h bl (v0 v1 : val) (k : nat) i e l2 y,
  h !! bl = Some [v0; v1; VInt (Z.of_nat k)] ->
  nodes_ok h (l1 ++ e :: l2) y ->
  Z.of_nat k <= INT_MAX -> 0 <= i -> i + Z.of_nat (length l1) = Z.of_nat k - 1 ->
  (length l1 <= fuel)%nat ->
  q_sort_walk fuel (Ptr bl 0) i (hd_ptr (l1 ++ e :: l2) y) h = Ok (Ptr (e_node e) 0, h).
Proof.
  induction l1 as [|e' l1 IH]; intros fuel h bl v0 v1 k i e l2 y Hbl Hn Hk Hi Hik Hfuel;
    apply wp_eq.
  - destruct fuel; simpl; wp_steps; (apply wp_int_arith; [unfold INT_MIN, INT_MAX in *; simpl in *; lia|]);
      rewrite decide_False by (simpl in *; lia); by apply wp_ret.
  - destruct fuel as [|fuel]; [simpl in Hfuel; lia|]. destruct Hn as [He' Hn].
    cbn [q_sort_walk app hd_ptr]. wp_steps.
    apply wp_int_arith; [unfold INT_MIN, INT_MAX in *; simpl in *; lia|].
    rewrite decide_True by (simpl in *; lia). wp_steps.
    apply wp_int_arith; [unfold INT_MIN, INT_MAX in *; simpl in *; lia|].
    eapply wp_ok; [|done]. eapply IH; [done..|lia|simpl in *; lia|simpl in *; lia].
Qed.

(** The blocks of a queue and of the two records of a call. *)
Lemma split_nodup h (q : loc) es tl bl br :
  queue_rep h q es tl -> h !! bl = None -> h !! br = None -> bl <> br ->
  NoDup (bl :: br :: q :: locs es).
Proof.
  intros Hrep Hbl%(queue_rep_fresh _ _ _ _ _ Hrep) Hbr%(queue_rep_fresh _ _ _ _ _ Hrep) Hne.
  apply NoDup_cons. split; [|apply NoDup_cons; split; [done|apply Hrep]].
  apply not_elem_of_cons. by split.
Qed.

(** The statements of the split, run: they leave [split_heap]. *)
Lemma q_sort_split_run h q l1 e l2 tl bl br :
  queue_rep h q (l1 ++ e :: l2) tl ->
  S (length l1) = left_size (length (l1 ++ e :: l2)) ->
  Z.of_nat (length (l1 ++ e :: l2)) <= INT_MAX ->
  h !! bl = None -> h !! br = None -> bl <> br ->
  q_sort_split (Ptr q 0) (Ptr bl 0) (Ptr br 0)
    (<[br := replicate 3 VUndef]> (<[bl := replicate 3 VUndef]> h))
  = Ok (tt, split_heap h q l1 e l2 tl bl br).
Proof.
  intros Hrep Hl1 Hmax Hbl Hbr Hne. apply wp_eq.
  pose proof (split_nodup _ _ _ _ _ _ Hrep Hbl Hbr Hne) as Hnd'.
  destruct Hrep as [Hq Hn Hs Hnd]. unfold split_heap.
  remember (length (l1 ++ e :: l2)) as n eqn:En.
  pose proof Hn as [Hn1 [He Hn2]]%nodes_ok_app.
  pose proof (left_size_le n) as Hls.
  unfold q_sort_split. simpl replicate. wp_run.
  apply wp_int_arith; [rewrite left_size_Z; int_lia|].
  rewrite left_size_Z. wp_run. apply wp_get. rewrite shiftr_half. apply wp_bind.
  eapply wp_ok.
  { eapply (q_sort_walk_spec l1 _ _ bl _ _ (left_size n) 0 e l2 Null);
      [solve_lookup| |lia|done|lia|].
    - repeat (apply nodes_ok_insert_ne; [solve_notin|]). done.
    - apply NoDup_cons in Hnd as [_ Hnd].
      pose proof (fuel_of_enough _ _ _ Hn Hs Hnd) as Hf. rewrite length_app in Hf.
      repeat (etrans; [|apply fuel_of_insert_ge]). lia. }
  wp_run_to_end. done.
Qed.

(** [split_heap] holds the two halves as queues. *)
Lemma split_heap_ok h q l1 e l2 tl bl br :
  queue_rep h q (l1 ++ e :: l2) tl ->
  S (length l1) = left_size (length (l1 ++ e :: l2)) ->
  h !! bl = None -> h !! br = None -> bl <> br ->
  take (left_size (length (l1 ++ e :: l2))) (l1 ++ e :: l2) = l1 ++ [e] ->
  drop (left_size (length (l1 ++ e :: l2))) (l1 ++ e :: l2) = l2 ->
  split_ok h (split_heap h q l1 e l2 tl bl br) q (l1 ++ e :: l2) tl bl br.
Proof.
  intros Hrep Hl1 Hbl Hbr Hne Htake Hdrop.
  pose proof (split_nodup _ _ _ _ _ _ Hrep Hbl Hbr Hne) as Hnd'.
  destruct Hrep as [Hq Hn Hs Hnd]. unfold split_heap.
  remember (length (l1 ++ e :: l2)) as n eqn:En.
  pose proof Hn as [Hn1 [He Hn2]]%nodes_ok_app.
  pose proof Hnd as [_ [Hndl Hndr]%NoDup_locs_split]%NoDup_cons.
  unfold strs_ok in Hs. rewrite cons_middle, app_assoc, Forall_app in Hs.
  destruct Hs as [Hsl Hsr].
  split; rewrite <- ?En, ?Htake, ?Hdrop;
    [done..| | |solve_lookup|by rewrite <- app_assoc|solve_frame].
  - split.
    + rewrite last_ptr_snoc, length_app, !hd_ptr_app. simpl.
      replace (length l1 + 1)%nat with (left_size n) by lia. solve_lookup.
    + apply nodes_ok_snoc. split; [|solve_lookup].
      repeat (apply nodes_ok_insert_ne; [solve_notin|]). done.
    + repeat (apply strs_ok_insert_ne; [solve_notin|]). done.
    + apply NoDup_cons. split; [solve_notin|done].
  - split.
    + replace (length l2) with (n `div` 2)%nat; [solve_lookup|].
      pose proof (left_size_right n). rewrite length_app in En. simpl in En. lia.
    + repeat (apply nodes_ok_insert_ne; [solve_notin|]). done.
    + repeat (apply strs_ok_insert_ne; [solve_notin|]). done.
    + apply NoDup_cons. split; [solve_notin|done].
Qed.

(** The declarations of [left] and [right] and the split, on a queue of
    two elements or more. *)
Lemma wp_sort_split {B} h q es tl (k : ptr -> ptr -> M heap B) R :
  queue_rep h q es tl -> (2 <= length es)%nat -> Z.of_nat (length es) <= INT_MAX ->
  (forall bl br h', split_ok h h' q es tl bl br -> wpo (k (Ptr bl 0) (Ptr br 0)) R h') ->
  wpo (left <- stack_alloc 3 ;;
       right <- stack_alloc 3 ;;
       q_sort_split (Ptr q 0) left right ;;;
       k left right) R h.
Proof.
  intros Hrep Hlen Hmax Hk.
  destruct (split_at_left_size es Hlen) as (l1 & e & l2 & -> & Htake & Hdrop & Hl1).
  apply wp_bind, wp_stack_alloc. intros bl Hbl.
  apply wp_bind, wp_stack_alloc. intros br Hbr.
  assert (bl <> br) as Hne by (intros ->; by rewrite lookup_insert_eq in Hbr).
  rewrite lookup_insert_ne in Hbr by done.
  apply wp_bind. eapply wp_ok; [by apply q_sort_split_run|].
  by apply Hk, split_heap_ok.
Qed.

(** ** The recursion *)

(** The result of [q_sort] on two elements or more, from what [q_merge]
    leaves and the blocks of the stack frame released. *)
Lemma sorted_post_intro h h4 q es tl bl br :
  queue_rep h q es tl -> (2 <= length es)%nat ->
  h !! bl = None -> h !! br = None -> bl <> br ->
  merged q (hd_ptr (msort elem_ltb es) Null) (Z.of_nat (length es))
    (msort elem_ltb es) h4 ->
  same_outside (q :: bl :: br :: node_locs es) h h4 ->
  sorted_post h q es tl (delete bl (delete br h4)).
Proof.
  intros Hrep Hlen Hbl Hbr Hne [Hq4 Hn4] Hf.
  pose proof (queue_rep_fresh _ _ _ _ _ Hrep Hbl) as Hbl'.
  pose proof (queue_rep_fresh _ _ _ _ _ Hrep Hbr) as Hbr'.
  destruct Hrep as [Hq Hn Hs Hnd].
  assert (NoDup (bl :: br :: q :: locs es)) as Hnd0.
  { apply NoDup_cons. split; [|by apply NoDup_cons].
    apply not_elem_of_cons. by split. }
  pose proof Hnd0 as Hnd'. rewrite <- (msort_perm elem_ltb es) in Hnd'.
  split; [|by apply same_outside_free]. rewrite decide_False by lia. split.
  - rewrite !lookup_delete_ne by nodup_solver. by rewrite msort_length.
  - do 2 (apply nodes_ok_delete_ne; [nodup_solver|]). done.
  - do 2 (apply strs_ok_delete_ne; [nodup_solver|]).
    eapply strs_ok_agree; [|unfold strs_ok; rewrite msort_perm; exact Hs].
    eapply same_outside_agree; [|done].
    intros l Hl. rewrite msort_perm in Hl. revert l Hl. nodup_solver.
  - nodup_solver.
Qed.

(** What the four parts of a call write, together. *)
Lemma sort_frame h h1 h2 h3 h4 (q bl br : loc) L R :
  same_outside (q :: bl :: br :: node_locs (L ++ R)) h h1 ->
  same_outside (bl :: node_locs L) h1 h2 ->
  same_outside (br :: node_locs R) h2 h3 ->
  same_outside (q :: node_locs (L ++ R)) h3 h4 ->
  same_outside (q :: bl :: br :: node_locs (L ++ R)) h h4.
Proof.
  intros Hf1 Hf2 Hf3 Hf4. eapply same_outside_trans; [exact Hf1|].
  eapply same_outside_trans; [eapply same_outside_weaken; [|exact Hf2]|].
  { autorewrite with locs. set_solver. }
  eapply same_outside_trans; eapply same_outside_weaken; [|exact Hf3| |exact Hf4].
  - autorewrite with locs. set_solver.
  - set_solver.
Qed.

Section Conquer.
Context (fuel : nat).
Hypothesis IH : forall h q es tl,
  queue_rep h q es tl -> (length es <= 2 ^ fuel)%nat -> Z.of_nat (length es) <= INT_MAX ->
  wp (q_sort_rec fuel (Ptr q 0)) (fun _ h' => sorted_post h q es tl h') h.

Lemma wp_sort_conquer h h1 q es tl bl br :
  queue_rep h q es tl -> (2 <= length es <= 2 ^ S fuel)%nat ->
  Z.of_nat (length es) <= INT_MAX -> split_ok h h1 q es tl bl br ->
  wp (q_sort_rec fuel (Ptr bl 0) ;;;
      q_sort_rec fuel (Ptr br 0) ;;;
      q_merge (Ptr bl 0) (Ptr br 0) (Ptr q 0) ;;;
      stack_free (Ptr br 0) ;;;
      stack_free (Ptr bl 0))
     (fun _ h' => sorted_post h q es tl h') h1.
Proof.
  intros Hrep Hlen Hmax [Hbl Hbr Hne HL HR Hq Hnd Hf].
  pose proof (left_size_bounds (length es) ltac:(lia)) as Hk.
  pose proof (left_size_half (length es) fuel ltac:(lia)) as Hhalf.
  pose proof (msort_split elem_ltb es ltac:(lia)) as Hms.
  pose proof (take_drop (left_size (length es)) es) as Hes.
  assert (length (take (left_size (length es)) es) = left_size (length es)) as HlenL
    by (rewrite length_take; lia).
  assert (length (drop (left_size (length es)) es) = (length es - left_size (length es))%nat)
    as HlenR by apply length_drop.
  remember (take (left_size (length es)) es) as L eqn:EL in *.
  remember (drop (left_size (length es)) es) as R eqn:ER in *.
  pose proof Hnd as Hnd1. rewrite <- (msort_perm elem_ltb L) in Hnd1.
  pose proof Hnd1 as Hnd2. rewrite <- (msort_perm elem_ltb R) in Hnd2.
  apply wp_bind. eapply wp_mono; [apply (IH _ _ _ _ HL); lia|].
  intros [] h2 [HL2 Hf2].
  assert (queue_rep h2 br R tl) as HR2
    by (eapply queue_rep_frame; [exact Hf2| |done]; nodup_solver).
  apply wp_bind. eapply wp_mono; [apply (IH _ _ _ _ HR2); lia|].
  intros [] h3 [HR3 Hf3].
  eapply queue_rep_frame in HL2; [|exact Hf3|nodup_solver].
  assert (h3 !! q = Some (queue_t Null Null (Z.of_nat (length es)))) as Hq3
    by (rewrite Hf3, Hf2 by nodup_solver; done).
  apply wp_bind. eapply wp_mono.
  { eapply (q_merge_queues _ bl br q); [exact HL2|exact HR3|exact Hq3|..|nodup_solver];
      apply msort_not_nil; lia. }
  intros [] h4 [Hmd Hf4]. apply wp_bind, wp_stack_free, wp_stack_free.
  rewrite <- Hms in Hmd. apply sorted_post_intro; [done|lia|done..|].
  rewrite !msort_perm in Hf4. rewrite <- Hes in Hf |- *. by eapply sort_frame.
Qed.
End Conquer.

Lemma sorted_post_small h q es tl :
  queue_rep h q es tl -> (length es < 2)%nat -> sorted_post h q es tl h.
Proof.
  intros Hrep Hs. split; [|apply same_outside_refl].
  by rewrite msort_small, decide_True.
Qed.

(** [q_sort] on a represented queue, for a depth of recursion that the
    fuel covers: every level halves the queue. *)
Lemma q_sort_rec_spec fuel : forall h q es tl,
  queue_rep h q es tl -> (length es <= 2 ^ fuel)%nat -> Z.of_nat (length es) <= INT_MAX ->
  wp (q_sort_rec fuel (Ptr q 0)) (fun _ h' => sorted_post h q es tl h') h.
Proof.
  induction fuel as [|fuel IH]; intros h q es tl Hrep Hfuel Hmax;
    pose proof (rep_queue _ _ _ _ Hrep) as Hq; cbn [q_sort_rec is_null]; wp_step;
    (destruct (decide (length es < 2)%nat) as [Hs|Hs];
     [rewrite decide_True by lia; by apply wp_ret, sorted_post_small
     |rewrite decide_False by lia]); [simpl in Hfuel; lia|].
  apply (wp_sort_split h q es tl); [done|lia|done|].
  intros bl br h1 Hsp. apply (wp_sort_conquer fuel IH h h1 q es tl bl br); [done|lia|done..].
Qed.

Lemma q_sort_spec h q es tl :
  queue_rep h q es tl -> Z.of_nat (length es) <= INT_MAX ->
  wp (q_sort (Ptr q 0)) (fun _ h' => sorted_post h q es tl h') h.
Proof.
  intros Hrep Hmax. unfold q_sort. apply wp_bind, wp_get.
  apply q_sort_rec_spec; [done| |done].
  destruct Hrep as [_ Hn Hs [_ Hnd]%NoDup_cons].
  pose proof (fuel_of_enough _ _ _ Hn Hs Hnd).
  pose proof (Nat.pow_gt_lin_r 2 (fuel_of h)). lia.
Qed.

(** ** What the postcondition says of the result *)

(** The result is sorted: no element is after a later one. *)
Lemma msort_elem_sorted es :
  StronglySorted (fun a b => lex_le (e_val a) (e_val b)) (msort elem_ltb es).
Proof.
  apply (msort_strongly_sorted elem_ltb); unfold elem_ltb.
  - intros a b. apply lex_ltb_asym.
  - intros a b c. apply lex_ltb_neg_trans.
Qed.

(** The strings of the result are those that the merge sort of stdpp
    produces from the strings of the queue. *)
Lemma msort_contents es :
  contents (msort elem_ltb es) = merge_sort lex_le (contents es).
Proof.
  apply (StronglySorted_unique lex_le).
  - eapply StronglySorted_fmap; [|apply msort_elem_sorted]. done.
  - apply StronglySorted_merge_sort; apply _.
  - unfold contents. by rewrite merge_sort_Permutation, msort_perm.
Qed.

(** Sorting what is sorted keeps the strings where they are. *)
Lemma msort_contents_idem es :
  contents (msort elem_ltb (msort elem_ltb es)) = contents (msort elem_ltb es).
Proof.
  apply (StronglySorted_unique lex_le).
  - eapply StronglySorted_fmap; [|apply msort_elem_sorted]. done.
  - eapply StronglySorted_fmap; [|apply msort_elem_sorted]. done.
  - unfold contents. by rewrite msort_perm.
Qed.

(** [q_sort] allocates and releases its two records: the blocks of the
    heap are the same before and after. *)
Lemma sorted_post_dom h h' q es tl :
  queue_rep h q es tl -> sorted_post h q es tl h' -> dom h' = dom h.
Proof.
  intros Hrep [Hrep' Hf]. eapply same_outside_dom; [done|]. intros l Hl. split.
  - eapply queue_rep_allocated; [exact Hrep|]. set_solver.
  - eapply queue_rep_allocated; [exact Hrep'|]. rewrite msort_perm. set_solver.
Qed.

(** ** The contract of [q_sort], as runs *)

(** C3: [q_sort] on a represented queue, whatever its [tail] field
    holds, returns without fault: the fuel of the model is enough.  The
    queue then holds the same elements on the same nodes and strings in
    the order of [msort] over the comparison of [less_than]; with two
    elements or more [tail] is set to the last node, with fewer it is
    left as it was; nothing but the queue record and the nodes is
    written. *)
Theorem q_sort_ok h q es tl :
  queue_rep h q es tl -> Z.of_nat (length es) <= INT_MAX ->
  exists h', q_sort (Ptr q 0) h = Ok (tt, h') /\
    queue_rep h' q (msort elem_ltb es)
      (if decide (length es < 2)%nat then tl else last_ptr (msort elem_ltb es)) /\
    same_outside (q :: node_locs es) h h'.
Proof.
  intros Hrep Hmax.
  pose proof (q_sort_spec h q es tl Hrep Hmax) as Hwp.
  apply wp_run in Hwp as ([] & h' & Hrun & Hrep' & Hf).
  eauto.
Qed.

(** C8: [q_sort] on a well-formed queue leaves a well-formed queue of
    the same elements, a permutation of the former order in which no
    string is after the string of a later element; the heap has the same
    blocks as before, the two records of every call released. *)
Theorem q_sort_sorted h q es :
  queue_ok h q es -> Z.of_nat (length es) <= INT_MAX ->
  exists h' es', q_sort (Ptr q 0) h = Ok (tt, h') /\ queue_ok h' q es' /\
    es' ≡ₚ es /\ length es' = length es /\
    StronglySorted (fun a b => lex_le (e_val a) (e_val b)) es' /\
    dom h' = dom h.
Proof.
  intros Hok Hmax.
  pose proof (q_sort_spec h q es _ Hok Hmax) as Hwp.
  apply wp_run in Hwp as ([] & h' & Hrun & Hpost).
  pose proof (sorted_post_dom _ _ _ _ _ Hok Hpost) as Hdom.
  destruct Hpost as [Hrep' _].
  exists h', (msort elem_ltb es).
  split_and!; [done| |apply msort_perm|apply msort_length|apply msort_elem_sorted|done].
  unfold queue_ok. case_decide; [|done]. by rewrite msort_small in * by done.
Qed.

(** C22: the strings of the queue after [q_sort] are, in order, those
    that the merge sort of stdpp returns for the strings of the queue
    before, under the order of [less_than]. *)
Theorem q_sort_reference h q es tl :
  queue_rep h q es tl -> Z.of_nat (length es) <= INT_MAX ->
  exists h' es' tl', q_sort (Ptr q 0) h = Ok (tt, h') /\ queue_rep h' q es' tl' /\
    contents es' = merge_sort lex_le (contents es).
Proof.
  intros Hrep Hmax.
  pose proof (q_sort_spec h q es tl Hrep Hmax) as Hwp.
  apply wp_run in Hwp as ([] & h' & Hrun & Hrep' & _).
  exists h', (msort elem_ltb es). eexists. split_and!; [done..|apply msort_contents].
Qed.

(** C23: after [q_sort] the comparison of the code finds no element
    before its predecessor: for two neighbours [a], [b] of the result
    [less_than] on [b] and [a] returns false. *)
Theorem q_sort_adjacent h q es tl :
  queue_rep h q es tl -> Z.of_nat (length es) <= INT_MAX ->
  exists h' es' tl', q_sort (Ptr q 0) h = Ok (tt, h') /\ queue_rep h' q es' tl' /\
    forall (i : nat) a b, es' !! i = Some a -> es' !! S i = Some b ->
      less_than (Ptr (e_node b) 0) (Ptr (e_node a) 0) h' = Ok (false, h').
Proof.
  intros Hrep Hmax.
  pose proof (q_sort_spec h q es tl Hrep Hmax) as Hwp.
  apply wp_run in Hwp as ([] & h' & Hrun & Hrep' & _).
  exists h', (msort elem_ltb es). eexists. split_and!; [done..|].
  intros i a b Ha Hb.
  rewrite (less_than_spec h' b a) by
    (eapply queue_rep_elem_at; [done|by eapply list_elem_of_lookup_2]).
  do 2 f_equal. eapply (Sorted_lookup_succ (not_gt elem_ltb)); [|done..].
  apply msort_sorted. unfold elem_ltb. intros ??. apply lex_ltb_asym.
Qed.

(** C27: sorting a second time keeps every string in its place. *)
Theorem q_sort_idempotent h q es tl :
  queue_rep h q es tl -> Z.of_nat (length es) <= INT_MAX ->
  exists h1 h2 es1 es2 t1 t2,
    q_sort (Ptr q 0) h = Ok (tt, h1) /\ queue_rep h1 q es1 t1 /\
    q_sort (Ptr q 0) h1 = Ok (tt, h2) /\ queue_rep h2 q es2 t2 /\
    contents es2 = contents es1.
Proof.
  intros Hrep Hmax.
  pose proof (q_sort_spec h q es tl Hrep Hmax) as Hwp.
  apply wp_run in Hwp as ([] & h1 & Hrun1 & Hrep1 & _).
  pose proof (q_sort_spec h1 q _ _ Hrep1) as Hwp. rewrite msort_length in Hwp.
  apply wp_run in Hwp as ([] & h2 & Hrun2 & Hrep2 & _); [|done].
  exists h1, h2. do 4 eexists. split_and!; [done..|apply msort_contents_idem].
Qed.

(** C24: the recursion of [q_sort] on a queue of [n] elements is at most
    [ceil(log2 n)] calls deep, 31 for every [size] of type [int]: with
    that much fuel the model returns the sorted queue. *)
Theorem q_sort_depth h q es tl :
  queue_rep h q es tl -> Z.of_nat (length es) <= INT_MAX ->
  (Nat.log2_up (length es) <= 31)%nat /\
  exists h', q_sort_rec (Nat.log2_up (length es)) (Ptr q 0) h = Ok (tt, h') /\
    queue_rep h' q (msort elem_ltb es)
      (if decide (length es < 2)%nat then tl else last_ptr (msort elem_ltb es)).
Proof.
  intros Hrep Hmax. split.
  - destruct (decide (length es = 0)%nat) as [->|]; [rewrite Nat.log2_up_nonpos; lia|].
    apply Nat.log2_up_le_pow2; [lia|]. apply Nat2Z.inj_le.
    rewrite Nat2Z.inj_pow. unfold INT_MAX in Hmax. lia.
  - assert (length es <= 2 ^ Nat.log2_up (length es))%nat as Hlog.
    { destruct (decide (length es <= 1)%nat) as [Hs|Hs].
      - pose proof (Nat.pow_nonzero 2 (Nat.log2_up (length es))). lia.
      - apply Nat.log2_up_spec. lia. }
    pose proof (q_sort_rec_spec _ h q es tl Hrep Hlog Hmax) as Hwp.
    apply wp_run in Hwp as ([] & h' & Hrun & Hrep' & _).
    eauto.
Qed.

(** C37: [q_sort] on [NULL] does nothing. *)
Theorem q_sort_null h : q_sort Null h = Ok (tt, h).
Proof. unfold q_sort, fuel_of. done. Qed.

(** C36: [q_sort] on a queue of fewer than two elements changes nothing:
    not the order, not the [tail] field, no block of the heap. *)
Theorem q_sort_small h q es tl :
  queue_rep h q es tl -> (length es < 2)%nat -> q_sort (Ptr q 0) h = Ok (tt, h).
Proof.
  intros Hrep Hlen. pose proof (rep_queue _ _ _ _ Hrep) as Hq.
  apply wp_eq. unfold q_sort, fuel_of. apply wp_bind, wp_get.
  cbn [q_sort_rec is_null]. wp_step. rewrite decide_True by lia. by apply wp_ret.
Qed.

(** C28: [q_sort] is not stable: of two elements with the same string
    the second is first after the sort, since [q_merge] takes the right
    head whenever the left one is not smaller. *)
Theorem q_sort_not_stable h q a b :
  queue_ok h q [a; b] -> e_val a = e_val b ->
  exists h', q_sort (Ptr q 0) h = Ok (tt, h') /\ queue_ok h' q [b; a].
Proof.
  intros Hok Heq.
  pose proof (q_sort_spec h q _ _ Hok ltac:(by_compute)) as Hwp.
  apply wp_run in Hwp as ([] & h' & Hrun & Hrep' & _).
  rewrite msort_split in Hrep' by (simpl; lia). simpl in Hrep'.
  rewrite !msort_small in Hrep' by (simpl; lia). simpl in Hrep'.
  unfold elem_ltb in Hrep'. rewrite Heq, lex_ltb_irrefl in Hrep'. by exists h'.
Qed.

(** ** The theorems at a concrete heap *)

Lemma q_sort_ok_witness :
  exists h', q_sort (Ptr 1 0) h_two_stale = Ok (tt, h') /\
    queue_rep h' 1 (msort elem_ltb [e_banana; e_apple])
      (if decide (length [e_banana; e_apple] < 2)%nat then Ptr 8 0
       else last_ptr (msort elem_ltb [e_banana; e_apple])) /\
    same_outside (1%positive :: node_locs [e_banana; e_apple]) h_two_stale h'.
Proof. apply q_sort_ok; [apply h_two_stale_rep|by_compute]. Defined.

Lemma q_sort_sorted_witness :
  exists h' es', q_sort (Ptr 1 0) h_three = Ok (tt, h') /\ queue_ok h' 1 es' /\
    es' ≡ₚ [e_banana; e_apple; e_cherry] /\
    length es' = length [e_banana; e_apple; e_cherry] /\
    StronglySorted (fun a b => lex_le (e_val a) (e_val b)) es' /\
    dom h' = dom h_three.
Proof. apply q_sort_sorted; [apply h_three_ok|by_compute]. Defined.

Lemma q_sort_reference_witness :
  exists h' es' tl', q_sort (Ptr 1 0) h_three = Ok (tt, h') /\ queue_rep h' 1 es' tl' /\
    contents es' = merge_sort lex_le (contents [e_banana; e_apple; e_cherry]).
Proof. apply (q_sort_reference h_three 1 _ _ h_three_ok). by_compute. Defined.

Lemma q_sort_depth_witness :
  (Nat.log2_up (length [e_banana; e_apple; e_cherry]) <= 31)%nat /\
  exists h', q_sort_rec (Nat.log2_up (length [e_banana; e_apple; e_cherry]))
               (Ptr 1 0) h_three = Ok (tt, h') /\
    queue_rep h' 1 (msort elem_ltb [e_banana; e_apple; e_cherry])
      (if decide (length [e_banana; e_apple; e_cherry] < 2)%nat then Ptr 6 0
       else last_ptr (msort elem_ltb [e_banana; e_apple; e_cherry])).
Proof. apply q_sort_depth; [apply h_three_ok|by_compute]. Defined.

Lemma q_sort_small_witness : q_sort (Ptr 1 0) h_hello = Ok (tt, h_hello).
Proof. apply (q_sort_small h_hello 1 [e_hello] _ h_hello_ok). simpl. lia. Defined.

Lemma q_sort_not_stable_witness :
  exists h', q_sort (Ptr 1 0) h_twins = Ok (tt, h') /\ queue_ok h' 1 [e_twin2; e_twin1].
Proof. apply (q_sort_not_stable h_twins 1 e_twin1 e_twin2 h_twins_ok). reflexivity. Defined.

Lemma q_sort_adjacent_witness :
  exists h' es' tl', q_sort (Ptr 1 0) h_three = Ok (tt, h') /\ queue_rep h' 1 es' tl' /\
    forall (i : nat) a b, es' !! i = Some a -> es' !! S i = Some b ->
      less_than (Ptr (e_node b) 0) (Ptr (e_node a) 0) h' = Ok (false, h').
Proof. apply (q_sort_adjacent h_three 1 _ _ h_three_ok). by_compute. Defined.

Lemma q_sort_idempotent_witness :
  exists h1 h2 es1 es2 t1 t2,
    q_sort (Ptr 1 0) h_three = Ok (tt, h1) /\ queue_rep h1 1 es1 t1 /\
    q_sort (Ptr 1 0) h1 = Ok (tt, h2) /\ queue_rep h2 1 es2 t2 /\
    contents es2 = contents es1.
Proof. apply (q_sort_idempotent h_three 1 _ _ h_three_ok). by_compute. Defined.
