(* ===== verification/Contract.v ===== *)
(** * The contract of the queue, as a machine on lists of strings

    What a caller of [queue.c] may rely on, stated without the linked
    list: the state of the queue is the list of its strings, a flag that
    says whether [tail] can be trusted, and the memory of the caller (the
    strings it passes in, the buffers it passes to [q_remove_head]).  A
    call is admitted in a state when the contract covers it; [astep]
    gives the state after an admitted call that was answered by a given
    reply.  The flag is what the code adds to the specification: once
    [q_remove_head] has removed the last element, [q_insert_tail] and
    [q_reverse] are outside the contract until [q_sort] has rebuilt
    [tail].  [Refine.v] shows that the code implements this machine. *)

From Stdlib Require Import ZArith Lia.
From stdpp Require Import gmap list sorting.
From S2P Require Import Prelude Memory CString Compare.

Local Open Scope Z_scope.

(** ** Calls and replies *)

(** The calls on one queue.  The string [str] of an insertion is what the
    caller has at [s]: it is not passed to the code. *)
Inductive call : Type :=
  | InsertHead (s : ptr) (str : list Z)
  | InsertTail (s : ptr) (str : list Z)
  | RemoveHead
  | RemoveHeadInto (buf : loc) (bufsize : nat)
  | Size
  | Reverse
  | Sort.

Inductive reply : Type :=
  | RBool (b : bool)
  | RInt (n : Z)
  | RUnit.

#[export] Instance call_eq_dec : EqDecision call.
Proof. solve_decision. Defined.

#[export] Instance reply_eq_dec : EqDecision reply.
Proof. solve_decision. Defined.

(** ** States *)

Record aqueue : Type := AQueue {
  items : list (list Z);
  live : bool;
  env : heap
}.

(** An insertion fits when neither [size + 1] nor [strlen(s)] leaves the
    range of [int]. *)
Definition fits (a : aqueue) (str : list Z) : Prop :=
  Z.of_nat (length (items a)) < INT_MAX /\ Z.of_nat (length str) < INT_MAX.

#[export] Instance fits_dec a str : Decision (fits a str).
Proof. unfold fits. apply _. Defined.

(** A buffer of [n] cells at the start of the block [blk]. *)
Definition buffer_ok (n : nat) (blk : list val) : Prop :=
  (1 <= n <= length blk)%nat /\ Z.of_nat n <= SIZE_MAX.

#[export] Instance buffer_ok_dec n blk : Decision (buffer_ok n blk).
Proof. unfold buffer_ok. apply _. Defined.

(** The state after the removal of the first string: [tail] is lost with
    the last element. *)
Definition popped (a : aqueue) (rest : list (list Z)) (e : heap) : aqueue :=
  AQueue rest (live a && bool_decide (rest <> [])) e.

(** ** The machine *)

(** The state after the call [c] answered by [r], if the contract admits
    the call in [a] and allows the reply. *)
Definition astep (c : call) (r : reply) (a : aqueue) : option aqueue :=
  match c, r with
  | InsertHead s str, RBool ok =>
      if decide (cstr_at (env a) s str /\ fits a str) then
        Some (if ok then AQueue (str :: items a) (live a) (env a) else a)
      else None
  | InsertTail s str, RBool ok =>
      if decide (live a = true /\ cstr_at (env a) s str /\ fits a str) then
        Some (if ok then AQueue (items a ++ [str]) true (env a) else a)
      else None
  | RemoveHead, RBool ok =>
      match items a with
      | [] => if ok then None else Some a
      | _ :: rest => if ok then Some (popped a rest (env a)) else None
      end
  | RemoveHeadInto buf n, RBool ok =>
      match items a with
      | [] => if ok then None else Some a
      | s :: rest =>
          match env a !! buf with
          | Some blk =>
              if decide (buffer_ok n blk) then
                if ok then
                  Some (popped a rest
                          (<[buf := copy_out_cells s n ++ drop n blk]> (env a)))
                else None
              else None
          | None => None
          end
      end
  | Size, RInt n =>
      if decide (n = Z.of_nat (length (items a))) then Some a else None
  | Reverse, RUnit =>
      if live a then Some (AQueue (reverse (items a)) true (env a)) else None
  | Sort, RUnit =>
      Some (AQueue (merge_sort lex_le (items a))
                   (live a || bool_decide (2 <= length (items a))%nat) (env a))
  | _, _ => None
  end.

(** A sequence of calls with their replies. *)
Fixpoint asteps (t : list (call * reply)) (a : aqueue) : option aqueue :=
  match t with
  | [] => Some a
  | (c, r) :: t' =>
      match astep c r a with
      | Some a' => asteps t' a'
      | None => None
      end
  end.

(** The contract admits the call [c] in the state [a]. *)
Definition admits (c : call) (a : aqueue) : Prop :=
  exists r, is_Some (astep c r a).

(** A caller that makes the calls [cs] from the state [a] stays inside
    the contract, whatever the replies. *)
Fixpoint safe (cs : list call) (a : aqueue) : Prop :=
  match cs with
  | [] => True
  | c :: cs' => admits c a /\ forall r a', astep c r a = Some a' -> safe cs' a'
  end.

(** The states a caller can reach from [a0]. *)
Inductive reachable (a0 : aqueue) : aqueue -> Prop :=
  | reach_here : reachable a0 a0
  | reach_step a c r a' :
      reachable a0 a -> astep c r a = Some a' -> reachable a0 a'.

(** A call that removes. *)
Definition removes (c : call) : bool :=
  match c with
  | RemoveHead | RemoveHeadInto _ _ => true
  | _ => false
  end.

(** The insertions at the tail of the strings [ss], each with the
    address at which the caller has it. *)
Definition insert_tails (ss : list (ptr * list Z)) : list call :=
  (fun p => InsertTail p.1 p.2) <$> ss.

(** The strings [ss] are in the caller's memory [e] and short enough. *)
Definition strings_at (e : heap) (ss : list (ptr * list Z)) : Prop :=
  Forall (fun p => cstr_at e p.1 p.2 /\ Z.of_nat (length p.2) < INT_MAX) ss.

(** No reply of [rs] reports a failure. *)
Definition all_succeed (rs : list reply) : Prop :=
  Forall (fun r => r <> RBool false) rs.

(** ** What a call is admitted for *)

Section Admits.
Implicit Types (a : aqueue) (c : call) (r : reply).

Lemma admits_insert_head a s str :
  admits (InsertHead s str) a <-> cstr_at (env a) s str /\ fits a str.
Proof.
  split.
  - intros ([] & a' & Hr); simpl in Hr; [by case_decide|done..].
  - intros Hp. exists (RBool true). simpl. rewrite decide_True by done. eauto.
Qed.

Lemma admits_insert_tail a s str :
  admits (InsertTail s str) a <->
  live a = true /\ cstr_at (env a) s str /\ fits a str.
Proof.
  split.
  - intros ([] & a' & Hr); simpl in Hr; [by case_decide|done..].
  - intros Hp. exists (RBool true). simpl. rewrite decide_True by done. eauto.
Qed.

Lemma admits_remove_head_into a buf n :
  admits (RemoveHeadInto buf n) a <->
  items a = [] \/ exists blk, env a !! buf = Some blk /\ buffer_ok n blk.
Proof.
  split.
  - intros ([] & a' & Hr); simpl in Hr; [|done..].
    destruct (items a); [by left|right].
    destruct (env a !! buf) as [blk|]; [|done]. case_decide; [eauto|done].
  - intros [Hi|(blk & Hb & Hn)].
    + exists (RBool false). simpl. rewrite Hi. eauto.
    + destruct (items a) eqn:Hi; [exists (RBool false)|exists (RBool true)];
        simpl; rewrite Hi, ?Hb, ?decide_True by done; eauto.
Qed.

Lemma admits_reverse a : admits Reverse a <-> live a = true.
Proof.
  split.
  - intros ([] & a' & Hr); simpl in Hr; [done..|]. by destruct (live a).
  - intros Hl. exists RUnit. simpl. rewrite Hl. eauto.
Qed.

Lemma admits_remove_head a : admits RemoveHead a.
Proof.
  destruct (items a) as [|s rest] eqn:Hi;
    [exists (RBool false)|exists (RBool true)]; simpl; rewrite Hi; eauto.
Qed.

Lemma admits_size a : admits Size a.
Proof.
  exists (RInt (Z.of_nat (length (items a)))). simpl.
  rewrite decide_True by done. eauto.
Qed.

Lemma admits_sort a : admits Sort a.
Proof. exists RUnit. simpl. eauto. Qed.

(** ** The machine keeps the caller's blocks *)

Lemma astep_env_dom c r a a' : astep c r a = Some a' -> dom (env a') = dom (env a).
Proof.
  destruct c, r; simpl; intros Hr; repeat case_match; simplify_eq/=; try done.
  rewrite dom_insert_L.
  match goal with Hb : env a !! _ = Some _ |- _ => apply elem_of_dom_2 in Hb end.
  set_solver.
Qed.

Lemma reachable_env_dom a0 a : reachable a0 a -> dom (env a) = dom (env a0).
Proof.
  induction 1 as [|a c r a' _ IH Hr]; [done|].
  by rewrite (astep_env_dom _ _ _ _ Hr).
Qed.

Lemma reachable_trans x y z : reachable x y -> reachable y z -> reachable x z.
Proof. intros Hxy Hyz. induction Hyz; [done|]. by eapply reach_step. Qed.

Lemma asteps_reachable t : forall a a', asteps t a = Some a' -> reachable a a'.
Proof.
  induction t as [|[c r] t IH]; intros a a'; simpl.
  - intros [= ->]. constructor.
  - destruct (astep c r a) as [a1|] eqn:E; [|done]. intros Ht%IH.
    eapply reachable_trans; [|done]. eapply reach_step; [constructor|done].
Qed.

(** ** Sequences *)

Lemma asteps_app t1 t2 a :
  asteps (t1 ++ t2) a = match asteps t1 a with Some a1 => asteps t2 a1 | None => None end.
Proof.
  revert a. induction t1 as [|[c r] t1 IH]; intros a; simpl; [done|].
  destruct (astep c r a); [apply IH|done].
Qed.

(** A removal succeeds exactly when there is an element, and then takes
    the first. *)
Lemma astep_remove_head r a a' :
  astep RemoveHead r a = Some a' ->
  r = RBool (bool_decide (items a <> [])) /\ items a' = tail (items a) /\
  env a' = env a.
Proof.
  destruct r as [[]| |]; simpl; [| |done..];
    destruct (items a) eqn:Hi; intros; by simplify_eq/=.
Qed.

(** [k] removals from a queue of [k] elements or more all succeed and
    leave the rest. *)
Lemma asteps_removes k : forall t a a',
  t.*1 = replicate k RemoveHead -> (k <= length (items a))%nat ->
  asteps t a = Some a' ->
  t.*2 = replicate k (RBool true) /\ items a' = drop k (items a) /\ env a' = env a.
Proof.
  induction k as [|k IH]; intros [|[c r] t] a a'; simpl; try done.
  - intros _ _ [= ->]. by rewrite drop_0.
  - intros [= -> Ht] Hk. destruct (astep RemoveHead r a) as [a1|] eqn:E; [|done].
    apply astep_remove_head in E as (-> & Hi & He). intros Hs.
    destruct (items a) as [|x xs] eqn:Hx; simpl in Hk, Hi; [lia|].
    destruct (IH t a1 a' Ht) as (Hr & Hi' & He'); [rewrite Hi; lia|done|].
    rewrite Hi', He', Hi, He. split; [by f_equal|done].
Qed.

(** First in, first out: a string appended to a queue of [k] strings is
    what the removal after [k] removals delivers. *)
Lemma asteps_fifo t a a' s str buf n blk :
  t.*1 = InsertTail s str :: replicate (length (items a)) RemoveHead
           ++ [RemoveHeadInto buf n] ->
  asteps t a = Some a' -> head (t.*2) = Some (RBool true) ->
  env a !! buf = Some blk ->
  last (t.*2) = Some (RBool true) /\
  env a' !! buf = Some (copy_out_cells str n ++ drop n blk).
Proof.
  destruct t as [|[c r] t]; [done|]. simpl. intros [= -> Ht] Hs [= ->] Hb.
  destruct (astep _ _ a) as [a0|] eqn:E; [|done]. simpl in E.
  case_decide; [|done]. simplify_eq.
  apply fmap_app_inv in Ht as (t1 & t2 & Ht1 & Ht2 & ->).
  destruct t2 as [|[c r] [|??]]; simplify_eq/=.
  rewrite asteps_app in Hs. destruct (asteps t1 _) as [a1|] eqn:E1; [|done].
  eapply asteps_removes in E1 as (Hr & Hi & He);
    [|symmetry; exact Ht1|simpl; rewrite length_app; lia].
  simpl in Hi, He, Hs. rewrite drop_app_length in Hi.
  destruct r as [ok| |]; [|done..]. rewrite Hi, He, Hb in Hs.
  case_decide; [|done]. destruct ok; [|done]. simplify_eq/=.
  split; [|by rewrite lookup_insert_eq].
  rewrite fmap_app.
  change (last ((RBool true :: t1.*2) ++ [RBool true]) = Some (RBool true)).
  apply last_snoc.
Qed.

(** ** When [tail] is lost *)

(** Only a removal that empties the queue loses [tail]. *)
Lemma astep_stale c r a a' :
  astep c r a = Some a' -> live a = true -> live a' = false ->
  removes c = true /\ items a' = [].
Proof.
  destruct c, r; simpl; intros Hr Hl; repeat case_match; simplify_eq/=;
    rewrite ?Hl; try done; by intros ?%bool_decide_eq_false%dec_stable.
Qed.

Lemma asteps_live t : forall a a',
  asteps t a = Some a' -> live a = true ->
  Forall (fun cr => removes cr.1 = false) t -> live a' = true.
Proof.
  induction t as [|[c r] t IH]; intros a a'; simpl; [by intros [= ->]|].
  destruct (astep c r a) as [a1|] eqn:E; [|done].
  intros Ht Hl [Hc Hrest]%Forall_cons. apply (IH a1); [done| |done].
  destruct (live a1) eqn:Hl1; [done|].
  destruct (astep_stale _ _ _ _ E Hl Hl1) as [? _]. simpl in Hc. congruence.
Qed.

(** ** Callers that stay inside the contract *)

Lemma astep_insert_tail_env s str r a a' :
  astep (InsertTail s str) r a = Some a' -> env a' = env a.
Proof. destruct r as [[]| |]; simpl; intros; repeat case_decide; by simplify_eq/=. Qed.

Lemma safe_drain k buf n : forall a blk,
  env a !! buf = Some blk -> buffer_ok n blk ->
  safe (replicate k RemoveHead ++ [RemoveHeadInto buf n]) a.
Proof.
  induction k as [|k IH]; intros a blk Hb Hn; simpl.
  - split; [apply admits_remove_head_into; eauto|done].
  - split; [apply admits_remove_head|].
    intros r a' (_ & _ & He)%astep_remove_head.
    apply (IH a' blk); [by rewrite He|done].
Qed.

Lemma safe_fifo a s str buf n blk :
  live a = true -> cstr_at (env a) s str -> fits a str ->
  env a !! buf = Some blk -> buffer_ok n blk ->
  safe (InsertTail s str :: replicate (length (items a)) RemoveHead
          ++ [RemoveHeadInto buf n]) a.
Proof.
  intros Hl Hs Hf Hb Hn. split; [by apply admits_insert_tail|].
  intros r a' He%astep_insert_tail_env.
  apply (safe_drain _ _ _ _ blk); [by rewrite He|done].
Qed.

(** ** Last in, first out *)

Lemma astep_insert_head_env s str r a a' :
  astep (InsertHead s str) r a = Some a' -> env a' = env a.
Proof. destruct r as [[]| |]; simpl; intros; repeat case_decide; by simplify_eq/=. Qed.

Lemma safe_lifo a s str buf n blk :
  cstr_at (env a) s str -> fits a str ->
  env a !! buf = Some blk -> buffer_ok n blk ->
  safe [InsertHead s str; RemoveHeadInto buf n] a.
Proof.
  intros Hs Hf Hb Hn. split; [by apply admits_insert_head|].
  intros r a' He%astep_insert_head_env. split; [|done].
  apply admits_remove_head_into. right. exists blk. by rewrite He.
Qed.

(** A string inserted at the head is what the next removal delivers. *)
Lemma asteps_lifo t a a' s str buf n blk :
  t.*1 = [InsertHead s str; RemoveHeadInto buf n] ->
  asteps t a = Some a' -> head (t.*2) = Some (RBool true) ->
  env a !! buf = Some blk ->
  last (t.*2) = Some (RBool true) /\
  env a' !! buf = Some (copy_out_cells str n ++ drop n blk).
Proof.
  destruct t as [|[c1 r1] [|[c2 r2] [|??]]]; try done. simpl.
  intros [= -> ->] Hs [= ->] Hb.
  destruct (astep _ _ a) as [a1|] eqn:E1; [|done]. simpl in E1.
  case_decide; [|done]. simplify_eq.
  destruct r2 as [ok| |]; simpl in Hs; [|done..]. rewrite Hb in Hs.
  case_decide; [|done]. destruct ok; simplify_eq/=. by rewrite lookup_insert_eq.
Qed.

(** ** Insertions, then a sort *)

Lemma astep_insert_tail_inv s str r a a' :
  astep (InsertTail s str) r a = Some a' ->
  env a' = env a /\ live a' = true /\
  (r = RBool false \/ items a' = items a ++ [str]) /\
  (length (items a') <= S (length (items a)))%nat.
Proof.
  destruct r as [[]| |]; simpl; intros; repeat case_decide; simplify_eq/=;
    destruct_and?; split_and!; rewrite ?length_app; simpl; auto with lia.
Qed.

Lemma safe_insert_tails ss : forall a cs,
  live a = true -> strings_at (env a) ss ->
  Z.of_nat (length (items a) + length ss) <= INT_MAX ->
  (forall a', live a' = true -> env a' = env a -> safe cs a') ->
  safe (insert_tails ss ++ cs) a.
Proof.
  induction ss as [|[s str] ss IH]; intros a cs Hl Hss Hlen Hcs; [by apply Hcs|].
  apply Forall_cons in Hss as [[Hs Hstr] Hss]. simpl in *. split.
  - apply admits_insert_tail. unfold fits. split_and!; [done..|lia|done].
  - intros r a1 (He & Hl1 & _ & Hi)%astep_insert_tail_inv.
    apply IH; [done|by unfold strings_at; rewrite He|lia|].
    intros a' ? He'. apply Hcs; [done|congruence].
Qed.

Lemma asteps_insert_tails ss : forall t a a',
  t.*1 = insert_tails ss -> asteps t a = Some a' -> all_succeed (t.*2) ->
  items a' = items a ++ ss.*2 /\ (ss <> [] -> live a' = true) /\
  (ss = [] -> live a' = live a).
Proof.
  induction ss as [|[s str] ss IH]; intros [|[c r] t] a a'; simpl; try done.
  - intros _ [= ->] _. by rewrite app_nil_r.
  - intros [= -> Ht]. destruct (astep _ r a) as [a1|] eqn:E; [|done].
    apply astep_insert_tail_inv in E as (_ & Hl1 & [->|Hi] & _);
      intros Hs [Hr Hrs]%Forall_cons; [done|].
    destruct (IH t a1 a' Ht Hs Hrs) as (-> & Hne & Hnil).
    rewrite Hi, <- app_assoc. split_and!; [done| |done]. intros _.
    destruct ss; [by rewrite Hnil|by apply Hne].
Qed.

(** The strings of a live queue after insertions that all succeed and a
    sort: the old and the new ones, sorted. *)
Lemma asteps_sorted_inserts t a a' ss :
  live a = true -> t.*1 = insert_tails ss ++ [Sort] ->
  asteps t a = Some a' -> all_succeed (t.*2) ->
  items a' = merge_sort lex_le (items a ++ ss.*2) /\ live a' = true.
Proof.
  intros Hl (t1 & t2 & Ht1 & Ht2 & ->)%fmap_app_inv Hs Hr.
  rewrite asteps_app in Hs. destruct (asteps t1 a) as [a1|] eqn:E1; [|done].
  unfold all_succeed in Hr. rewrite fmap_app, Forall_app in Hr. destruct Hr as [Hr1 _].
  destruct (asteps_insert_tails _ _ _ _ (eq_sym Ht1) E1 Hr1) as (Hi & Hne & Hnil).
  assert (live a1 = true) as Hl1.
  { destruct ss; [by rewrite Hnil|by apply Hne]. }
  destruct t2 as [|[c r] [|??]]; simplify_eq/=.
  destruct r; simplify_eq/=. by rewrite Hi, Hl1.
Qed.

End Admits.
