(* ===== verification/Refine.v ===== *)
(** * The code implements the contract

    The calls of [Contract.v] run on the heap: [run_call] is the call of
    the function of [queue.c], [run_calls] a sequence of calls on one
    queue, [run_session] a whole life of a queue from [q_new] to
    [q_free].  The relation [rep_of] ties a heap to a state of the
    contract; the theorems say that every call the contract admits
    returns without fault, with a reply the contract allows, in a heap
    that represents the state the contract gives, and that a session
    leaves the heap as it found it, the caller's buffers apart.  The
    laws of the contract on sequences (first in first out, last in first
    out, insertions followed by a sort) are then laws of the code. *)

From Stdlib Require Import ZArith Lia.
From stdpp Require Import gmap list sorting.
From S2P Require Import Prelude Memory Structs CString ListSeg Fixtures Exec.
From S2P Require Import QueueOps Reverse MergeSort Compare Merge Sort Contract.

Local Open Scope Z_scope.
Local Open Scope M_scope.

(** ** Calls on the heap *)

Section Calls.
Context `{Allocator}.

Definition run_call (q : ptr) (c : call) : M heap reply :=
  match c with
  | InsertHead s _ => r <- q_insert_head q s ;; ret (RBool r)
  | InsertTail s _ => r <- q_insert_tail q s ;; ret (RBool r)
  | RemoveHead => r <- q_remove_head q Null 0 ;; ret (RBool r)
  | RemoveHeadInto buf n =>
      r <- q_remove_head q (Ptr buf 0) (Z.of_nat n) ;; ret (RBool r)
  | Size => n <- q_size q ;; ret (RInt n)
  | Reverse => q_reverse q ;;; ret RUnit
  | Sort => q_sort q ;;; ret RUnit
  end.

Fixpoint run_calls (q : ptr) (cs : list call) : M heap (list reply) :=
  match cs with
  | [] => ret []
  | c :: cs' =>
      r <- run_call q c ;;
      rs <- run_calls q cs' ;;
      ret (r :: rs)
  end.

(** The life of a queue: [q_new], the calls, [q_free].  No call is made
    when [q_new] returns [NULL]. *)
Definition run_session (cs : list call) : M heap (option (list reply)) :=
  q <- q_new ;;
  if is_null q then ret None
  else
    rs <- run_calls q cs ;;
    q_free q ;;;
    ret (Some rs).

End Calls.

(** ** The representation *)

(** [tail] is the last node when the contract says so, and some pointer
    that is not [NULL] otherwise. *)
Definition tail_ok (lv : bool) (es : list elem) (tl : ptr) : Prop :=
  if lv then tl = last_ptr es else tl <> Null.

(** The heap [h] holds the queue [q] in the state [a] on the elements
    [es]; it holds the caller's blocks, apart from those of the queue;
    and beyond the two it is the heap [h0] in which the queue was
    created. *)
Record rep_of (h0 : heap) (q : loc) (h : heap) (a : aqueue)
    (es : list elem) (tl : ptr) : Prop := {
  ro_queue : queue_rep h q es tl;
  ro_items : contents es = items a;
  ro_tail : tail_ok (live a) es tl;
  ro_size : Z.of_nat (length es) <= INT_MAX;
  ro_env : env a ⊆ h;
  ro_apart : forall l, l ∈ q :: locs es -> env a !! l = None;
  ro_base : forall l, l ∉ q :: locs es -> env a !! l = None -> h !! l = h0 !! l;
  ro_fresh : forall l, l ∈ q :: locs es -> h0 !! l = None
}.

Definition rep (h0 : heap) (q : loc) (h : heap) (a : aqueue) : Prop :=
  exists es tl, rep_of h0 q h a es tl.

(** What a call establishes: a reply that the contract allows and a heap
    that represents the next state. *)
Definition refined (h0 : heap) (q : loc) (c : call) (a : aqueue)
    (r : reply) (h' : heap) : Prop :=
  exists a', astep c r a = Some a' /\ rep h0 q h' a'.

(** The empty queue in the heaps [h_empty] and [h_fruit] of [Fixtures.v],
    as states of the contract. *)
Definition a_empty : aqueue := AQueue [] true caller.
Definition a_fruit : aqueue := AQueue [] true fruit.

(** ** The representation step by step *)

Section Rep.
Implicit Types (h : heap) (a : aqueue) (es : list elem) (q : loc).

(** A call that leaves the queue on the elements [es'], having written
    to blocks of the queue only, allocated what is new and released what
    is gone. *)
Lemma rep_step h0 q h h' a es tl es' tl' its lv :
  rep_of h0 q h a es tl ->
  queue_rep h' q es' tl' -> contents es' = its -> tail_ok lv es' tl' ->
  Z.of_nat (length es') <= INT_MAX ->
  same_outside (q :: locs es ++ locs es') h h' ->
  (forall l, l ∈ locs es' -> l ∈ locs es \/ h !! l = None) ->
  (forall l, l ∈ locs es -> l ∈ locs es' \/ h' !! l = None) ->
  rep_of h0 q h' (AQueue its lv (env a)) es' tl'.
Proof.
  intros [Hq Hi Ht Hsz Henv Hap Hbase Hfr] Hq' Hi' Ht' Hsz' Hf Hnew Hold.
  assert (forall l, l ∈ q :: locs es' -> env a !! l = None) as Hap'.
  { intros l [->|[?|Hl]%Hnew]%elem_of_cons; [apply Hap; set_solver..|].
    by eapply lookup_weaken_None. }
  split; simpl; [done..| |done| |].
  - apply map_subseteq_spec. intros l x Hl. rewrite Hf.
    + by eapply lookup_weaken.
    + intros Hin. assert (env a !! l = None); [|congruence].
      apply elem_of_cons in Hin as [->|[?|?]%elem_of_app];
        [apply Hap|apply Hap|apply Hap']; set_solver.
  - intros l Hl He. destruct (decide (l ∈ locs es)) as [Hin|Hin].
    + destruct (Hold l Hin) as [?|Hl']; [set_solver|]. rewrite Hl'. symmetry. apply Hfr. set_solver.
    + rewrite Hf by set_solver. apply Hbase; [set_solver|done].
  - intros l [->|Hl]%elem_of_cons; [apply Hfr; set_solver|].
    destruct (Hnew l Hl) as [?|Hn]; [apply Hfr; set_solver|].
    rewrite <- Hbase; [done| |by eapply lookup_weaken_None].
    intros Hin. eapply queue_rep_allocated in Hin as [? ?]; [|done]. congruence.
Qed.

(** A write to a block of the caller. *)
Lemma rep_write_env h0 q h a es tl b blk blk' :
  rep_of h0 q h a es tl -> env a !! b = Some blk ->
  rep_of h0 q (<[b := blk']> h) (AQueue (items a) (live a) (<[b := blk']> (env a))) es tl.
Proof.
  intros [Hq Hi Ht Hsz Henv Hap Hbase Hfr] Hb.
  assert (b ∉ q :: locs es) as Hnin by (intros ?%Hap; congruence).
  split; simpl; [|done..| | | |done].
  - eapply queue_rep_agree; [|done]. apply agree_on_insert; [done|apply agree_on_refl].
  - by apply insert_mono.
  - intros l Hl. rewrite lookup_insert_ne by (intros ->; done). by apply Hap.
  - intros l Hl. destruct (decide (b = l)) as [->|Hne]; [by rewrite lookup_insert_eq|].
    rewrite !lookup_insert_ne by done. by apply Hbase.
Qed.

Lemma rep_cstr_at h0 q h a es tl s str :
  rep_of h0 q h a es tl -> cstr_at (env a) s str -> cstr_at h s str.
Proof.
  intros Hrep. destruct s as [|b o]; [done|]. intros [Ho (blk & Hb & Hs)].
  split; [done|]. exists blk. split; [|done].
  by eapply lookup_weaken, ro_env.
Qed.

End Rep.

(** ** [tail] across the calls *)

Lemma tail_ok_push lv e es tl :
  tail_ok lv es tl ->
  tail_ok lv (e :: es) (if is_null tl then Ptr (e_node e) 0 else tl).
Proof.
  destruct lv; simpl.
  - intros ->. by rewrite last_ptr_push.
  - by destruct tl.
Qed.

Lemma tail_ok_pop lv e es tl :
  tail_ok lv (e :: es) tl -> tail_ok (lv && bool_decide (contents es <> [])) es tl.
Proof.
  destruct lv, es as [|e' es]; simpl; try done. by intros ->.
Qed.

Lemma tail_ok_sort lv es tl :
  tail_ok lv es tl ->
  tail_ok (lv || bool_decide (2 <= length (contents es))%nat) (msort elem_ltb es)
    (if decide (length es < 2)%nat then tl else last_ptr (msort elem_ltb es)).
Proof.
  rewrite contents_length. intros Ht. case_decide.
  - rewrite msort_small, bool_decide_eq_false_2 by lia. by rewrite orb_false_r.
  - rewrite bool_decide_eq_true_2 by lia. by rewrite orb_true_r.
Qed.

(** ** Every call refines its step *)

Section Refine.
Context `{Allocator}.
Implicit Types (h : heap) (a : aqueue) (es : list elem) (q : loc).

Lemma rep_length h0 q h a es tl :
  rep_of h0 q h a es tl -> length (items a) = length es.
Proof. intros Hrep. by rewrite <- (ro_items _ _ _ _ _ _ Hrep), contents_length. Qed.

(** A call that fails and changes nothing. *)
Lemma refined_same h0 q h a es tl c r :
  rep_of h0 q h a es tl -> astep c r a = Some a -> refined h0 q c a r h.
Proof. intros Hrep Hr. exists a. split; [done|]. by exists es, tl. Qed.

Lemma refine_insert_head h0 q h a es tl s str :
  rep_of h0 q h a es tl -> admits (InsertHead s str) a ->
  wp (run_call (Ptr q 0) (InsertHead s str)) (refined h0 q (InsertHead s str) a) h.
Proof.
  intros Hrep Hadm%admits_insert_head. pose proof Hadm as [Hs [Hlen Hstr]].
  rewrite (rep_length _ _ _ _ _ _ Hrep) in Hlen. simpl. apply wp_bind.
  eapply wp_mono;
    [apply (q_insert_head_spec h q es tl s str);
       [apply Hrep|by eapply rep_cstr_at|done..]|].
  intros r h'. destruct (new_elem h (length str)) as [[bn bs]|] eqn:E.
  - intros (-> & Hq' & Hf). apply new_elem_fresh in E as (Hbn & Hbs & Hne).
    apply wp_ret. eexists. split; [simpl; by rewrite decide_True|].
    exists (Elem bn bs str :: es). eexists.
    eapply rep_step; [done|done|simpl; by rewrite (ro_items _ _ _ _ _ _ Hrep)
                     |by apply tail_ok_push, Hrep|simpl; lia|..].
    + eapply same_outside_weaken; [|done]. set_solver.
    + intros l. simpl. set_solver.
    + intros l. simpl. set_solver.
  - intros [-> ->]. apply wp_ret. eapply refined_same; [done|].
    simpl. by rewrite decide_True.
Qed.

Lemma refine_insert_tail h0 q h a es tl s str :
  rep_of h0 q h a es tl -> admits (InsertTail s str) a ->
  wp (run_call (Ptr q 0) (InsertTail s str)) (refined h0 q (InsertTail s str) a) h.
Proof.
  intros Hrep Hadm%admits_insert_tail. pose proof Hadm as (Hlv & Hs & Hlen & Hstr).
  rewrite (rep_length _ _ _ _ _ _ Hrep) in Hlen.
  pose proof (ro_tail _ _ _ _ _ _ Hrep) as Ht. rewrite Hlv in Ht. simpl in Ht. subst tl.
  simpl. apply wp_bind.
  eapply wp_mono;
    [apply (q_insert_tail_spec h q es s str);
       [apply Hrep|by eapply rep_cstr_at|done..]|].
  intros r h'. destruct (new_elem h (length str)) as [[bn bs]|] eqn:E.
  - intros (-> & Hq' & Hf). apply new_elem_fresh in E as (Hbn & Hbs & Hne).
    apply wp_ret. eexists. split; [simpl; by rewrite decide_True|].
    exists (es ++ [Elem bn bs str]). eexists.
    eapply rep_step; [done|exact Hq'| |done|rewrite length_app; simpl; lia|..].
    + unfold contents. by rewrite fmap_app, <- (ro_items _ _ _ _ _ _ Hrep).
    + eapply same_outside_weaken; [|done]. rewrite locs_snoc. set_solver.
    + intros l. rewrite locs_snoc. set_solver.
    + intros l. rewrite locs_snoc. set_solver.
  - intros [-> ->]. apply wp_ret. eapply refined_same; [done|].
    simpl. by rewrite decide_True.
Qed.

(** What [q_remove_head] leaves of a queue of one element or more. *)
Lemma rep_pop h0 q h a e es tl :
  rep_of h0 q h a (e :: es) tl ->
  queue_rep (delete (e_node e) (delete (e_str e)
               (<[q := queue_t (hd_ptr es Null) tl (Z.of_nat (length es))]> h))) q es tl ->
  rep h0 q (delete (e_node e) (delete (e_str e)
              (<[q := queue_t (hd_ptr es Null) tl (Z.of_nat (length es))]> h)))
    (popped a (contents es) (env a)).
Proof.
  intros Hrep Hq'. exists es, tl.
  eapply rep_step; [done|done|done|by eapply tail_ok_pop, Hrep| |solve_frame|..].
  - pose proof (ro_size _ _ _ _ _ _ Hrep). simpl in *. lia.
  - intros l. simpl. set_solver.
  - intros l. rewrite !lookup_delete_None. simpl. set_solver.
Qed.

Lemma refine_remove_head h0 q h a es tl :
  rep_of h0 q h a es tl ->
  wp (run_call (Ptr q 0) RemoveHead) (refined h0 q RemoveHead a) h.
Proof.
  intros Hrep. pose proof (ro_items _ _ _ _ _ _ Hrep) as Hi.
  pose proof (ro_size _ _ _ _ _ _ Hrep) as Hsz. simpl. apply wp_bind.
  destruct es as [|e es]; simpl in Hi, Hsz.
  - eapply wp_ok; [by eapply q_remove_head_empty, Hrep|]. apply wp_ret.
    eapply refined_same; [done|]. simpl. by rewrite <- Hi.
  - eapply wp_mono; [apply (q_remove_head_spec h q e es tl); [apply Hrep|lia]|].
    intros r h' (-> & Hq' & ->). apply wp_ret. eexists.
    split; [simpl; by rewrite <- Hi|]. by apply rep_pop.
Qed.

Lemma refine_remove_head_into h0 q h a es tl buf n :
  rep_of h0 q h a es tl -> admits (RemoveHeadInto buf n) a ->
  wp (run_call (Ptr q 0) (RemoveHeadInto buf n)) (refined h0 q (RemoveHeadInto buf n) a) h.
Proof.
  intros Hrep Hadm. pose proof (ro_items _ _ _ _ _ _ Hrep) as Hi.
  pose proof (ro_size _ _ _ _ _ _ Hrep) as Hsz. simpl. apply wp_bind.
  destruct es as [|e es]; simpl in Hi, Hsz.
  { eapply wp_ok; [by eapply q_remove_head_empty, Hrep|]. apply wp_ret.
    eapply refined_same; [done|]. simpl. by rewrite <- Hi. }
  apply admits_remove_head_into in Hadm as [Hnil|(blk & Hb & [Hn Hmax])];
    [by rewrite <- Hi in Hnil|].
  assert (length (take n blk) = n) as Hlen by (rewrite length_take; lia).
  pose proof (q_remove_head_buf_spec h q e es tl buf [] (take n blk) (drop n blk)) as Hwp.
  rewrite Hlen in Hwp. simpl in Hwp. rewrite take_drop in Hwp.
  eapply wp_mono;
    [apply Hwp; [apply Hrep|lia|by eapply lookup_weaken, ro_env| |lia..]|].
  { intros Hin%(ro_apart _ _ _ _ _ _ Hrep). congruence. }
  intros r h' (-> & Hq' & ->). apply wp_ret. eexists.
  split; [simpl; by rewrite <- Hi, Hb, decide_True|].
  eapply (rep_pop _ _ _ (AQueue _ _ _)); [by eapply rep_write_env|done].
Qed.

Lemma refine_size h0 q h a es tl :
  rep_of h0 q h a es tl -> wp (run_call (Ptr q 0) Size) (refined h0 q Size a) h.
Proof.
  intros Hrep. simpl. apply wp_bind.
  eapply wp_ok; [by eapply q_size_rep, Hrep|]. apply wp_ret.
  eapply refined_same; [done|]. simpl.
  by rewrite (rep_length _ _ _ _ _ _ Hrep), decide_True.
Qed.

Lemma refine_reverse h0 q h a es tl :
  rep_of h0 q h a es tl -> admits Reverse a ->
  wp (run_call (Ptr q 0) Reverse) (refined h0 q Reverse a) h.
Proof.
  intros Hrep Hlv%admits_reverse.
  pose proof (ro_tail _ _ _ _ _ _ Hrep) as Ht. rewrite Hlv in Ht. simpl in Ht. subst tl.
  simpl. apply wp_bind.
  eapply wp_mono; [apply (q_reverse_spec h q es), Hrep|].
  intros [] h' [Hq' Hf]. apply wp_ret. eexists. split; [simpl; by rewrite Hlv|].
  exists (reverse es). eexists.
  eapply rep_step; [done|exact Hq'| |done|rewrite length_reverse; apply Hrep|..].
  - unfold contents. by rewrite fmap_reverse, <- (ro_items _ _ _ _ _ _ Hrep).
  - eapply same_outside_weaken; [|done]. intros l. rewrite locs_reverse.
    intros [->|?%node_locs_sub]%elem_of_cons; set_solver.
  - intros l. rewrite locs_reverse. auto.
  - intros l. rewrite locs_reverse. auto.
Qed.

Lemma refine_sort h0 q h a es tl :
  rep_of h0 q h a es tl -> wp (run_call (Ptr q 0) Sort) (refined h0 q Sort a) h.
Proof.
  intros Hrep. simpl. apply wp_bind.
  eapply wp_mono; [apply (q_sort_spec h q es tl); apply Hrep|].
  intros [] h' [Hq' Hf]. apply wp_ret. eexists. split; [done|].
  exists (msort elem_ltb es). eexists.
  eapply rep_step; [done|exact Hq'| | |rewrite msort_length; apply Hrep|..].
  - by rewrite msort_contents, (ro_items _ _ _ _ _ _ Hrep).
  - rewrite <- (ro_items _ _ _ _ _ _ Hrep). by apply tail_ok_sort, Hrep.
  - eapply same_outside_weaken; [|done]. intros l. rewrite msort_perm.
    intros [->|?%node_locs_sub]%elem_of_cons; set_solver.
  - intros l. rewrite msort_perm. auto.
  - intros l. rewrite msort_perm. auto.
Qed.

(** Every call that the contract admits returns, with a reply that the
    contract allows, in a heap that represents the next state. *)
Lemma refine_call h0 q h a c :
  rep h0 q h a -> admits c a ->
  wp (run_call (Ptr q 0) c) (refined h0 q c a) h.
Proof.
  intros (es & tl & Hrep) Hadm.
  destruct c; eauto using refine_insert_head, refine_insert_tail, refine_remove_head,
    refine_remove_head_into, refine_size, refine_reverse, refine_sort.
Qed.

(** The same for a sequence of calls. *)
Lemma refine_calls h0 q cs : forall h a,
  rep h0 q h a -> safe cs a ->
  wp (run_calls (Ptr q 0) cs)
     (fun rs h' => length rs = length cs /\
        exists a', asteps (zip cs rs) a = Some a' /\ rep h0 q h' a') h.
Proof.
  induction cs as [|c cs IH]; intros h a Hrep Hsafe; simpl.
  - apply wp_ret. eauto.
  - destruct Hsafe as [Hadm Hnext]. apply wp_bind.
    eapply wp_mono; [by apply refine_call|].
    intros r h1 (a1 & Hstep & Hrep1). apply wp_bind.
    eapply wp_mono; [apply (IH _ a1); eauto|].
    intros rs h2 (Hlen & a2 & Hsteps & Hrep2). apply wp_ret.
    split; [simpl; by rewrite Hlen|]. exists a2. simpl. by rewrite Hstep.
Qed.

(** ** The life of a queue *)

(** [q_new] starts the contract. *)
Lemma rep_new h0 b e0 :
  e0 ⊆ h0 -> h0 !! b = None ->
  queue_ok (<[b := queue_t Null Null 0]> h0) b [] ->
  rep_of h0 b (<[b := queue_t Null Null 0]> h0) (AQueue [] true e0) [] Null.
Proof.
  intros He Hb Hq. split; simpl; [done..|unfold INT_MAX; lia| | | |].
  - etrans; [done|]. by apply insert_subseteq.
  - intros l ->%list_elem_of_singleton. by eapply lookup_weaken_None.
  - intros l Hl _. rewrite lookup_insert_ne; [done|]. set_solver.
  - by intros l ->%list_elem_of_singleton.
Qed.

(** [q_free] ends it: the heap is the one in which the queue was
    created, with the caller's blocks as the calls left them. *)
Lemma rep_free h0 q h a es tl :
  rep_of h0 q h a es tl -> delete q (delete_all (locs es) h) = env a ∪ h0.
Proof.
  intros [_ _ _ _ Henv Hap Hbase Hfr]. apply map_eq. intros l.
  destruct (env a !! l) as [x|] eqn:El.
  - rewrite (lookup_union_Some_l _ _ _ _ El).
    assert (l ∉ q :: locs es) as Hl by (intros ?%Hap; congruence).
    rewrite lookup_delete_ne, lookup_delete_all, decide_False by set_solver.
    by eapply lookup_weaken.
  - rewrite lookup_union_r by done. destruct (decide (l ∈ q :: locs es)) as [Hin|Hin].
    + rewrite (Hfr l Hin). apply lookup_delete_None.
      destruct (decide (q = l)); [by left|right].
      rewrite lookup_delete_all, decide_True; set_solver.
    + rewrite lookup_delete_ne, lookup_delete_all, decide_False by set_solver.
      by apply Hbase.
Qed.

Lemma session_spec cs h0 e0 :
  e0 ⊆ h0 -> safe cs (AQueue [] true e0) ->
  wp (run_session cs)
     (fun r h' =>
        match r with
        | None => h' = h0
        | Some rs =>
            length rs = length cs /\
            exists a', asteps (zip cs rs) (AQueue [] true e0) = Some a' /\
                       h' = env a' ∪ h0
        end) h0.
Proof.
  intros He Hsafe. unfold run_session. apply wp_bind.
  eapply wp_mono; [apply q_new_spec|]. intros q h1.
  destruct (alloc_block h0 3) as [b|]; [|by intros [-> ->]; apply wp_ret].
  intros (-> & Hb & -> & Hq). cbn [is_null]. apply wp_bind.
  eapply wp_mono; [apply (refine_calls h0 b cs); [|done]|].
  { exists [], Null. by apply rep_new. }
  intros rs h2 (Hlen & a' & Hsteps & es & tl & Hrep). apply wp_bind.
  eapply wp_ok; [by eapply q_free_spec, Hrep|]. apply wp_ret.
  split; [done|]. exists a'. split; [done|]. by eapply rep_free.
Qed.

(** ** The contract, as runs *)

(** C12: every call that the contract admits returns without fault, with
    a reply that the contract allows, and leaves a heap that represents
    the state that the contract gives for the call and the reply. *)
Theorem call_refines h0 q h a c :
  rep h0 q h a -> admits c a ->
  exists r h' a', run_call (Ptr q 0) c h = Ok (r, h') /\
    astep c r a = Some a' /\ rep h0 q h' a'.
Proof.
  intros Hrep Hadm. pose proof (refine_call _ _ _ _ _ Hrep Hadm) as Hwp.
  apply wp_run in Hwp as (r & h' & Hrun & a' & Hstep & Hrep'). eauto 8.
Qed.

(** C1: a caller whose calls stay inside the contract, whatever the
    replies, never meets a fault: the sequence of calls returns as many
    replies as there are calls, the contract allows them in this order,
    and the heap represents the state that the contract reaches. *)
Theorem calls_refine h0 q h a cs :
  rep h0 q h a -> safe cs a ->
  exists rs h' a', run_calls (Ptr q 0) cs h = Ok (rs, h') /\
    length rs = length cs /\ asteps (zip cs rs) a = Some a' /\ rep h0 q h' a'.
Proof.
  intros Hrep Hsafe. pose proof (refine_calls _ _ _ _ _ Hrep Hsafe) as Hwp.
  apply wp_run in Hwp as (rs & h' & Hrun & Hlen & a' & Hsteps & Hrep'). eauto 8.
Qed.

(** C2: the life of a queue, from [q_new] over calls inside the contract
    to [q_free], leaves the heap as it was before [q_new], but for the
    buffers of the caller, which hold what the contract says: every block
    that was allocated is released, none twice, and no other block is
    written. *)
Theorem session_restores_heap cs h0 e0 :
  e0 ⊆ h0 -> safe cs (AQueue [] true e0) ->
  exists r h', run_session cs h0 = Ok (r, h') /\
    match r with
    | None => h' = h0
    | Some rs =>
        exists a', asteps (zip cs rs) (AQueue [] true e0) = Some a' /\
                   h' = env a' ∪ h0
    end.
Proof.
  intros He Hsafe. pose proof (session_spec _ _ _ He Hsafe) as Hwp.
  apply wp_run in Hwp as (r & h' & Hrun & Hpost). exists r, h'.
  split; [done|]. destruct r; [|done]. by destruct Hpost.
Qed.

(** C20: after every sequence of calls inside the contract [q_size]
    returns the number of nodes that are linked from [head]. *)
Theorem size_counts_nodes h0 q h a cs :
  rep h0 q h a -> safe cs a ->
  exists rs h' es tl, run_calls (Ptr q 0) cs h = Ok (rs, h') /\
    queue_rep h' q es tl /\ q_size (Ptr q 0) h' = Ok (Z.of_nat (length es), h').
Proof.
  intros Hrep Hsafe. pose proof (refine_calls _ _ _ _ _ Hrep Hsafe) as Hwp.
  apply wp_run in Hwp as (rs & h' & Hrun & _ & a' & _ & es & tl & Hrep').
  exists rs, h', es, tl. split_and!; [done|apply Hrep'|eapply q_size_rep, Hrep'].
Qed.

(** C21: as long as the caller does not remove, the queue stays well
    formed, [tail] included, under every sequence of calls inside the
    contract. *)
Theorem tail_valid_without_removal h0 q h a cs :
  rep h0 q h a -> live a = true -> safe cs a ->
  Forall (fun c => removes c = false) cs ->
  exists rs h' es, run_calls (Ptr q 0) cs h = Ok (rs, h') /\ queue_ok h' q es.
Proof.
  intros Hrep Hlv Hsafe Hcs. pose proof (refine_calls _ _ _ _ _ Hrep Hsafe) as Hwp.
  apply wp_run in Hwp as (rs & h' & Hrun & Hlen & a' & Hsteps & es & tl & Hrep').
  exists rs, h', es. split; [done|].
  apply asteps_live in Hsteps; [|done|].
  - pose proof (ro_tail _ _ _ _ _ _ Hrep') as Ht. rewrite Hsteps in Ht.
    simpl in Ht. subst tl. apply Hrep'.
  - apply (Forall_fmap fst (fun c => removes c = false)).
    by rewrite fst_zip by lia.
Qed.

(** C13: first in, first out.  A string inserted at the tail of a queue
    of [k] strings is delivered by the removal that follows [k]
    removals: if the insertion succeeds, that removal succeeds and the
    buffer holds the string, cut to the buffer and terminated. *)
Theorem fifo_delivery h0 q h a s str buf n blk :
  rep h0 q h a -> live a = true -> cstr_at (env a) s str -> fits a str ->
  env a !! buf = Some blk -> buffer_ok n blk ->
  exists rs h',
    run_calls (Ptr q 0)
      (InsertTail s str :: replicate (length (items a)) RemoveHead
         ++ [RemoveHeadInto buf n]) h = Ok (rs, h') /\
    (head rs = Some (RBool true) ->
     last rs = Some (RBool true) /\
     h' !! buf = Some (copy_out_cells str n ++ drop n blk)).
Proof.
  intros Hrep Hlv Hs Hf Hb Hn.
  pose proof (refine_calls _ _ _ _ _ Hrep (safe_fifo _ _ _ _ _ _ Hlv Hs Hf Hb Hn)) as Hwp.
  apply wp_run in Hwp as (rs & h' & Hrun & Hlen & a' & Hsteps & es & tl & Hrep').
  exists rs, h'. split; [done|]. intros Hhd.
  eapply asteps_fifo in Hsteps as [Hlast Hbuf];
    [|by rewrite fst_zip by lia|by rewrite snd_zip by lia|done].
  rewrite snd_zip in Hlast by lia. split; [done|].
  by eapply lookup_weaken, ro_env.
Qed.

(** C31: last in, first out.  A string inserted at the head of any
    queue, whatever its [tail], is delivered by the next removal: if the
    insertion succeeds, the removal succeeds and the buffer holds the
    string, cut to the buffer and terminated. *)
Theorem lifo_delivery h0 q h a s str buf n blk :
  rep h0 q h a -> cstr_at (env a) s str -> fits a str ->
  env a !! buf = Some blk -> buffer_ok n blk ->
  exists rs h',
    run_calls (Ptr q 0) [InsertHead s str; RemoveHeadInto buf n] h = Ok (rs, h') /\
    (head rs = Some (RBool true) ->
     last rs = Some (RBool true) /\
     h' !! buf = Some (copy_out_cells str n ++ drop n blk)).
Proof.
  intros Hrep Hs Hf Hb Hn.
  pose proof (refine_calls _ _ _ _ _ Hrep (safe_lifo _ _ _ _ _ _ Hs Hf Hb Hn)) as Hwp.
  apply wp_run in Hwp as (rs & h' & Hrun & Hlen & a' & Hsteps & es & tl & Hrep').
  exists rs, h'. split; [done|]. intros Hhd.
  eapply asteps_lifo in Hsteps as [Hlast Hbuf];
    [|by rewrite fst_zip by lia|by rewrite snd_zip by lia|done].
  rewrite snd_zip in Hlast by lia. split; [done|].
  by eapply lookup_weaken, ro_env.
Qed.

(** C32: strings that the caller inserts at the tail of a well-formed
    queue and a sort.  The calls return without fault, and if no
    insertion fails the queue is well formed and holds the old and the
    new strings in the order of the merge sort of stdpp under the order
    of [less_than]. *)
Theorem sorted_after_inserts h0 q h a ss :
  rep h0 q h a -> live a = true -> strings_at (env a) ss ->
  Z.of_nat (length (items a) + length ss) <= INT_MAX ->
  exists rs h',
    run_calls (Ptr q 0) (insert_tails ss ++ [Sort]) h = Ok (rs, h') /\
    (all_succeed rs ->
     exists es, queue_ok h' q es /\
       contents es = merge_sort lex_le (items a ++ ss.*2)).
Proof.
  intros Hrep Hlv Hss Hlen.
  assert (safe (insert_tails ss ++ [Sort]) a) as Hsafe.
  { apply safe_insert_tails; [done..|]. intros a' _ _. split; [apply admits_sort|done]. }
  pose proof (refine_calls _ _ _ _ _ Hrep Hsafe) as Hwp.
  apply wp_run in Hwp as (rs & h' & Hrun & Hl & a' & Hsteps & es & tl & Hrep').
  exists rs, h'. split; [done|]. intros Hok.
  eapply asteps_sorted_inserts in Hsteps as [Hi Hlv'];
    [|done|by rewrite fst_zip by lia|by rewrite snd_zip by lia].
  exists es. rewrite (ro_items _ _ _ _ _ _ Hrep'), Hi. split; [|done].
  pose proof (ro_tail _ _ _ _ _ _ Hrep') as Ht. rewrite Hlv' in Ht.
  simpl in Ht. subst tl. apply Hrep'.
Qed.

End Refine.

(** ** The theorems at a concrete heap *)

Lemma rep_empty : rep caller 1 h_empty a_empty.
Proof. exists [], Null. apply rep_new; [done|by_compute|apply h_empty_ok]. Qed.

Lemma admits_hello : admits (InsertTail (Ptr 100 0) s_hello) a_empty.
Proof.
  apply admits_insert_tail. split_and!; [done|by apply caller_string|by_compute].
Qed.

Lemma safe_hello :
  safe [InsertTail (Ptr 100 0) s_hello; RemoveHeadInto 101 3] a_empty.
Proof.
  apply (safe_fifo a_empty (Ptr 100 0) s_hello 101 3 (replicate 3 VUndef));
    [done|by apply caller_string|by_compute|done|by_compute].
Qed.

Lemma call_refines_witness :
  exists r h' a',
    @run_call fresh_allocator (Ptr 1 0) (InsertTail (Ptr 100 0) s_hello) h_empty
      = Ok (r, h') /\
    astep (InsertTail (Ptr 100 0) s_hello) r a_empty = Some a' /\ rep caller 1 h' a'.
Proof. apply call_refines; [apply rep_empty|apply admits_hello]. Defined.

Lemma calls_refine_witness :
  exists rs h' a',
    @run_calls fresh_allocator (Ptr 1 0)
      [InsertTail (Ptr 100 0) s_hello; RemoveHeadInto 101 3] h_empty = Ok (rs, h') /\
    length rs = length [InsertTail (Ptr 100 0) s_hello; RemoveHeadInto 101 3] /\
    asteps (zip [InsertTail (Ptr 100 0) s_hello; RemoveHeadInto 101 3] rs) a_empty
      = Some a' /\
    rep caller 1 h' a'.
Proof. apply calls_refine; [apply rep_empty|apply safe_hello]. Defined.

Lemma session_restores_heap_witness :
  exists r h',
    @run_session fresh_allocator
      [InsertTail (Ptr 100 0) s_hello; RemoveHeadInto 101 3] caller = Ok (r, h') /\
    match r with
    | None => h' = caller
    | Some rs =>
        exists a',
          asteps (zip [InsertTail (Ptr 100 0) s_hello; RemoveHeadInto 101 3] rs)
            (AQueue [] true caller) = Some a' /\
          h' = env a' ∪ caller
    end.
Proof. apply session_restores_heap; [done|apply safe_hello]. Defined.

Lemma size_counts_nodes_witness :
  exists rs h' es tl,
    @run_calls fresh_allocator (Ptr 1 0)
      [InsertTail (Ptr 100 0) s_hello; RemoveHeadInto 101 3] h_empty = Ok (rs, h') /\
    queue_rep h' 1 es tl /\ q_size (Ptr 1 0) h' = Ok (Z.of_nat (length es), h').
Proof. apply (size_counts_nodes caller 1 h_empty a_empty); [apply rep_empty|apply safe_hello]. Defined.

Lemma tail_valid_without_removal_witness :
  exists rs h' es,
    @run_calls fresh_allocator (Ptr 1 0) [InsertTail (Ptr 100 0) s_hello; Reverse; Sort]
      h_empty = Ok (rs, h') /\
    queue_ok h' 1 es.
Proof.
  apply (tail_valid_without_removal caller 1 h_empty a_empty);
    [apply rep_empty|done| |by repeat constructor].
  split; [apply admits_hello|]. intros r a1 Hr.
  split; [|split; [apply admits_sort|done]].
  apply admits_reverse. destruct (live a1) eqn:Hl; [done|].
  by destruct (astep_stale _ _ _ _ Hr eq_refl Hl).
Defined.

Lemma fifo_delivery_witness :
  exists rs h',
    @run_calls fresh_allocator (Ptr 1 0)
      (InsertTail (Ptr 100 0) s_hello :: replicate (length (items a_empty)) RemoveHead
         ++ [RemoveHeadInto 101 3]) h_empty = Ok (rs, h') /\
    (head rs = Some (RBool true) ->
     last rs = Some (RBool true) /\
     h' !! 101%positive = Some (copy_out_cells s_hello 3 ++ drop 3 (replicate 3 VUndef))).
Proof.
  apply (fifo_delivery caller 1 h_empty a_empty);
    [apply rep_empty|done|by apply caller_string|by_compute|done|by_compute].
Defined.

(** Inserting hello at the head of the empty queue and removing it into
    a buffer of three cells leaves h, e and the terminator there. *)
Lemma lifo_delivery_witness :
  exists rs h',
    @run_calls fresh_allocator (Ptr 1 0)
      [InsertHead (Ptr 100 0) s_hello; RemoveHeadInto 101 3] h_empty = Ok (rs, h') /\
    (head rs = Some (RBool true) ->
     last rs = Some (RBool true) /\
     h' !! 101%positive = Some (copy_out_cells s_hello 3 ++ drop 3 (replicate 3 VUndef))).
Proof.
  apply (lifo_delivery caller 1 h_empty a_empty);
    [apply rep_empty|by apply caller_string|by_compute|done|by_compute].
Defined.

Lemma rep_fruit : rep fruit 1 h_fruit a_fruit.
Proof. exists [], Null. apply rep_new; [done|by_compute|by_compute]. Qed.

(** Banana, apple and cherry inserted at the tail and sorted. *)
Lemma sorted_after_inserts_witness :
  exists rs h',
    @run_calls fresh_allocator (Ptr 1 0) (insert_tails fruit_strings ++ [Sort]) h_fruit
      = Ok (rs, h') /\
    (all_succeed rs ->
     exists es, queue_ok h' 1 es /\
       contents es = merge_sort lex_le (items a_fruit ++ fruit_strings.*2)).
Proof.
  apply (sorted_after_inserts fruit 1 h_fruit a_fruit);
    [apply rep_fruit|done|by_compute|by_compute].
Defined.
